(** * Equality saturation engine: a shallow embedding of the TypeScript sources

    The development follows the repository file by file:
    - [Language]  : language.ts (terms, patterns, printer, S-expression parser);
    - [UF]        : union-find.ts (parent/rank arrays, path compression);
    - [EG]        : egraph.ts (hash-consed e-graph, merge/repair, e-matching,
                    extraction and the saturation driver);
    - [WL]        : the [EGraph] class of src/unnamed/part_000, which keeps
                    the parents in arrays and repairs through a worklist
                    (add, merge, rebuild, repair, addTerm).

    Conventions.
    - A JavaScript string is a [string]; its characters are code units below
      256, so the whitespace class of the tokenizer regular expression is
      restricted to that range.
    - Immutable.js keeps a [Map] or a [Set] of at most eight entries as an
      array of entries, and that array is the association list or list here:
      [set] on a present key replaces the value in place, on an absent key
      appends, and [delete] moves the last entry into the place of the one
      it removes. A larger collection is a hash trie, which iterates in the
      order of the hashes of its keys; that order is not modelled.
    - Recursion that is not structural in the source takes a [fuel] argument;
      running out of fuel is a distinct outcome, never confused with a thrown
      exception. *)

From Stdlib Require Import List Arith ZArith Lia Bool String Ascii Permutation.
Import ListNotations.

Set Warnings "-register-all".

(* ------------------------------------------------------------------ *)
(** * language.ts *)

Module Language.

Local Open Scope string_scope.

(** [type Term = { op: string; children: ReadonlyArray<Term> }] *)
Inductive Term : Type :=
| mkTerm (op : string) (children : list Term).

(** [type Pattern = {tag:"var"; name} | {tag:"node"; op; children}] *)
Inductive Pattern : Type :=
| PVar (name : string)
| PNode (op : string) (children : list Pattern).

(** [type Sexp = string | Sexp[]] *)
Inductive Sexp : Type :=
| Atom (s : string)
| SList (l : list Sexp).

(** Outcome of the parser functions: a value, a thrown [Error] with its
    message, or exhaustion of the fuel of the model. *)
Inductive result (A : Type) : Type :=
| Ok (a : A)
| Err (msg : string)
| NoFuel.
Arguments Ok {A} a.
Arguments Err {A} msg.
Arguments NoFuel {A}.

(** [Array.prototype.join(" ")]. *)
Definition join (l : list string) : string := String.concat " " l.

(** [printTerm] *)
Fixpoint printTerm (t : Term) : string :=
  match t with
  | mkTerm op children =>
      match children with
      | [] => op
      | _ => "(" ++ op ++ " " ++ join (map printTerm children) ++ ")"
      end
  end.

(** [printPattern] *)
Fixpoint printPattern (p : Pattern) : string :=
  match p with
  | PVar name => "?" ++ name
  | PNode op children =>
      match children with
      | [] => op
      | _ => "(" ++ op ++ " " ++ join (map printPattern children) ++ ")"
      end
  end.

(** The class [\s] of the regular expression, on code units below 256:
    TAB, LF, VT, FF, CR, space and NBSP. *)
Definition is_space (c : ascii) : bool :=
  let n := nat_of_ascii c in
  (Nat.leb 9 n && Nat.leb n 13) || Nat.eqb n 32 || Nat.eqb n 160.

Definition is_paren (c : ascii) : bool :=
  Nat.eqb (nat_of_ascii c) 40 || Nat.eqb (nat_of_ascii c) 41.

(** A pending atom is emitted when it is not empty. *)
Definition flush (cur : string) : list string :=
  match cur with
  | EmptyString => []
  | _ => [cur]
  end.

(** [input.match(/[()]|[^\s()]+/g) ?? []]: every parenthesis is a token and
    every maximal run of characters that are neither whitespace nor
    parentheses is a token; [cur] is the run read so far. *)
Fixpoint tokenize_from (cur : string) (input : string) : list string :=
  match input with
  | EmptyString => flush cur
  | String c rest =>
      if is_paren c then flush cur ++ String c EmptyString :: tokenize_from "" rest
      else if is_space c then flush cur ++ tokenize_from "" rest
      else tokenize_from (cur ++ String c EmptyString) rest
  end.

Definition tokenize (input : string) : list string := tokenize_from "" input.

(** [parseSexp(tokens, pos)] together with its [while] loop
    ([parseItems], which carries the loop variable [i] and the list built so
    far). *)
Fixpoint parseSexp (fuel : nat) (tokens : list string) (pos : nat)
  : result (Sexp * nat) :=
  match fuel with
  | O => NoFuel
  | S f =>
      match nth_error tokens pos with
      | None => Err "Unexpected end of input"
      | Some token =>
          if String.eqb token ")" then Err "Unexpected ')'"
          else if negb (String.eqb token "(") then Ok (Atom token, pos + 1)
          else parseItems f tokens (pos + 1) []
      end
  end
with parseItems (fuel : nat) (tokens : list string) (i : nat) (list : list Sexp)
  : result (Sexp * nat) :=
  match fuel with
  | O => NoFuel
  | S f =>
      match nth_error tokens i with
      | None => Err "Expected ')'"
      | Some token =>
          if String.eqb token ")" then Ok (SList list, i + 1)
          else
            match parseSexp f tokens i with
            | Ok (elem, next) => parseItems f tokens next (list ++ [elem])
            | Err m => Err m
            | NoFuel => NoFuel
            end
      end
  end.

(** [tail.map(f)] for a conversion that may throw: the first failure wins. *)
Definition mapResult {A B} (f : A -> result B) : list A -> result (list B) :=
  fix go (l : list A) : result (list B) :=
    match l with
    | [] => Ok []
    | x :: xs =>
        match f x with
        | Ok y =>
            match go xs with
            | Ok ys => Ok (y :: ys)
            | Err m => Err m
            | NoFuel => NoFuel
            end
        | Err m => Err m
        | NoFuel => NoFuel
        end
    end.

(** [sexpToTerm] *)
Fixpoint sexpToTerm (sexp : Sexp) : result Term :=
  match sexp with
  | Atom s => Ok (mkTerm s [])
  | SList [] => Err "Expected operator after '('"
  | SList (Atom head :: tail) =>
      match mapResult sexpToTerm tail with
      | Ok cs => Ok (mkTerm head cs)
      | Err m => Err m
      | NoFuel => NoFuel
      end
  | SList (SList _ :: _) => Err "Operator must be an atom"
  end.

(** [sexp.startsWith("?")] *)
Definition startsWithQ (s : string) : bool :=
  match s with
  | String c _ => Ascii.eqb c "?"%char
  | EmptyString => false
  end.

(** [sexp.slice(1)] *)
Definition slice1 (s : string) : string :=
  match s with
  | String _ r => r
  | EmptyString => EmptyString
  end.

(** [sexpToPattern] *)
Fixpoint sexpToPattern (sexp : Sexp) : result Pattern :=
  match sexp with
  | Atom s => if startsWithQ s then Ok (PVar (slice1 s)) else Ok (PNode s [])
  | SList [] => Err "Expected operator after '('"
  | SList (Atom head :: tail) =>
      match mapResult sexpToPattern tail with
      | Ok cs => Ok (PNode head cs)
      | Err m => Err m
      | NoFuel => NoFuel
      end
  | SList (SList _ :: _) => Err "Operator must be an atom"
  end.

(** Every position is entered at most twice on a path of the recursion
    (once by the loop, once by the call for its element), so twice the
    number of tokens (plus two for the entry) bounds its depth. *)
Definition parseFuel (tokens : list string) : nat :=
  S (S (2 * List.length tokens)).

(** [parseTerm] *)
Definition parseTerm (input : string) : result Term :=
  let tokens := tokenize input in
  match parseSexp (parseFuel tokens) tokens 0 with
  | Ok (sexp, pos) =>
      if Nat.ltb pos (List.length tokens)
      then Err ("Unexpected tokens: " ++ join (skipn pos tokens))
      else sexpToTerm sexp
  | Err m => Err m
  | NoFuel => NoFuel
  end.

(** [parsePattern] *)
Definition parsePattern (input : string) : result Pattern :=
  let tokens := tokenize input in
  match parseSexp (parseFuel tokens) tokens 0 with
  | Ok (sexp, pos) =>
      if Nat.ltb pos (List.length tokens)
      then Err ("Unexpected tokens: " ++ join (skipn pos tokens))
      else sexpToPattern sexp
  | Err m => Err m
  | NoFuel => NoFuel
  end.

End Language.

(* ------------------------------------------------------------------ *)
(** * Outcomes of stateful code *)

(** A computation over a mutable state [S] either returns a value with the
    state it leaves, throws a JavaScript exception (the state reached is kept:
    a [catch] resumes from it), throws an exception from a state that [S]
    cannot represent, leaves the part of the behaviour that is modelled, or
    exhausts the fuel of the model.

    [ThrowOutside] is the [TypeError] that follows the use of [undefined] as
    an e-class id: by then the source has stored [undefined] in a node or
    under the key [undefined] of an array, and no value of [S] is that
    state.

    [Unmodelled] stands for a contract violation of the union-find: [find] or
    [union] on a key beyond the arrays (the source then stores [undefined]
    into the array), or a dangling object reference. *)
Inductive outcome (S A : Type) : Type :=
| Ret (a : A) (s : S)
| Throw (s : S)
| ThrowOutside
| Unmodelled
| OutOfFuel.
Arguments Ret {S A} a s.
Arguments Throw {S A} s.
Arguments ThrowOutside {S A}.
Arguments Unmodelled {S A}.
Arguments OutOfFuel {S A}.

Definition M (S A : Type) : Type := S -> outcome S A.

Definition ret {S A} (a : A) : M S A := fun s => Ret a s.

Definition bind {S A B} (m : M S A) (k : A -> M S B) : M S B :=
  fun s =>
    match m s with
    | Ret a s' => k a s'
    | Throw s' => Throw s'
    | ThrowOutside => ThrowOutside
    | Unmodelled => Unmodelled
    | OutOfFuel => OutOfFuel
    end.

Definition get {S} : M S S := fun s => Ret s s.
Definition put {S} (s : S) : M S unit := fun _ => Ret tt s.
Definition throw {S A} : M S A := fun s => Throw s.
Definition throw_outside {S A} : M S A := fun _ => ThrowOutside.
Definition unmodelled {S A} : M S A := fun _ => Unmodelled.

Declare Scope monad_scope.
Delimit Scope monad_scope with monad.
Notation "x <- m ;; k" := (bind m (fun x => k))
  (at level 61, m at next level, right associativity) : monad_scope.
Notation "m ;;; k" := (bind m (fun _ => k))
  (at level 61, right associativity) : monad_scope.

(** [Array.prototype.map] with an effectful callback, left to right. *)
Definition mapM {S A B} (f : A -> M S B) : list A -> M S (list B) :=
  fix go (l : list A) : M S (list B) :=
    match l with
    | [] => ret []
    | x :: xs => (y <- f x ;; ys <- go xs ;; ret (y :: ys))%monad
    end.

(** [for (const x of l) body(x)] *)
Definition forM {S A} (f : A -> M S unit) : list A -> M S unit :=
  fix go (l : list A) : M S unit :=
    match l with
    | [] => ret tt
    | x :: xs => (f x ;;; go xs)%monad
    end.

(** [a[i] = v] on an array, for an index inside it. *)
Fixpoint upd {A} (l : list A) (i : nat) (v : A) : list A :=
  match l, i with
  | [], _ => []
  | _ :: xs, O => v :: xs
  | x :: xs, S j => x :: upd xs j v
  end.

(* ------------------------------------------------------------------ *)
(** * union-find.ts *)

Module UF.

Definition Key : Type := nat.

(** [class UnionFind { private parent: Key[]; private rank: number[] }] *)
Record UnionFind : Type := mkUF {
  parent : list Key;
  rank : list nat
}.

(** [constructor(size)]: the keys [0 .. size-1], each its own parent, with
    rank 0. *)
Definition create (size : nat) : UnionFind := mkUF (seq 0 size) (repeat 0 size).

(** [new UnionFind(0)] *)
Definition empty : UnionFind := mkUF [] [].

(** [find(x)], with the depth of the recursion bounded by [fuel]. *)
Fixpoint find_fuel (fuel : nat) (x : Key) (uf : UnionFind)
  : outcome UnionFind Key :=
  match fuel with
  | O => OutOfFuel
  | S f =>
      match nth_error (parent uf) x with
      | None => Unmodelled
      | Some p =>
          if Nat.eqb p x then Ret p uf
          else
            match find_fuel f p uf with
            | Ret r uf' => Ret r (mkUF (upd (parent uf') x r) (rank uf'))
            | o => o
            end
      end
  end.

(** Ranks grow strictly along the parent links of the forests that [union]
    builds, so a chain has at most [max rank + 1] elements. *)
Definition find_depth (uf : UnionFind) : nat := S (list_max (rank uf)).

Definition find (x : Key) : M UnionFind Key :=
  fun uf => find_fuel (find_depth uf) x uf.

(** [union(x, y)]: [Some (root, child)] is [{ root, child }], [None] is
    [null]. *)
Definition union (x y : Key) : M UnionFind (option (Key * Key)) :=
  (rootX <- find x ;;
   rootY <- find y ;;
   if Nat.eqb rootX rootY then ret None
   else
     uf <- get ;;
     match nth_error (rank uf) rootX, nth_error (rank uf) rootY with
     | Some rx, Some ry =>
         if Nat.ltb rx ry then
           put (mkUF (upd (parent uf) rootX rootY) (rank uf)) ;;;
           ret (Some (rootY, rootX))
         else if Nat.ltb ry rx then
           put (mkUF (upd (parent uf) rootY rootX) (rank uf)) ;;;
           ret (Some (rootX, rootY))
         else
           put (mkUF (upd (parent uf) rootY rootX) (upd (rank uf) rootX (S rx))) ;;;
           ret (Some (rootX, rootY))
     | _, _ => unmodelled
     end)%monad.

(** [connected(x, y)] *)
Definition connected (x y : Key) : M UnionFind bool :=
  (rx <- find x ;; ry <- find y ;; ret (Nat.eqb rx ry))%monad.

(** [extend()] *)
Definition extend : M UnionFind Key :=
  fun uf =>
    let newKey := List.length (parent uf) in
    Ret newKey (mkUF (parent uf ++ [newKey]) (rank uf ++ [0])).

(** [get size()] *)
Definition size (uf : UnionFind) : nat := List.length (parent uf).

(** [Map.prototype.set] on the root-to-members map of [disjointSets]. *)
Fixpoint add_member (root key : Key) (m : list (Key * list Key))
  : list (Key * list Key) :=
  match m with
  | [] => if Nat.eqb key root then [(root, [root])] else [(root, [root; key])]
  | (r, ks) :: rest =>
      if Nat.eqb r root
      then (r, if Nat.eqb key root then ks else ks ++ [key]) :: rest
      else (r, ks) :: add_member root key rest
  end.

(** [get disjointSets()]: every key is looked up with [find], which
    compresses its path. *)
Definition disjointSets : M UnionFind (list (Key * list Key)) :=
  fun uf =>
    (fix go (keys : list Key) (acc : list (Key * list Key))
       : M UnionFind (list (Key * list Key)) :=
       match keys with
       | [] => ret acc
       | key :: rest =>
           (root <- find key ;; go rest (add_member root key acc))%monad
       end) (seq 0 (size uf)) [] uf.

End UF.

(* ------------------------------------------------------------------ *)
(** * Immutable.js collections as arrays of entries *)

Section Collections.
Context {K V : Type} (keq : K -> K -> bool).

(** [Map.prototype.get]: [None] when the key is absent. *)
Fixpoint map_get (k : K) (m : list (K * V)) : option V :=
  match m with
  | [] => None
  | (k', v) :: rest => if keq k k' then Some v else map_get k rest
  end.

(** [Map.prototype.set] *)
Fixpoint map_set (k : K) (v : V) (m : list (K * V)) : list (K * V) :=
  match m with
  | [] => [(k, v)]
  | (k', v') :: rest =>
      if keq k k' then (k', v) :: rest else (k', v') :: map_set k v rest
  end.

(** What is left of an array of entries when its first one is removed: the
    last entry is moved into the hole. *)
Definition move_last (rest : list (K * V)) : list (K * V) :=
  match rest with
  | [] => []
  | e :: _ => last rest e :: removelast rest
  end.

(** [Map.prototype.delete]: the entry of the key is removed and the last
    entry takes its place ([entries[idx] = entries.pop()]). *)
Fixpoint map_delete (k : K) (m : list (K * V)) : list (K * V) :=
  match m with
  | [] => []
  | (k', v') :: rest =>
      if keq k k' then move_last rest else (k', v') :: map_delete k rest
  end.

(** [Map.prototype.concat]: the entries of [m2] are set one by one. *)
Definition map_concat (m1 m2 : list (K * V)) : list (K * V) :=
  fold_left (fun acc kv => map_set (fst kv) (snd kv) acc) m2 m1.

(** [Set.prototype.has] *)
Fixpoint set_has (x : K) (s : list K) : bool :=
  match s with
  | [] => false
  | y :: rest => keq x y || set_has x rest
  end.

(** [Set.prototype.add] *)
Definition set_add (x : K) (s : list K) : list K :=
  if set_has x s then s else s ++ [x].

(** [Set.prototype.union] *)
Definition set_union (s1 s2 : list K) : list K :=
  fold_left (fun acc x => set_add x acc) s2 s1.
End Collections.

(* ------------------------------------------------------------------ *)
(** * egraph.ts: data *)

Module EG.

Import Language.

Definition EClassId : Type := UF.Key.

(** [createENode = Record({ op, children })]: a value with structural
    equality. *)
Record ENode : Type := mkENode {
  op : string;
  children : list EClassId
}.

Fixpoint ids_eqb (a b : list EClassId) : bool :=
  match a, b with
  | [], [] => true
  | x :: a', y :: b' => Nat.eqb x y && ids_eqb a' b'
  | _, _ => false
  end.

Definition enode_eqb (a b : ENode) : bool :=
  String.eqb (op a) (op b) && ids_eqb (children a) (children b).

(** [type EClass = { nodes; originalNode; parents }], a mutable object. *)
Record EClass : Type := mkEClass {
  nodes : list ENode;
  originalNode : ENode;
  parents : list (ENode * EClassId)
}.

(** [createSingletonEClass] *)
Definition createSingletonEClass (enode : ENode) : EClass :=
  mkEClass [enode] enode [].

(** The state of an [EGraph]. The [EClass] objects are mutated in place and
    are reached both through [classes] and through references held by a
    running [merge] or [repair], so they live in [store] and are named by
    their index there; [classes] maps an id to such a reference. A value
    [None] in [hashcons] is an entry whose value is [undefined]. *)
Record EGraph : Type := mkEGraph {
  unionFind : UF.UnionFind;
  store : list EClass;
  classes : list (EClassId * nat);
  hashcons : list (ENode * option EClassId)
}.

(** [new EGraph()] *)
Definition empty : EGraph := mkEGraph UF.empty [] [] [].

(** [get classCount()] and [get nodeCount()] *)
Definition classCount (g : EGraph) : nat := List.length (classes g).
Definition nodeCount (g : EGraph) : nat := List.length (hashcons g).

Definition set_unionFind (g : EGraph) (uf : UF.UnionFind) : EGraph :=
  mkEGraph uf (store g) (classes g) (hashcons g).
Definition set_store (g : EGraph) (st : list EClass) : EGraph :=
  mkEGraph (unionFind g) st (classes g) (hashcons g).
Definition set_classes (g : EGraph) (c : list (EClassId * nat)) : EGraph :=
  mkEGraph (unionFind g) (store g) c (hashcons g).
Definition set_hashcons (g : EGraph) (h : list (ENode * option EClassId)) : EGraph :=
  mkEGraph (unionFind g) (store g) (classes g) h.

(** A call of a method of [this.unionFind]. *)
Definition liftUF {A} (m : M UF.UnionFind A) : M EGraph A :=
  fun g =>
    match m (unionFind g) with
    | Ret a uf => Ret a (set_unionFind g uf)
    | Throw uf => Throw (set_unionFind g uf)
    | ThrowOutside => ThrowOutside
    | Unmodelled => Unmodelled
    | OutOfFuel => OutOfFuel
    end.

Definition modify (f : EGraph -> EGraph) : M EGraph unit :=
  fun g => Ret tt (f g).

(** Reading the object behind a reference. *)
Definition deref (r : nat) : M EGraph EClass :=
  fun g =>
    match nth_error (store g) r with
    | Some ec => Ret ec g
    | None => Unmodelled
    end.

(** Assigning the fields of the object behind a reference. *)
Definition set_nodes (r : nat) (ns : list ENode) : M EGraph unit :=
  (ec <- deref r ;;
   modify (fun g => set_store g
     (upd (store g) r (mkEClass ns (originalNode ec) (parents ec)))))%monad.

Definition set_parents (r : nat) (ps : list (ENode * EClassId)) : M EGraph unit :=
  (ec <- deref r ;;
   modify (fun g => set_store g
     (upd (store g) r (mkEClass (nodes ec) (originalNode ec) ps))))%monad.

(** [this.classes.get(id)]: [None] is [undefined]. *)
Definition classes_get (id : EClassId) (g : EGraph) : option nat :=
  map_get Nat.eqb id (classes g).

(** [this.hashcons.get(n)]: an absent key and a key bound to [undefined] both
    read as [undefined]. *)
Definition hashcons_get (n : ENode) (g : EGraph) : option EClassId :=
  match map_get enode_eqb n (hashcons g) with
  | Some v => v
  | None => None
  end.

(** [this.unionFind.find(eid)] for a value that may be [undefined]:
    [parent[undefined]] is [undefined], which [find] returns unchanged. *)
Definition find_undef (eid : option EClassId) : M EGraph (option EClassId) :=
  match eid with
  | None => ret None
  | Some e => (r <- liftUF (UF.find e) ;; ret (Some r))%monad
  end.

(* ------------------------------------------------------------------ *)
(** * egraph.ts: insertion, merge and repair *)

(** [canonicalize(enode)] *)
Definition canonicalize (enode : ENode) : M EGraph ENode :=
  (cs <- mapM (fun eid => liftUF (UF.find eid)) (children enode) ;;
   ret (mkENode (op enode) cs))%monad.

(** [add(enode)] *)
Definition add (enode0 : ENode) : M EGraph EClassId :=
  (enode <- canonicalize enode0 ;;
   g <- get ;;
   match hashcons_get enode g with
   | Some eid => ret eid
   | None =>
       eid <- liftUF UF.extend ;;
       modify (fun g => set_hashcons g
                 (map_set enode_eqb enode (Some eid) (hashcons g))) ;;;
       g1 <- get ;;
       let eclass := List.length (store g1) in
       modify (fun g => set_store g (store g ++ [createSingletonEClass enode])) ;;;
       modify (fun g => set_classes g (map_set Nat.eqb eid eclass (classes g))) ;;;
       forM (fun child_id =>
               g2 <- get ;;
               match classes_get child_id g2 with
               | None => throw
               | Some child =>
                   c <- deref child ;;
                   set_parents child (map_set enode_eqb enode eid (parents c))
               end) (children enode) ;;;
       ret eid
   end)%monad.

(** The loop of [repair(eclass)], over the entries that [eclass.parents] had
    when the loop started; [merge] is the method it calls back. *)
Definition repair_loop (merge : EClassId -> EClassId -> M EGraph bool)
  : list (ENode * EClassId) -> list (ENode * EClassId)
    -> M EGraph (list (ENode * EClassId)) :=
  fix loop (entries dedupParents : list (ENode * EClassId)) :=
    match entries with
    | [] => ret dedupParents
    | (parentENode, parentEClassId) :: rest =>
        (newParentNode <- canonicalize parentENode ;;
         newParentEid <- liftUF (UF.find parentEClassId) ;;
         modify (fun g => set_hashcons g
                   (map_set enode_eqb newParentNode (Some newParentEid)
                      (map_delete enode_eqb parentENode (hashcons g)))) ;;;
         match map_get enode_eqb newParentNode dedupParents with
         | Some (S n) => (* [if (newParentEid2)]: defined and not 0 *)
             merge parentEClassId (S n) ;;; ret tt
         | _ => ret tt
         end ;;;
         loop rest (map_set enode_eqb newParentNode newParentEid dedupParents))%monad
    end.

(** [repair(eclass)], on the reference of the object. *)
Definition repair_with (merge : EClassId -> EClassId -> M EGraph bool)
  (eclass : nat) : M EGraph unit :=
  (ec <- deref eclass ;;
   dedupParents <- repair_loop merge (parents ec) [] ;;
   set_parents eclass dedupParents)%monad.

(** [merge(eid1, eid2)]; [fuel] bounds the depth of the recursion through
    [repair]. *)
Fixpoint merge_fuel (fuel : nat) (eid1 eid2 : EClassId) : M EGraph bool :=
  match fuel with
  | O => fun _ => OutOfFuel
  | S f =>
      (unionResult <- liftUF (UF.union eid1 eid2) ;;
       match unionResult with
       | None => ret false
       | Some (newRootId, oldRootId) =>
           g <- get ;;
           let newRoot := classes_get newRootId g in
           let oldRoot := classes_get oldRootId g in
           modify (fun g => set_classes g (map_delete Nat.eqb oldRootId (classes g))) ;;;
           match oldRoot with
           | None => throw
           | Some oldRoot =>
               old <- deref oldRoot ;;
               g1 <- get ;;
               let eid := hashcons_get (originalNode old) g1 in
               canon <- canonicalize (originalNode old) ;;
               feid <- find_undef eid ;;
               modify (fun g => set_hashcons g
                         (map_set enode_eqb canon feid
                            (map_delete enode_eqb (originalNode old) (hashcons g1)))) ;;;
               match newRoot with
               | None => throw
               | Some newRoot =>
                   new <- deref newRoot ;;
                   old' <- deref oldRoot ;;
                   set_nodes newRoot (set_union enode_eqb (nodes new) (nodes old')) ;;;
                   new' <- deref newRoot ;;
                   old'' <- deref oldRoot ;;
                   set_parents newRoot
                     (map_concat enode_eqb (parents new') (parents old'')) ;;;
                   repair_with (merge_fuel f) newRoot ;;;
                   ret true
               end
           end
       end)%monad
  end.

(** Every level of the recursion follows a [union] that removed a class, so
    the number of classes (plus one for the entry) bounds its depth. *)
Definition merge (eid1 eid2 : EClassId) : M EGraph bool :=
  fun g => merge_fuel (S (classCount g)) eid1 eid2 g.

(** [repair(eclass)] as a method of its own. *)
Definition repair (eclass : nat) : M EGraph unit :=
  fun g => repair_with (merge_fuel (S (classCount g))) eclass g.

(** [addTerm(term)] *)
Fixpoint addTerm (term : Term) : M EGraph EClassId :=
  match term with
  | mkTerm top tchildren =>
      (childIds <- mapM addTerm tchildren ;;
       add (mkENode top childIds))%monad
  end.

Definition Substitution : Type := list (string * EClassId).

(** The ids of a list in which none is [undefined]. *)
Fixpoint defined {A} (l : list (option A)) : option (list A) :=
  match l with
  | [] => Some []
  | Some x :: rest =>
      match defined rest with
      | Some xs => Some (x :: xs)
      | None => None
      end
  | None :: _ => None
  end.

(** [addPattern(subst, pattern)]; [None] is [undefined], which
    [subst.get(name)!] returns for a variable without a binding. A node over
    such a child is canonicalized ([find(undefined)] is [undefined]), is not
    a key of [hashcons], and is inserted by [add]; the loop over its
    children then raises a [TypeError] at [classes.get(undefined)!.parents].
    The e-graph then holds a node with an undefined child. *)
Fixpoint addPattern (subst : Substitution) (pattern : Pattern)
  : M EGraph (option EClassId) :=
  match pattern with
  | PVar name => ret (map_get String.eqb name subst)
  | PNode pop pchildren =>
      (childIds <- mapM (addPattern subst) pchildren ;;
       match defined childIds with
       | Some ids => eid <- add (mkENode pop ids) ;; ret (Some eid)
       | None => throw_outside
       end)%monad
  end.

(* ------------------------------------------------------------------ *)
(** * egraph.ts: e-matching *)

(** The generator [worker] of [ematch]. A generator is resumed by its
    consumer after every [yield], and the consumer may change the e-graph in
    between; so the generator is written in continuation-passing style over
    the state: [k] is what the consumer does with a yielded substitution
    (and with its accumulator [acc]) before it asks for the next one. The
    chain of [flatMap]s over the zipped children is pulled lazily, which
    nests the workers of the children depth first: [chain]. [zip] stops at
    the shorter of its two lists. *)
Fixpoint worker {A : Type} (pattern : Pattern) (eid0 : EClassId)
  (subst : Substitution) (k : Substitution -> A -> M EGraph A) (acc : A)
  : M EGraph A :=
  (eid <- liftUF (UF.find eid0) ;;
   match pattern with
   | PVar name =>
       match map_get String.eqb name subst with
       | None => k (map_set String.eqb name eid subst) acc
       | Some entry =>
           if Nat.eqb entry eid
           then k (map_set String.eqb name eid subst) acc
           else ret acc
       end
   | PNode pop pchildren =>
       g <- get ;;
       match classes_get eid g with
       | None => throw
       | Some eclass =>
           ec <- deref eclass ;;
           (fix each (enodes : list ENode) (acc : A) : M EGraph A :=
              match enodes with
              | [] => ret acc
              | enode :: rest =>
                  if negb (String.eqb pop (op enode)) then each rest acc
                  else
                    acc' <-
                      (fix chain (ps : list Pattern) (cs : list EClassId)
                         (sub : Substitution) (acc : A) : M EGraph A :=
                         match ps, cs with
                         | childPattern :: ps', childEid :: cs' =>
                             worker childPattern childEid sub
                               (fun sub' acc' => chain ps' cs' sub' acc') acc
                         | _, _ => k sub acc
                         end) pchildren (children enode) subst acc ;;
                    each rest acc'
              end) (nodes ec) acc
       end
   end)%monad.

(** [ematch(pattern)], consumed by [k]: the keys of [classes] are those of
    the map when the generator starts. *)
Definition ematch {A : Type} (pattern : Pattern)
  (k : Substitution -> EClassId -> A -> M EGraph A) (acc : A) : M EGraph A :=
  (g <- get ;;
   (fix each (eids : list EClassId) (acc : A) : M EGraph A :=
      match eids with
      | [] => ret acc
      | eid :: rest =>
          acc' <- worker pattern eid [] (fun subst a => k subst eid a) acc ;;
          each rest acc'
      end) (map fst (classes g)) acc)%monad.

(** [[...egraph.ematch(pattern)]]: all the pairs, nothing done in between. *)
Definition ematch_all (pattern : Pattern)
  : M EGraph (list (Substitution * EClassId)) :=
  ematch pattern (fun subst eid acc => ret (acc ++ [(subst, eid)])) [].

(* ------------------------------------------------------------------ *)
(** * egraph.ts: extraction *)

(** The numbers of [extractSmallest]: an integer, or [Number.MAX_VALUE],
    which absorbs the addition or subtraction of an integer. The two
    operations whose result is neither ([n - MAX_VALUE] and
    [MAX_VALUE + MAX_VALUE]) are left out of the model. *)
Inductive Num : Type :=
| Fin (z : Z)
| MAX_VALUE.

Definition num_sub (a b : Num) : M EGraph Num :=
  match a, b with
  | Fin x, Fin y => ret (Fin (x - y))
  | MAX_VALUE, Fin _ => ret MAX_VALUE
  | MAX_VALUE, MAX_VALUE => ret (Fin 0)
  | Fin _, MAX_VALUE => unmodelled
  end.

Definition num_add (a b : Num) : M EGraph Num :=
  match a, b with
  | Fin x, Fin y => ret (Fin (x + y))
  | MAX_VALUE, Fin _ => ret MAX_VALUE
  | Fin _, MAX_VALUE => ret MAX_VALUE
  | MAX_VALUE, MAX_VALUE => unmodelled
  end.

(** [upperBound < 0] *)
Definition num_negative (a : Num) : bool :=
  match a with
  | Fin x => Z.ltb x 0
  | MAX_VALUE => false
  end.

(** What [extractSmallest] builds: a [Term] in which [minTerm], declared
    without a value, may occur as [undefined]. *)
Inductive XTerm : Type :=
| XUndefined
| XNode (xop : string) (xchildren : list XTerm).

(** The inner [worker] of [extractSmallest]. [try { ... } catch { continue }]
    resumes the loop over the nodes from the state in which the exception
    was raised; from a state outside the model there is nothing to resume
    (no call in the body raises such an exception). *)
Fixpoint extract_worker (fuel : nat) (visited : list EClassId)
  (upperBound : Num) (eid0 : EClassId) : M EGraph (XTerm * Num) :=
  match fuel with
  | O => fun _ => OutOfFuel
  | S f =>
      (eid <- liftUF (UF.find eid0) ;;
       if set_has Nat.eqb eid visited || num_negative upperBound then throw
       else
         let newVisited := set_add Nat.eqb eid visited in
         g <- get ;;
         match classes_get eid g with
         | None => throw
         | Some eclass =>
             ec <- deref eclass ;;
             (fix each (enodes : list ENode) (minTerm : XTerm) (minSize : Num)
                : M EGraph (XTerm * Num) :=
                match enodes with
                | [] => ret (minTerm, minSize)
                | enode :: rest =>
                    fun g0 =>
                      match
                        (fix kids (cs : list EClassId) (accChildren : list XTerm)
                           (accSize : Num) : M EGraph (list XTerm * Num) :=
                           match cs with
                           | [] => ret (accChildren, accSize)
                           | child :: cs' =>
                               bound <- num_sub minSize accSize ;;
                               r <- extract_worker f newVisited bound child ;;
                               accSize' <- num_add accSize (snd r) ;;
                               kids cs' (accChildren ++ [fst r]) accSize'
                           end) (children enode) [] (Fin 1) g0
                      with
                      | Ret (accChildren, accSize) g1 =>
                          each rest (XNode (op enode) accChildren) accSize g1
                      | Throw g1 => each rest minTerm minSize g1
                      | ThrowOutside => Unmodelled
                      | Unmodelled => Unmodelled
                      | OutOfFuel => OutOfFuel
                      end
                end) (nodes ec) XUndefined upperBound
         end)%monad
  end.

(** [extractSmallest(eid)]: every level of the recursion puts one more root
    into [visited], so the number of keys bounds its depth. *)
Definition extractSmallest (eid : EClassId) : M EGraph (XTerm * Num) :=
  fun g => extract_worker (S (UF.size (unionFind g))) [] MAX_VALUE eid g.

(** The [Term]s among the values that extraction builds. *)
Fixpoint xterm_of (t : Term) : XTerm :=
  match t with
  | mkTerm o cs => XNode o (map xterm_of cs)
  end.

(* ------------------------------------------------------------------ *)
(** * egraph.ts: the saturation driver *)

(** [dumpEGraph]: what it prints is left out. The getter [eclasses] it
    reads calls [disjointSets], which compresses the paths of the
    union-find, and pairs every key of [classes] with
    [disjointSets.get(eid)!]; formatting the members of a key without an
    entry raises a [TypeError] ([eids.map] on [undefined]). *)
Definition dumpEGraph : M EGraph unit :=
  (sets <- liftUF UF.disjointSets ;;
   g <- get ;;
   if forallb (fun kv : EClassId * nat =>
                 match map_get Nat.eqb (fst kv) sets with
                 | Some _ => true
                 | None => false
                 end) (classes g)
   then ret tt
   else throw)%monad.

(** One pass of the [for (const [lhs, rhs] of rewrites)] loop. When the
    right-hand side is a variable without a binding, [merge] is called with
    [undefined]: [union] stores the root of [eclass] under
    [parent[undefined]], and [merge] raises a [TypeError] at
    [oldRoot.originalNode]. *)
Definition sweep (rewrites : list (Pattern * Pattern)) : M EGraph unit :=
  forM (fun rw : Pattern * Pattern =>
          ematch (fst rw)
            (fun subst eclass (_ : unit) =>
               (eclass2 <- addPattern subst (snd rw) ;;
                match eclass2 with
                | Some eclass2 => merge eclass eclass2 ;;; dumpEGraph
                | None => throw_outside
                end)%monad) tt) rewrites.

(** The [for (let i = 0; i < maxIteration; i++)] loop with its [break]; the
    result tells whether it ended on the [break]. *)
Fixpoint iterate (maxIteration : nat) (rewrites : list (Pattern * Pattern))
  : M EGraph bool :=
  match maxIteration with
  | O => ret false
  | S n =>
      (g <- get ;;
       let currentClassCount := classCount g in
       let currentNodeCount := nodeCount g in
       sweep rewrites ;;;
       g' <- get ;;
       let madeProgress :=
         negb (Nat.eqb currentClassCount (classCount g'))
         || negb (Nat.eqb currentNodeCount (nodeCount g')) in
       if madeProgress then iterate n rewrites else ret true)%monad
  end.

(** [equality_saturation(term, rewrites, { maxIteration })] *)
Definition equality_saturation (term : Term)
  (rewrites : list (Pattern * Pattern)) (maxIteration : nat) : M EGraph XTerm :=
  (eid <- addTerm term ;;
   dumpEGraph ;;;
   iterate maxIteration rewrites ;;;
   r <- extractSmallest eid ;;
   ret (fst r))%monad.

End EG.

(* ------------------------------------------------------------------ *)
(** * The worklist variant of the e-graph (src/unnamed/part_000)

    The older [EGraph] class keeps the parents of a class in a JavaScript
    array, pushes the merged class on a worklist, and repairs the classes
    of the worklist in [rebuild]. *)

Module WL.

Import EG.

Definition ParentList : Type := list (ENode * EClassId).

(** [type EClass = { nodes; originalNode; parents: Array<[ENode, EClassId]> }].
    The array is a mutable object of its own: [push] changes it in place
    while a [for ... of] loop may be running over it, and
    [eclass.parents = ...] makes the field point to another array. So the
    field [parents] is a reference into the heap [arrays] of the state. *)
Record WClass : Type := mkWClass {
  wnodes : list ENode;
  woriginalNode : ENode;
  wparents : nat
}.

(** The state of the worklist [EGraph]: as in [EG], the [EClass] objects
    live in [wstore] and [wclasses] maps an id to a reference. *)
Record WGraph : Type := mkWGraph {
  wunionFind : UF.UnionFind;
  arrays : list ParentList;
  wstore : list WClass;
  wclasses : list (EClassId * nat);
  whashcons : list (ENode * option EClassId);
  worklist : list EClassId
}.

(** [new EGraph()] *)
Definition wempty : WGraph := mkWGraph UF.empty [] [] [] [] [].

(** [get classCount()] and [get nodeCount()] *)
Definition wclassCount (g : WGraph) : nat := List.length (wclasses g).
Definition wnodeCount (g : WGraph) : nat := List.length (whashcons g).

Definition set_wunionFind (g : WGraph) (uf : UF.UnionFind) : WGraph :=
  mkWGraph uf (arrays g) (wstore g) (wclasses g) (whashcons g) (worklist g).
Definition set_arrays (g : WGraph) (a : list ParentList) : WGraph :=
  mkWGraph (wunionFind g) a (wstore g) (wclasses g) (whashcons g) (worklist g).
Definition set_wstore (g : WGraph) (st : list WClass) : WGraph :=
  mkWGraph (wunionFind g) (arrays g) st (wclasses g) (whashcons g) (worklist g).
Definition set_wclasses (g : WGraph) (c : list (EClassId * nat)) : WGraph :=
  mkWGraph (wunionFind g) (arrays g) (wstore g) c (whashcons g) (worklist g).
Definition set_whashcons (g : WGraph) (h : list (ENode * option EClassId))
  : WGraph :=
  mkWGraph (wunionFind g) (arrays g) (wstore g) (wclasses g) h (worklist g).
Definition set_worklist (g : WGraph) (w : list EClassId) : WGraph :=
  mkWGraph (wunionFind g) (arrays g) (wstore g) (wclasses g) (whashcons g) w.

(** A call of a method of [this.unionFind]. *)
Definition wliftUF {A} (m : M UF.UnionFind A) : M WGraph A :=
  fun g =>
    match m (wunionFind g) with
    | Ret a uf => Ret a (set_wunionFind g uf)
    | Throw uf => Throw (set_wunionFind g uf)
    | ThrowOutside => ThrowOutside
    | Unmodelled => Unmodelled
    | OutOfFuel => OutOfFuel
    end.

Definition wmodify (f : WGraph -> WGraph) : M WGraph unit :=
  fun g => Ret tt (f g).

(** Reading the object, or the array, behind a reference. *)
Definition wderef (r : nat) : M WGraph WClass :=
  fun g =>
    match nth_error (wstore g) r with
    | Some ec => Ret ec g
    | None => Unmodelled
    end.

Definition read_array (a : nat) : M WGraph ParentList :=
  fun g =>
    match nth_error (arrays g) a with
    | Some l => Ret l g
    | None => Unmodelled
    end.

(** [array.push(...items)], in place. *)
Definition push_array (a : nat) (items : ParentList) : M WGraph unit :=
  (l <- read_array a ;;
   wmodify (fun g => set_arrays g (upd (arrays g) a (l ++ items))))%monad.

(** [this.classes.get(id)] and [this.hashcons.get(n)], as in [EG]. *)
Definition wclasses_get (id : EClassId) (g : WGraph) : option nat :=
  map_get Nat.eqb id (wclasses g).

Definition whashcons_get (n : ENode) (g : WGraph) : option EClassId :=
  match map_get enode_eqb n (whashcons g) with
  | Some v => v
  | None => None
  end.

(** [this.unionFind.find(eid)] for a value that may be [undefined]. *)
Definition wfind_undef (eid : option EClassId) : M WGraph (option EClassId) :=
  match eid with
  | None => ret None
  | Some e => (r <- wliftUF (UF.find e) ;; ret (Some r))%monad
  end.

(** [canonicalize(enode)] *)
Definition wcanonicalize (enode : ENode) : M WGraph ENode :=
  (cs <- mapM (fun eid => wliftUF (UF.find eid)) (children enode) ;;
   ret (mkENode (op enode) cs))%monad.

(** [add(enode)]: [createSingletonEClass] makes a new object with a new,
    empty array of parents; the parents of the children are extended by
    [push]. *)
Definition wadd (enode0 : ENode) : M WGraph EClassId :=
  (enode <- wcanonicalize enode0 ;;
   g <- get ;;
   match whashcons_get enode g with
   | Some eid => ret eid
   | None =>
       eid <- wliftUF UF.extend ;;
       wmodify (fun g => set_whashcons g
                  (map_set enode_eqb enode (Some eid) (whashcons g))) ;;;
       g1 <- get ;;
       let aref := List.length (arrays g1) in
       let eclass := List.length (wstore g1) in
       wmodify (fun g => set_arrays g (arrays g ++ [[]])) ;;;
       wmodify (fun g => set_wstore g (wstore g ++ [mkWClass [enode] enode aref])) ;;;
       wmodify (fun g => set_wclasses g (map_set Nat.eqb eid eclass (wclasses g))) ;;;
       forM (fun child_id =>
               g2 <- get ;;
               match wclasses_get child_id g2 with
               | None => throw
               | Some child =>
                   c <- wderef child ;;
                   push_array (wparents c) [(enode, eid)]
               end) (children enode) ;;;
       ret eid
   end)%monad.

(** [addTerm(term)] *)
Fixpoint waddTerm (term : Language.Term) : M WGraph EClassId :=
  match term with
  | Language.mkTerm top tchildren =>
      (childIds <- mapM waddTerm tchildren ;;
       wadd (mkENode top childIds))%monad
  end.

(** The first loop of [repair(eid)]: the entries of [hashcons] for the
    parents are replaced by canonical ones. Nothing in its body touches an
    array, so it runs over the entries that the array has when it starts. *)
Definition repair_hashcons : ParentList -> M WGraph unit :=
  forM (fun entry : ENode * EClassId =>
          (newParentNode <- wcanonicalize (fst entry) ;;
           newParentEClassId <- wliftUF (UF.find (snd entry)) ;;
           wmodify (fun g => set_whashcons g
                      (map_set enode_eqb newParentNode (Some newParentEClassId)
                         (map_delete enode_eqb (fst entry) (whashcons g)))))%monad).

(** The second loop of [repair(eid)], over the array [a]. The iterator of a
    JavaScript array reads the length at every step, and the [merge] in the
    body may push on the array while the loop runs: [i] is the index of the
    iterator and [fuel] bounds the number of steps. *)
Fixpoint repair_dedup (merge : EClassId -> EClassId -> M WGraph bool)
  (fuel : nat) (a : nat) (i : nat) (dedupParents : ParentList)
  : M WGraph ParentList :=
  match fuel with
  | O => fun _ => OutOfFuel
  | S f =>
      (entries <- read_array a ;;
       match nth_error entries i with
       | None => ret dedupParents
       | Some (parentENode, parentEClassId) =>
           newParentNode <- wcanonicalize parentENode ;;
           newParentEClass <- wliftUF (UF.find parentEClassId) ;;
           match map_get enode_eqb newParentNode dedupParents with
           | Some (S n) => (* [if (newParentEClassId2)]: defined and not 0 *)
               merge parentEClassId (S n) ;;; ret tt
           | _ => ret tt
           end ;;;
           repair_dedup merge f a (i + 1)
             (map_set enode_eqb newParentNode newParentEClass dedupParents)
       end)%monad
  end.

(** [repair(eid)]. The class object is looked up once and both loops run
    on that object, also when a nested [merge] takes [eid] out of [classes].
    [eclass.parents = dedupParents.toArray()] makes the field point to a new
    array, which holds the entries [[key, value]] of the map in their
    order. *)
Definition wrepair_with (merge : EClassId -> EClassId -> M WGraph bool)
  (fuel : nat) (eid : EClassId) : M WGraph unit :=
  (g <- get ;;
   match wclasses_get eid g with
   | None => throw
   | Some eclass =>
       ec <- wderef eclass ;;
       entries <- read_array (wparents ec) ;;
       repair_hashcons entries ;;;
       ec' <- wderef eclass ;;
       dedupParents <- repair_dedup merge fuel (wparents ec') 0 [] ;;
       g' <- get ;;
       let a := List.length (arrays g') in
       wmodify (fun g => set_arrays g (arrays g ++ [dedupParents])) ;;;
       ec'' <- wderef eclass ;;
       wmodify (fun g => set_wstore g
                  (upd (wstore g) eclass
                     (mkWClass (wnodes ec'') (woriginalNode ec'') a)))
   end)%monad.

(** [rebuild()]: the [while] loop over the worklist; [Set(...)] removes the
    duplicates of the representatives. *)
Fixpoint wrebuild_with (repair : EClassId -> M WGraph unit) (fuel : nat)
  : M WGraph unit :=
  match fuel with
  | O => fun _ => OutOfFuel
  | S f =>
      (g <- get ;;
       match worklist g with
       | [] => ret tt
       | _ :: _ =>
           ids <- mapM (fun id => wliftUF (UF.find id)) (worklist g) ;;
           let todo := set_union Nat.eqb [] ids in
           wmodify (fun g => set_worklist g []) ;;;
           forM repair todo ;;;
           wrebuild_with repair f
       end)%monad
  end.

(** [merge(eid1, eid2)]; [fuel] bounds the depth of the recursion through
    [rebuild] and [repair], and the steps of their loops. *)
Fixpoint wmerge (fuel : nat) (eid1 eid2 : EClassId) : M WGraph bool :=
  match fuel with
  | O => fun _ => OutOfFuel
  | S f =>
      (unionResult <- wliftUF (UF.union eid1 eid2) ;;
       match unionResult with
       | None => ret false
       | Some (newRootId, oldRootId) =>
           g <- get ;;
           let newRoot := wclasses_get newRootId g in
           let oldRoot := wclasses_get oldRootId g in
           wmodify (fun g => set_wclasses g
                      (map_delete Nat.eqb oldRootId (wclasses g))) ;;;
           match oldRoot with
           | None => throw
           | Some oldRoot =>
               old <- wderef oldRoot ;;
               g1 <- get ;;
               let eid := whashcons_get (woriginalNode old) g1 in
               canon <- wcanonicalize (woriginalNode old) ;;
               feid <- wfind_undef eid ;;
               wmodify (fun g => set_whashcons g
                          (map_set enode_eqb canon feid
                             (map_delete enode_eqb (woriginalNode old)
                                (whashcons g1)))) ;;;
               match newRoot with
               | None => throw
               | Some newRoot =>
                   new <- wderef newRoot ;;
                   old' <- wderef oldRoot ;;
                   wmodify (fun g => set_wstore g
                              (upd (wstore g) newRoot
                                 (mkWClass
                                    (set_union enode_eqb (wnodes new) (wnodes old'))
                                    (woriginalNode new) (wparents new)))) ;;;
                   new' <- wderef newRoot ;;
                   old'' <- wderef oldRoot ;;
                   items <- read_array (wparents old'') ;;
                   push_array (wparents new') items ;;;
                   wmodify (fun g => set_worklist g (worklist g ++ [newRootId])) ;;;
                   wrebuild_with (wrepair_with (wmerge f) f) f ;;;
                   ret true
               end
           end
       end)%monad
  end.

(** [repair(eid)] and [rebuild()] as methods of their own. *)
Definition wrepair (fuel : nat) (eid : EClassId) : M WGraph unit :=
  wrepair_with (wmerge fuel) fuel eid.

Definition wrebuild (fuel : nat) : M WGraph unit :=
  wrebuild_with (wrepair fuel) fuel.

End WL.

(* ------------------------------------------------------------------ *)
(** * Facts about language.ts *)

Section LanguageFacts.

Import Language.
Local Open Scope string_scope.

(** The S-expression that a term or a pattern prints as. *)
Fixpoint sexp_of_term (t : Term) : Sexp :=
  match t with
  | mkTerm op [] => Atom op
  | mkTerm op cs => SList (Atom op :: map sexp_of_term cs)
  end.

Fixpoint sexp_of_pattern (p : Pattern) : Sexp :=
  match p with
  | PVar name => Atom ("?" ++ name)
  | PNode op [] => Atom op
  | PNode op cs => SList (Atom op :: map sexp_of_pattern cs)
  end.

(** The text of an S-expression, as the two printers lay it out. *)
Fixpoint printSexp (s : Sexp) : string :=
  match s with
  | Atom a => a
  | SList l => "(" ++ join (map printSexp l) ++ ")"
  end.

(** Its tokens. *)
Fixpoint tokens_of (s : Sexp) : list string :=
  match s with
  | Atom a => [a]
  | SList l => "(" :: flat_map tokens_of l ++ [")"]
  end.

(** The characters of an atom: neither whitespace nor parentheses. *)
Fixpoint atom_chars (s : string) : bool :=
  match s with
  | EmptyString => true
  | String c r => negb (is_paren c) && negb (is_space c) && atom_chars r
  end.

(** An atom is a non-empty run of such characters. *)
Definition is_atom (s : string) : bool :=
  match s with
  | EmptyString => false
  | _ => atom_chars s
  end.

(** Well-formed terms: every operator is an atom. *)
Fixpoint wf_term (t : Term) : Prop :=
  match t with
  | mkTerm op cs =>
      is_atom op = true /\
      (fix all (l : list Term) : Prop :=
         match l with
         | [] => True
         | x :: xs => wf_term x /\ all xs
         end) cs
  end.

(** Well-formed patterns: variable names are made of atom characters,
    operators are atoms, and an operator without arguments does not begin
    with a question mark (it would print as a variable). *)
Fixpoint wf_pattern (p : Pattern) : Prop :=
  match p with
  | PVar name => atom_chars name = true
  | PNode op cs =>
      is_atom op = true /\
      (cs = [] -> startsWithQ op = false) /\
      (fix all (l : list Pattern) : Prop :=
         match l with
         | [] => True
         | x :: xs => wf_pattern x /\ all xs
         end) cs
  end.

(** S-expressions whose atoms are atoms. *)
Fixpoint wf_sexp (s : Sexp) : Prop :=
  match s with
  | Atom a => is_atom a = true
  | SList l =>
      (fix all (l : list Sexp) : Prop :=
         match l with
         | [] => True
         | x :: xs => wf_sexp x /\ all xs
         end) l
  end.

(** Induction over S-expressions and their lists of items. *)
Fixpoint Sexp_rect' (P : Sexp -> Prop)
  (HA : forall a, P (Atom a))
  (HL : forall l, Forall P l -> P (SList l)) (s : Sexp) : P s :=
  match s with
  | Atom a => HA a
  | SList l =>
      HL l ((fix go (l : list Sexp) : Forall P l :=
               match l with
               | [] => Forall_nil P
               | x :: xs => Forall_cons x (Sexp_rect' P HA HL x) (go xs)
               end) l)
  end.

Fixpoint Term_rect' (P : Term -> Prop)
  (H : forall op cs, Forall P cs -> P (mkTerm op cs)) (t : Term) : P t :=
  match t with
  | mkTerm op cs =>
      H op cs ((fix go (l : list Term) : Forall P l :=
                  match l with
                  | [] => Forall_nil P
                  | x :: xs => Forall_cons x (Term_rect' P H x) (go xs)
                  end) cs)
  end.

Fixpoint Pattern_rect' (P : Pattern -> Prop)
  (HV : forall name, P (PVar name))
  (HN : forall op cs, Forall P cs -> P (PNode op cs)) (p : Pattern) : P p :=
  match p with
  | PVar name => HV name
  | PNode op cs =>
      HN op cs ((fix go (l : list Pattern) : Forall P l :=
                   match l with
                   | [] => Forall_nil P
                   | x :: xs => Forall_cons x (Pattern_rect' P HV HN x) (go xs)
                   end) cs)
  end.

Lemma append_assoc' (a b c : string) : (a ++ b) ++ c = a ++ (b ++ c).
Proof. induction a as [|x a IH]; simpl; [reflexivity | now rewrite IH]. Qed.

Lemma append_nil_r (a : string) : a ++ "" = a.
Proof. induction a as [|x a IH]; simpl; [reflexivity | now rewrite IH]. Qed.

(** A string that is empty or begins with a delimiter ends the atom read so
    far. *)
Definition delimited (rest : string) : Prop :=
  match rest with
  | EmptyString => True
  | String c _ => is_paren c = true \/ is_space c = true
  end.

Lemma tokenize_from_atom (a : string) :
  atom_chars a = true ->
  forall cur rest, tokenize_from cur (a ++ rest) = tokenize_from (cur ++ a) rest.
Proof.
  induction a as [|c a IH]; intros Ha cur rest; simpl.
  - now rewrite append_nil_r.
  - simpl in Ha. apply andb_true_iff in Ha as [Hc Ha].
    apply andb_true_iff in Hc as [Hp Hs].
    apply negb_true_iff in Hp, Hs. rewrite Hp, Hs.
    rewrite IH by assumption. now rewrite append_assoc'.
Qed.

Lemma tokenize_from_flush (cur rest : string) :
  cur <> "" -> delimited rest ->
  tokenize_from cur rest = cur :: tokenize_from "" rest.
Proof.
  intros Hc Hd. destruct cur as [|x cur]; [congruence|].
  destruct rest as [|c rest]; simpl; [reflexivity|].
  destruct (is_paren c) eqn:Hp; [reflexivity|].
  destruct Hd as [Hd|Hd]; [congruence|]. now rewrite Hd.
Qed.

Lemma is_atom_chars (a : string) : is_atom a = true -> atom_chars a = true /\ a <> "".
Proof. destruct a; simpl; [discriminate|]. intros H; split; [exact H | discriminate]. Qed.

Lemma tokenize_open (rest : string) :
  tokenize_from "" (String "(" rest) = "(" :: tokenize_from "" rest.
Proof. reflexivity. Qed.

Lemma tokenize_close (rest : string) :
  tokenize_from "" (String ")" rest) = ")" :: tokenize_from "" rest.
Proof. reflexivity. Qed.

Lemma tokenize_space (rest : string) :
  tokenize_from "" (String " " rest) = tokenize_from "" rest.
Proof. reflexivity. Qed.

Definition all_wf_sexp (l : list Sexp) : Prop :=
  (fix all (l : list Sexp) : Prop :=
     match l with
     | [] => True
     | x :: xs => wf_sexp x /\ all xs
     end) l.

(** The items of a list, up to its closing parenthesis. *)
Lemma tokenize_items (l : list Sexp) :
  Forall (fun s => wf_sexp s -> forall rest, delimited rest ->
            tokenize_from "" (printSexp s ++ rest)
            = (tokens_of s ++ tokenize_from "" rest)%list) l ->
  all_wf_sexp l ->
  forall rest,
  tokenize_from "" (join (map printSexp l) ++ String ")" rest)
  = (flat_map tokens_of l ++ ")" :: tokenize_from "" rest)%list.
Proof.
  induction 1 as [|x l Hx Hl IHl]; intros Hwf rest.
  - apply tokenize_close.
  - destruct Hwf as [Hwx Hwl]. destruct l as [|y l].
    + cbn [map join String.concat flat_map]. rewrite app_nil_r.
      rewrite Hx; [|assumption|simpl; left; reflexivity].
      now rewrite tokenize_close.
    + change (join (map printSexp (x :: y :: l)))
        with (printSexp x ++ String " " (join (map printSexp (y :: l)))).
      rewrite append_assoc'.
      rewrite Hx; [|assumption|simpl; right; reflexivity].
      change (String " " (join (map printSexp (y :: l))) ++ String ")" rest)
        with (String " " (join (map printSexp (y :: l)) ++ String ")" rest)).
      rewrite tokenize_space. rewrite (IHl Hwl).
      cbn [flat_map]. now rewrite !app_assoc.
Qed.

Lemma tokenize_printSexp (s : Sexp) :
  wf_sexp s ->
  forall rest, delimited rest ->
  tokenize_from "" (printSexp s ++ rest)
  = (tokens_of s ++ tokenize_from "" rest)%list.
Proof.
  induction s as [a | l IH] using Sexp_rect'; intros Hwf rest Hd.
  - simpl in *. apply is_atom_chars in Hwf as [Hc Hne].
    rewrite tokenize_from_atom by assumption.
    change ("" ++ a) with a.
    rewrite tokenize_from_flush by assumption. reflexivity.
  - cbn [printSexp tokens_of].
    change (("(" ++ join (map printSexp l) ++ ")") ++ rest)
      with (String "(" ((join (map printSexp l) ++ ")") ++ rest)).
    rewrite tokenize_open, append_assoc'.
    change (")" ++ rest) with (String ")" rest).
    rewrite (tokenize_items l IH Hwf).
    cbn [app]. f_equal. now rewrite <- app_assoc.
Qed.

Local Open Scope list_scope.

Lemma atom_not_paren (a : string) :
  is_atom a = true -> String.eqb a ")" = false /\ String.eqb a "(" = false.
Proof.
  destruct a as [|c a]; [discriminate|]. intros H.
  cbn [is_atom atom_chars] in H.
  apply andb_true_iff in H as [H _]. apply andb_true_iff in H as [H _].
  apply negb_true_iff in H.
  split; apply String.eqb_neq; intros E; inversion E; subst;
    vm_compute in H; discriminate.
Qed.

Lemma nth_error_middle {A} (pre : list A) (x : A) (post : list A) :
  nth_error (pre ++ x :: post) (List.length pre) = Some x.
Proof. rewrite nth_error_app2, Nat.sub_diag by lia. reflexivity. Qed.

(** The first token of a well-formed S-expression never closes a list. *)
Lemma tokens_of_head (s : Sexp) :
  wf_sexp s ->
  exists tk rest, tokens_of s = tk :: rest /\ String.eqb tk ")" = false.
Proof.
  destruct s as [a|l]; simpl; intros H.
  - exists a, []. split; [reflexivity|]. now apply atom_not_paren.
  - eexists _, _. split; reflexivity.
Qed.

Definition parse_ok (s : Sexp) : Prop :=
  wf_sexp s ->
  forall pre post f, List.length (tokens_of s) <= f ->
  parseSexp f (pre ++ tokens_of s ++ post) (List.length pre)
  = Ok (s, List.length pre + List.length (tokens_of s)).

Lemma parseItems_tokens (l : list Sexp) :
  Forall parse_ok l -> all_wf_sexp l ->
  forall pre post acc f,
  List.length (flat_map tokens_of l) + 1 <= f ->
  parseItems f (pre ++ flat_map tokens_of l ++ ")" :: post) (List.length pre) acc
  = Ok (SList (acc ++ l), List.length pre + List.length (flat_map tokens_of l) + 1).
Proof.
  induction 1 as [|x l Hx Hl IHl]; intros Hwf pre post acc f Hf.
  - destruct f as [|f]; [simpl in Hf; lia|].
    cbn [flat_map app parseItems]. rewrite nth_error_middle.
    cbn. rewrite app_nil_r. do 2 f_equal. lia.
  - destruct Hwf as [Hwx Hwl].
    destruct f as [|f]; [lia|].
    cbn [flat_map] in *. rewrite length_app in Hf.
    destruct (tokens_of_head x Hwx) as (tk & rest & Etk & Hne).
    assert (Hlen : 1 <= List.length (tokens_of x)) by (rewrite Etk; simpl; lia).
    cbn [parseItems].
    replace (nth_error (pre ++ (tokens_of x ++ flat_map tokens_of l) ++ ")" :: post)
               (List.length pre)) with (Some tk).
    2:{ rewrite Etk. cbn [app]. now rewrite nth_error_middle. }
    rewrite Hne. rewrite <- app_assoc.
    rewrite (Hx Hwx pre _ f) by lia.
    replace (pre ++ tokens_of x ++ flat_map tokens_of l ++ ")" :: post)
      with ((pre ++ tokens_of x) ++ flat_map tokens_of l ++ ")" :: post)
      by now rewrite <- app_assoc.
    replace (List.length pre + List.length (tokens_of x))
      with (List.length (pre ++ tokens_of x)) by now rewrite length_app.
    rewrite (IHl Hwl) by lia.
    rewrite <- app_assoc. cbn [app]. rewrite !length_app. do 2 f_equal. lia.
Qed.

Lemma parseSexp_tokens (s : Sexp) : parse_ok s.
Proof.
  induction s as [a | l IH] using Sexp_rect'; intros Hwf pre post f Hf.
  - simpl in *. destruct f as [|f]; [lia|].
    cbn [parseSexp]. rewrite nth_error_middle.
    destruct (atom_not_paren a Hwf) as [-> ->]. reflexivity.
  - cbn [tokens_of] in *. cbn [List.length] in Hf. rewrite length_app in Hf.
    destruct f as [|f]; [lia|].
    cbn [parseSexp app]. rewrite nth_error_middle.
    cbn [String.eqb Ascii.eqb Bool.eqb negb].
    change (String.eqb "(" ")") with false. change (String.eqb "(" "(") with true.
    cbn [negb].
    replace (pre ++ "(" :: (flat_map tokens_of l ++ [")"]) ++ post)
      with ((pre ++ ["("]) ++ flat_map tokens_of l ++ ")" :: post)
      by (rewrite <- !app_assoc; reflexivity).
    replace (List.length pre + 1) with (List.length (pre ++ ["("]))
      by (rewrite length_app; reflexivity).
    rewrite (parseItems_tokens l IH Hwf) by (simpl in Hf; lia).
    cbn [app List.length]. rewrite !length_app. cbn [List.length].
    do 2 f_equal. lia.
Qed.

(** Parsing the text of a well-formed S-expression gives it back and
    consumes every token. *)
Lemma parse_printSexp (s : Sexp) :
  wf_sexp s ->
  let tokens := tokenize (printSexp s) in
  parseSexp (parseFuel tokens) tokens 0 = Ok (s, List.length tokens).
Proof.
  intros Hwf tokens.
  assert (E : tokens = tokens_of s).
  { unfold tokens, tokenize.
    rewrite <- (append_nil_r (printSexp s)).
    rewrite tokenize_printSexp by (assumption || exact I).
    apply app_nil_r. }
  rewrite E. unfold parseFuel.
  generalize (parseSexp_tokens s Hwf [] [] (S (S (2 * List.length (tokens_of s))))).
  cbn [app List.length Nat.add]. rewrite app_nil_r. intros H. apply H. lia.
Qed.

Definition all_wf_term (l : list Term) : Prop :=
  (fix all (l : list Term) : Prop :=
     match l with
     | [] => True
     | x :: xs => wf_term x /\ all xs
     end) l.

Definition all_wf_pattern (l : list Pattern) : Prop :=
  (fix all (l : list Pattern) : Prop :=
     match l with
     | [] => True
     | x :: xs => wf_pattern x /\ all xs
     end) l.

Lemma printTerm_sexp (t : Term) : printTerm t = printSexp (sexp_of_term t).
Proof.
  induction t as [op cs IH] using Term_rect'.
  destruct cs as [|c cs]; [reflexivity|].
  cbn [printTerm sexp_of_term printSexp].
  assert (E : map printTerm (c :: cs) = map printSexp (map sexp_of_term (c :: cs))).
  { clear op. induction IH as [|x l Hx _ IHl]; [reflexivity|].
    cbn [map]. now rewrite Hx, IHl. }
  change (map printSexp (Atom op :: map sexp_of_term (c :: cs)))
    with (op :: map printSexp (map sexp_of_term (c :: cs))).
  rewrite <- E.
  change (join (op :: map printTerm (c :: cs)))
    with (op ++ " " ++ join (map printTerm (c :: cs)))%string.
  now rewrite !append_assoc'.
Qed.

Lemma printPattern_sexp (p : Pattern) : printPattern p = printSexp (sexp_of_pattern p).
Proof.
  induction p as [name | op cs IH] using Pattern_rect'; [reflexivity|].
  destruct cs as [|c cs]; [reflexivity|].
  cbn [printPattern sexp_of_pattern printSexp].
  assert (E : map printPattern (c :: cs)
              = map printSexp (map sexp_of_pattern (c :: cs))).
  { clear op. induction IH as [|x l Hx _ IHl]; [reflexivity|].
    cbn [map]. now rewrite Hx, IHl. }
  change (map printSexp (Atom op :: map sexp_of_pattern (c :: cs)))
    with (op :: map printSexp (map sexp_of_pattern (c :: cs))).
  rewrite <- E.
  change (join (op :: map printPattern (c :: cs)))
    with (op ++ " " ++ join (map printPattern (c :: cs)))%string.
  now rewrite !append_assoc'.
Qed.

Lemma wf_sexp_of_term (t : Term) : wf_term t -> wf_sexp (sexp_of_term t).
Proof.
  induction t as [op cs IH] using Term_rect'. intros [Hop Hcs].
  fold (all_wf_term cs) in Hcs.
  destruct cs as [|c cs]; [exact Hop|].
  cbn [sexp_of_term wf_sexp]. split; [exact Hop|].
  fold (all_wf_sexp (map sexp_of_term (c :: cs))).
  revert Hcs. clear Hop. induction IH as [|x l Hx _ IHl]; [trivial|].
  intros [H1 H2]. split; [now apply Hx | now apply IHl].
Qed.

Lemma atom_question (name : string) :
  atom_chars name = true -> is_atom (String "?" name) = true.
Proof. intros H. cbn [is_atom atom_chars]. now rewrite H. Qed.

Lemma wf_sexp_of_pattern (p : Pattern) : wf_pattern p -> wf_sexp (sexp_of_pattern p).
Proof.
  induction p as [name | op cs IH] using Pattern_rect'.
  - intros H. now apply atom_question.
  - intros (Hop & _ & Hcs). fold (all_wf_pattern cs) in Hcs.
    destruct cs as [|c cs]; [exact Hop|].
    cbn [sexp_of_pattern wf_sexp]. split; [exact Hop|].
    fold (all_wf_sexp (map sexp_of_pattern (c :: cs))).
    revert Hcs. clear Hop. induction IH as [|x l Hx _ IHl]; [trivial|].
    intros [H1 H2]. split; [now apply Hx | now apply IHl].
Qed.

Lemma mapResult_ok {A B} (f : A -> result B) (g : B -> A) (l : list B) :
  Forall (fun y => f (g y) = Ok y) l -> mapResult f (map g l) = Ok l.
Proof.
  induction 1 as [|y l Hy _ IH]; [reflexivity|].
  cbn [map mapResult]. fold (mapResult f). now rewrite Hy, IH.
Qed.

Lemma sexpToTerm_of_term (t : Term) : sexpToTerm (sexp_of_term t) = Ok t.
Proof.
  induction t as [op cs IH] using Term_rect'.
  destruct cs as [|c cs]; [reflexivity|].
  cbn [sexp_of_term sexpToTerm].
  now rewrite (mapResult_ok sexpToTerm sexp_of_term (c :: cs) IH).
Qed.

Lemma sexpToPattern_of_pattern (p : Pattern) :
  wf_pattern p -> sexpToPattern (sexp_of_pattern p) = Ok p.
Proof.
  induction p as [name | op cs IH] using Pattern_rect'; [reflexivity|].
  intros (_ & Hq & Hcs). fold (all_wf_pattern cs) in Hcs.
  destruct cs as [|c cs].
  - cbn [sexp_of_pattern sexpToPattern]. now rewrite Hq.
  - cbn [sexp_of_pattern sexpToPattern].
    rewrite (mapResult_ok sexpToPattern sexp_of_pattern (c :: cs)); [reflexivity|].
    clear Hq. revert Hcs. induction IH as [|x l Hx _ IHl]; [constructor|].
    intros [H1 H2]. constructor; [now apply Hx | now apply IHl].
Qed.

Lemma parseTerm_printTerm (t : Term) :
  wf_term t -> parseTerm (printTerm t) = Ok t.
Proof.
  intros Ht. unfold parseTerm. rewrite printTerm_sexp.
  rewrite (parse_printSexp _ (wf_sexp_of_term t Ht)).
  rewrite Nat.ltb_irrefl. apply sexpToTerm_of_term.
Qed.

Lemma parsePattern_printPattern (p : Pattern) :
  wf_pattern p -> parsePattern (printPattern p) = Ok p.
Proof.
  intros Hp. unfold parsePattern. rewrite printPattern_sexp.
  rewrite (parse_printSexp _ (wf_sexp_of_pattern p Hp)).
  rewrite Nat.ltb_irrefl. now apply sexpToPattern_of_pattern.
Qed.

(** C9. Parsing what the printer wrote gives the value back: for every
    well-formed term [t], [parseTerm (printTerm t)] returns [t], and for
    every well-formed pattern [p], [parsePattern (printPattern p)] returns
    [p]. *)
Theorem parse_print_roundtrip (t : Term) (p : Pattern) :
  wf_term t -> wf_pattern p ->
  parseTerm (printTerm t) = Ok t /\ parsePattern (printPattern p) = Ok p.
Proof.
  intros Ht Hp. split;
    [now apply parseTerm_printTerm | now apply parsePattern_printPattern].
Qed.

Lemma parse_print_roundtrip_witness :
  parseTerm (printTerm (mkTerm "*" [mkTerm "+" [mkTerm "a" []; mkTerm "b" []];
                                    mkTerm "c" []]))
  = Ok (mkTerm "*" [mkTerm "+" [mkTerm "a" []; mkTerm "b" []]; mkTerm "c" []])
  /\ parsePattern (printPattern (PNode "*" [PNode "+" [PVar "a"; PVar "b"];
                                            PVar "c"]))
     = Ok (PNode "*" [PNode "+" [PVar "a"; PVar "b"]; PVar "c"]).
Proof.
  apply parse_print_roundtrip; simpl; intuition (reflexivity || discriminate).
Defined.

(** C8. The form [(?x a)] has a head that begins with a question mark.
    [parsePattern] does not fail on it: the head is taken as the operator of
    a node, although the token starts with a question mark. *)
Lemma question_head_is_parsed :
  startsWithQ "?x" = true /\
  parsePattern "(?x a)" = Ok (PNode "?x" [PNode "a" []]) /\
  ~ (exists msg, parsePattern "(?x a)" = Err msg).
Proof.
  split; [reflexivity|]. split; [reflexivity|].
  intros [msg H]. vm_compute in H. discriminate.
Qed.

End LanguageFacts.

(* ------------------------------------------------------------------ *)
(** * Facts about egraph.ts: runs on concrete e-graphs *)

Section EGraphRuns.

Import Language EG.
Local Open Scope string_scope.
Local Open Scope list_scope.
Local Open Scope monad_scope.

(** A union-find root: a key that is its own parent. *)
Definition is_root (uf : UF.UnionFind) (x : UF.Key) : bool :=
  match nth_error (UF.parent uf) x with
  | Some p => Nat.eqb p x
  | None => false
  end.

(** A canonical e-node: every child is a root. *)
Definition canonical_node (g : EGraph) (n : ENode) : bool :=
  forallb (is_root (unionFind g)) (children n).

(** The two halves of the canonicality invariant. *)
Definition hashcons_canonical (g : EGraph) : bool :=
  forallb (canonical_node g) (map fst (hashcons g)).

Definition classes_canonical (g : EGraph) : bool :=
  forallb (is_root (unionFind g)) (map fst (classes g)).

Definition leaf (o : string) : Term := mkTerm o [].

(** The state that an operation leaves, when it returns. *)
Definition final {A} (o : outcome EGraph A) : option EGraph :=
  match o with
  | Ret _ g => Some g
  | _ => None
  end.

Definition value {A} (o : outcome EGraph A) : option A :=
  match o with
  | Ret a _ => Some a
  | _ => None
  end.

(** C2 on a concrete e-graph. [g(a, b)], [c] and [d] are added, then [a] is
    merged into [c] and [b] into [d]. The first merge rewrites the key
    [g(a, b)] of [hashcons] to [g(c, b)], but the parents of [b] still hold
    the key [g(a, b)]; the second merge therefore deletes nothing and leaves
    [g(c, b)], whose second child is no longer a root, next to the new key
    [g(c, d)]. *)
Definition stale_key_run
  : M EGraph (bool * list ENode * bool * bool * bool) :=
  a <- addTerm (leaf "a") ;;
  b <- addTerm (leaf "b") ;;
  addTerm (mkTerm "g" [leaf "a"; leaf "b"]) ;;;
  c <- addTerm (leaf "c") ;;
  d <- addTerm (leaf "d") ;;
  merge c a ;;;
  merged <- merge d b ;;
  g <- get ;;
  ret (merged, map fst (hashcons g), is_root (unionFind g) b,
       hashcons_canonical g, classes_canonical g).

Lemma merge_leaves_stale_hashcons_key :
  value (stale_key_run EG.empty)
  = Some (true,
          [mkENode "d" []; mkENode "g" [3; 1]; mkENode "a" [];
           mkENode "c" []; mkENode "b" []; mkENode "g" [3; 4]],
          false, false, true).
Proof. vm_compute. reflexivity. Qed.

(** C3 on a concrete e-graph. The class of [a] is merged with the class of
    [f(b)]; its nodes are then [a] and [f(b)], in this order. Extraction
    takes [a] with size 1, then tries [f(b)] with the bound [1 - 1 = 0] for
    [b]; the bound is not negative, [b] is returned with size 1, and the
    result is overwritten by [f(b)] with size 2. *)
Definition extract_run : M EGraph (XTerm * Num * option (list ENode)) :=
  a <- addTerm (leaf "a") ;;
  fb <- addTerm (mkTerm "f" [leaf "b"]) ;;
  merge a fb ;;;
  r <- extractSmallest a ;;
  g <- get ;;
  ret (r, match classes_get a g with
          | Some eclass => option_map nodes (nth_error (store g) eclass)
          | None => None
          end).

Lemma extract_returns_larger_term :
  value (extract_run EG.empty)
  = Some (xterm_of (mkTerm "f" [leaf "b"]), Fin 2,
          Some [mkENode "a" []; mkENode "f" [1]]).
Proof. vm_compute. reflexivity. Qed.

(** C4 on concrete e-graphs. [zip] stops at the shorter list, so the pattern
    [(f ?x)] matches the node [f(a, b)]; adding the instantiated pattern
    creates the new class of [f(a)], which is not the matched class. And
    the pattern [(f ?x ?y)] matches the node [f(a)] with [?y] unbound. *)
Definition short_pattern_run
  : M EGraph (list (Substitution * EClassId) * EClassId * UF.Key * UF.Key) :=
  addTerm (mkTerm "f" [leaf "a"; leaf "b"]) ;;;
  ms <- ematch_all (PNode "f" [PVar "x"]) ;;
  match ms with
  | (sigma, e) :: _ =>
      added <- addPattern sigma (PNode "f" [PVar "x"]) ;;
      match added with
      | Some e' =>
          r <- liftUF (UF.find e) ;;
          r' <- liftUF (UF.find e') ;;
          ret (ms, e', r, r')
      | None => unmodelled
      end
  | [] => unmodelled
  end.

Definition long_pattern_run : M EGraph (list (Substitution * EClassId)) :=
  addTerm (mkTerm "f" [leaf "a"]) ;;;
  ematch_all (PNode "f" [PVar "x"; PVar "y"]).

Definition long_pattern_add : M EGraph (option EClassId) :=
  ms <- long_pattern_run ;;
  match ms with
  | (sigma, _) :: _ => addPattern sigma (PNode "f" [PVar "x"; PVar "y"])
  | [] => unmodelled
  end.

(** The call raises an exception. *)
Definition throws {A} (o : outcome EGraph A) : bool :=
  match o with
  | Throw _ => true
  | ThrowOutside => true
  | _ => false
  end.

Lemma ematch_ignores_arity :
  value (short_pattern_run EG.empty) = Some ([([("x", 0)], 2)], 3, 2, 3) /\
  value (long_pattern_run EG.empty) = Some [([("x", 0)], 1)] /\
  map_get String.eqb "y" [("x", 0)] = (None : option EClassId) /\
  throws (long_pattern_add EG.empty) = true.
Proof. vm_compute. repeat split; reflexivity. Qed.

(** C5 on a concrete e-graph. [f(a)] is added (classes 0 and 1) and [a] is
    merged with it, so class 0 holds [f(a)], one of its own parents. Then
    [f(b)] is added (classes 2 and 3) and [a] is merged with [b]. In the
    repair, the parent [f(b)] is congruent to the parent [f(a)], whose class
    is 0; [if (newParentEid2)] reads the id 0 as false, the classes 0 and 3
    stay apart, and [hashcons] now sends [f(a)] to 3. Adding [f(a)] again
    returns 3, while its first id 1 has root 0. *)
Definition readd_run : M EGraph (EClassId * EClassId * UF.Key * UF.Key) :=
  a <- addTerm (leaf "a") ;;
  first <- addTerm (mkTerm "f" [leaf "a"]) ;;
  merge a first ;;;
  b <- addTerm (leaf "b") ;;
  addTerm (mkTerm "f" [leaf "b"]) ;;;
  merge a b ;;;
  second <- addTerm (mkTerm "f" [leaf "a"]) ;;
  r1 <- liftUF (UF.find first) ;;
  r2 <- liftUF (UF.find second) ;;
  ret (first, second, r1, r2).

Lemma readd_after_merge_differs :
  value (readd_run EG.empty) = Some (1, 3, 0, 3).
Proof. vm_compute. reflexivity. Qed.

End EGraphRuns.

(* ------------------------------------------------------------------ *)
(** * Facts about the saturation driver: runs on concrete inputs *)

Section DriverRuns.

Import Language EG.
Local Open Scope string_scope.
Local Open Scope list_scope.
Local Open Scope monad_scope.

(** Instantiation of a pattern by ground terms. *)
Fixpoint instantiate (sigma : list (string * Term)) (p : Pattern) : option Term :=
  match p with
  | PVar name => map_get String.eqb name sigma
  | PNode o cs =>
      match
        (fix all (l : list Pattern) : option (list Term) :=
           match l with
           | [] => Some []
           | x :: xs =>
               match instantiate sigma x, all xs with
               | Some t, Some ts => Some (t :: ts)
               | _, _ => None
               end
           end) cs
      with
      | Some ts => Some (mkTerm o ts)
      | None => None
      end
  end.

(** One application of a rewrite rule, at the root or inside a term. *)
Inductive rewrite_step (rules : list (Pattern * Pattern)) : Term -> Term -> Prop :=
| rewrite_root lhs rhs sigma t t' :
    In (lhs, rhs) rules ->
    instantiate sigma lhs = Some t ->
    instantiate sigma rhs = Some t' ->
    rewrite_step rules t t'
| rewrite_child o before t t' after :
    rewrite_step rules t t' ->
    rewrite_step rules (mkTerm o (before ++ t :: after))
                       (mkTerm o (before ++ t' :: after)).

(** Terms that repeated application of the rules equates. *)
Inductive equated (rules : list (Pattern * Pattern)) : Term -> Term -> Prop :=
| equated_step t t' : rewrite_step rules t t' -> equated rules t t'
| equated_refl t : equated rules t t
| equated_sym t t' : equated rules t t' -> equated rules t' t
| equated_trans t t' t'' :
    equated rules t t' -> equated rules t' t'' -> equated rules t t''.

(** The driver on an e-graph that holds two terms: both are added, the loop
    of [equality_saturation] runs, and the roots of the two ids are read.
    The boolean tells whether the loop ended on its [break]. *)
Definition saturate_two (t1 t2 : Term) (rewrites : list (Pattern * Pattern))
  (maxIteration : nat) : M EGraph (bool * UF.Key * UF.Key) :=
  e1 <- addTerm t1 ;;
  e2 <- addTerm t2 ;;
  dumpEGraph ;;;
  stopped <- iterate maxIteration rewrites ;;
  r1 <- liftUF (UF.find e1) ;;
  r2 <- liftUF (UF.find e2) ;;
  ret (stopped, r1, r2).

Definition gb : Term := mkTerm "g" [leaf "b"].
Definition gfb : Term := mkTerm "g" [mkTerm "f" [leaf "b"]].

Definition rules_g_b : list (Pattern * Pattern) :=
  [(PNode "g" [PVar "y"], PVar "y");
   (PNode "b" [], PNode "f" [PNode "b" []])].

(** C1 on a concrete input. The rule [b -> (f b)] rewrites [(g b)] into
    [(g (f b))], yet the driver stops on its fixed-point signal with the two
    terms in different classes. The merge of [(g (f b))] with [(f b)] looks
    the original node [f(0)] of the absorbed class up in [hashcons], where
    an earlier repair has replaced that key by [f(1)]: the lookup gives
    [undefined], which is stored as the class of [f(1)]. The rule
    [b -> (f b)] then creates a second class for [(f b)], and nothing merges
    it with the first. *)
Lemma saturation_misses_congruence :
  gb <> gfb /\
  equated rules_g_b gb gfb /\
  value (saturate_two gb gfb rules_g_b 16 EG.empty) = Some (true, 1, 3).
Proof.
  split; [discriminate|]. split; [|vm_compute; reflexivity].
  apply equated_step.
  apply (rewrite_child rules_g_b "g" [] (leaf "b") (mkTerm "f" [leaf "b"]) []).
  apply (rewrite_root rules_g_b (PNode "b" []) (PNode "f" [PNode "b" []]) []);
    [right; left; reflexivity | reflexivity | reflexivity].
Qed.

(** The driver on one term, followed by one more sweep: whether the loop
    ended on its [break], and the two counts before and after the further
    sweep. *)
Definition one_more_sweep (term : Term) (rewrites : list (Pattern * Pattern))
  (maxIteration : nat) : M EGraph (bool * (nat * nat) * (nat * nat)) :=
  addTerm term ;;;
  dumpEGraph ;;;
  stopped <- iterate maxIteration rewrites ;;
  g <- get ;;
  sweep rewrites ;;;
  g' <- get ;;
  ret (stopped, (classCount g, nodeCount g), (classCount g', nodeCount g')).

Definition gffb : Term := mkTerm "g" [mkTerm "f" [mkTerm "f" [leaf "b"]]].

Definition rules_f_b : list (Pattern * Pattern) :=
  [(PNode "f" [PVar "x"], PVar "x");
   (PNode "b" [], PNode "f" [PNode "g" [PNode "b" []]])].

(** C6 on a concrete input. The second sweep merges the class of [g(...)]
    into the class of [b] and then adds [(f (g b))] again; the merge has
    left [g(1)] bound to [undefined] in [hashcons], so two fresh classes are
    created and one of them is merged away: the sweep ends with the 2
    classes and 4 nodes it started with, and the driver stops. One more
    sweep merges the remaining two classes: 1 class and 3 nodes. *)
Lemma sweep_after_fixed_point_signal :
  value (one_more_sweep gffb rules_f_b 16 EG.empty)
  = Some (true, (2, 4), (1, 3)).
Proof. vm_compute. reflexivity. Qed.

End DriverRuns.

(* ------------------------------------------------------------------ *)
(** * Facts about union-find.ts *)

Section UnionFindFacts.

Import UF.

(** A well-formed union-find: the two arrays have the same length, every
    parent is a key, and the rank grows strictly from a key to its parent. *)
Definition uf_wf (uf : UnionFind) : Prop :=
  List.length (rank uf) = List.length (parent uf) /\
  forall i p, nth_error (parent uf) i = Some p ->
    p < List.length (parent uf) /\
    (p <> i -> nth i (rank uf) 0 < nth p (rank uf) 0).

(** [root_of uf x r]: following the parents from [x] ends at the root [r]. *)
Inductive root_of (uf : UnionFind) : Key -> Key -> Prop :=
| root_of_root x : nth_error (parent uf) x = Some x -> root_of uf x x
| root_of_step x p r :
    nth_error (parent uf) x = Some p -> p <> x ->
    root_of uf p r -> root_of uf x r.

Lemma length_upd {A} (l : list A) i v : List.length (upd l i v) = List.length l.
Proof.
  revert i; induction l as [|x l IH]; intros [|i]; simpl; auto.
Qed.

Lemma nth_error_upd_eq {A} (l : list A) i v :
  i < List.length l -> nth_error (upd l i v) i = Some v.
Proof.
  revert i; induction l as [|x l IH]; intros [|i]; simpl; intros H;
    try lia; auto. apply IH. lia.
Qed.

Lemma nth_error_upd_ne {A} (l : list A) i j v :
  i <> j -> nth_error (upd l i v) j = nth_error l j.
Proof.
  revert i j; induction l as [|x l IH]; intros [|i] [|j] H; simpl; auto;
    try congruence.
Qed.

Lemma nth_upd_eq {A} (l : list A) i v d :
  i < List.length l -> nth i (upd l i v) d = v.
Proof.
  intros H. apply nth_error_nth. now apply nth_error_upd_eq.
Qed.

Lemma nth_upd_ne {A} (l : list A) i j v d :
  i <> j -> nth j (upd l i v) d = nth j l d.
Proof.
  revert i j; induction l as [|x l IH]; intros [|i] [|j] H; simpl; auto;
    try congruence.
Qed.

Lemma root_of_is_root uf x r :
  root_of uf x r -> nth_error (parent uf) r = Some r.
Proof. induction 1; auto. Qed.

Lemma root_of_functional uf x r r' :
  root_of uf x r -> root_of uf x r' -> r = r'.
Proof.
  intros H; revert r'. induction H as [x Hx | x p r Hp Hne _ IH]; intros r' H'.
  - inversion H'; subst; [reflexivity | congruence].
  - inversion H'; subst; [congruence|].
    apply IH. congruence.
Qed.

Lemma root_of_rank uf x r :
  uf_wf uf -> root_of uf x r ->
  x = r \/ nth x (rank uf) 0 < nth r (rank uf) 0.
Proof.
  intros [_ Hwf]. induction 1 as [x Hx | x p r Hp Hne _ IH]; [now left|].
  right. destruct (Hwf x p Hp) as [_ Hr]. specialize (Hr Hne).
  destruct IH as [->|IH]; lia.
Qed.

Lemma rank_le_max uf x :
  nth x (rank uf) 0 <= list_max (rank uf).
Proof.
  destruct (Nat.lt_ge_cases x (List.length (rank uf))) as [H|H].
  - pose proof (proj1 (list_max_le (rank uf) _) (Nat.le_refl _)) as HF.
    rewrite Forall_forall in HF. apply HF. now apply nth_In.
  - rewrite nth_overflow by assumption. lia.
Qed.

(** Storing the root of [x] as the parent of [x] keeps every root. *)
Lemma compress_root_of uf x r :
  uf_wf uf -> root_of uf x r ->
  forall y r', root_of uf y r' ->
  root_of (mkUF (upd (parent uf) x r) (rank uf)) y r'.
Proof.
  intros Hwf Hx y r' Hy.
  assert (Hxlt : x < List.length (parent uf)).
  { inversion Hx; subst; apply nth_error_Some; congruence. }
  pose proof (root_of_is_root _ _ _ Hx) as Hr.
  induction Hy as [y Hyy | y p r' Hp Hne Hy IH].
  - apply root_of_root. simpl.
    destruct (Nat.eq_dec x y) as [->|Hn].
    + assert (r = y) by (eapply root_of_functional; [exact Hx | now apply root_of_root]).
      subst. now rewrite nth_error_upd_eq.
    + now rewrite nth_error_upd_ne.
  - destruct (Nat.eq_dec x y) as [->|Hn].
    + assert (r' = r).
      { eapply root_of_functional; [|exact Hx]. eapply root_of_step; eauto. }
      subst r'.
      destruct (root_of_rank _ _ _ Hwf Hx) as [->|Hlt]; [congruence|].
      apply root_of_step with (p := r).
      * simpl. now rewrite nth_error_upd_eq.
      * intros ->. lia.
      * apply root_of_root. simpl. rewrite nth_error_upd_ne; [exact Hr|].
        intros ->. lia.
    + apply root_of_step with (p := p); [|assumption|exact IH].
      simpl. now rewrite nth_error_upd_ne.
Qed.

(** What [find] guarantees on a well-formed union-find. *)
Definition find_post (uf : UnionFind) (x r : Key) (uf' : UnionFind) : Prop :=
  root_of uf x r /\
  uf_wf uf' /\
  rank uf' = rank uf /\
  List.length (parent uf') = List.length (parent uf) /\
  (forall y, nth_error (parent uf) y = Some y <-> nth_error (parent uf') y = Some y) /\
  (forall y r', root_of uf y r' -> root_of uf' y r').

Lemma wf_compress uf x r :
  uf_wf uf -> x < List.length (parent uf) ->
  nth_error (parent uf) r = Some r ->
  nth x (rank uf) 0 < nth r (rank uf) 0 ->
  uf_wf (mkUF (upd (parent uf) x r) (rank uf)).
Proof.
  intros [Hlen Hpar] Hx Hr Hlt.
  split; simpl; rewrite length_upd; [assumption|].
  intros i p Hi. destruct (Nat.eq_dec x i) as [->|Hn].
  - rewrite nth_error_upd_eq in Hi by assumption. inversion Hi; subst p.
    split; [apply nth_error_Some; congruence | intros _; exact Hlt].
  - rewrite nth_error_upd_ne in Hi by assumption. now apply Hpar.
Qed.

Lemma find_fuel_spec f :
  forall uf x,
  uf_wf uf -> x < List.length (parent uf) ->
  list_max (rank uf) - nth x (rank uf) 0 < f ->
  exists r uf', find_fuel f x uf = Ret r uf' /\ find_post uf x r uf'.
Proof.
  induction f as [|f IH]; intros uf x Hwf Hx Hf; [lia|].
  cbn [find_fuel].
  destruct (nth_error (parent uf) x) as [p|] eqn:Hp;
    [|apply nth_error_None in Hp; lia].
  destruct (Nat.eqb_spec p x) as [->|Hne].
  - exists x, uf. split; [reflexivity|].
    split; [now apply root_of_root|].
    split; [assumption|]. split; [reflexivity|]. split; [reflexivity|].
    split; [tauto | auto].
  - pose proof Hwf as [Hlen Hpar]. destruct (Hpar x p Hp) as [Hplt Hrk].
    specialize (Hrk Hne).
    pose proof (rank_le_max uf p) as Hmax.
    destruct (IH uf p Hwf Hplt ltac:(lia))
      as (r & uf1 & E & Hroot & Hwf1 & Hrank1 & Hlen1 & Hroots1 & Hpres1).
    rewrite E. eexists r, _. split; [reflexivity|].
    assert (Hxr : root_of uf x r) by (eapply root_of_step; eauto).
    assert (Hxr1 : root_of uf1 x r) by auto.
    pose proof (root_of_is_root _ _ _ Hxr1) as Hr1.
    assert (Hrlt : nth x (rank uf) 0 < nth r (rank uf) 0).
    { destruct (root_of_rank uf p r Hwf Hroot) as [->|Hl]; lia. }
    assert (Hrne : r <> x) by (intros ->; lia).
    split; [exact Hxr|].
    split; [apply wf_compress; auto; [lia | now rewrite Hrank1]|].
    split; [exact Hrank1|].
    split; [simpl; now rewrite length_upd|].
    split.
    + intros y. simpl. destruct (Nat.eq_dec x y) as [->|Hn].
      * rewrite nth_error_upd_eq by lia. split; intros H; congruence.
      * rewrite nth_error_upd_ne by assumption. apply Hroots1.
    + intros y r' Hy. apply (compress_root_of uf1 x r Hwf1 Hxr1). now apply Hpres1.
Qed.

Lemma find_spec uf x :
  uf_wf uf -> x < List.length (parent uf) ->
  exists r uf', find x uf = Ret r uf' /\ find_post uf x r uf'.
Proof.
  intros Hwf Hx. unfold find, find_depth. apply find_fuel_spec; auto. lia.
Qed.

Lemma root_of_lt uf x r : root_of uf x r -> x < List.length (parent uf).
Proof. inversion 1; subst; apply nth_error_Some; congruence. Qed.

Lemma root_of_total uf x :
  uf_wf uf -> x < List.length (parent uf) -> exists r, root_of uf x r.
Proof.
  intros Hwf Hx. destruct (find_spec uf x Hwf Hx) as (r & uf' & _ & H & _).
  now exists r.
Qed.

(** [find] changes no root: the converse of the last clause of [find_post]. *)
Lemma find_post_back uf x r uf' :
  uf_wf uf -> find_post uf x r uf' ->
  forall y r', root_of uf' y r' -> root_of uf y r'.
Proof.
  intros Hwf (_ & _ & _ & Hlen & _ & Hpres) y r' Hy.
  pose proof (root_of_lt _ _ _ Hy) as Hlt. rewrite Hlen in Hlt.
  destruct (root_of_total uf y Hwf Hlt) as [r0 H0].
  assert (r0 = r') by (eapply root_of_functional; [apply Hpres; exact H0 | exact Hy]).
  now subst.
Qed.

(** What [union] guarantees on a well-formed union-find. *)
Definition union_post (uf : UnionFind) (res : option (Key * Key))
  (uf' : UnionFind) : Prop :=
  uf_wf uf' /\
  List.length (parent uf') = List.length (parent uf) /\
  match res with
  | None =>
      forall z, nth_error (parent uf) z = Some z <-> nth_error (parent uf') z = Some z
  | Some (r, c) =>
      r <> c /\
      nth_error (parent uf) r = Some r /\
      nth_error (parent uf) c = Some c /\
      nth_error (parent uf') r = Some r /\
      nth_error (parent uf') c = Some r /\
      (forall z, z <> c ->
         (nth_error (parent uf) z = Some z <-> nth_error (parent uf') z = Some z))
  end.

Lemma wf_attach uf r c rk :
  uf_wf uf ->
  nth_error (parent uf) r = Some r -> nth_error (parent uf) c = Some c ->
  r <> c ->
  List.length rk = List.length (rank uf) ->
  (forall i, i <> r -> nth i rk 0 = nth i (rank uf) 0) ->
  nth r (rank uf) 0 <= nth r rk 0 ->
  nth c (rank uf) 0 < nth r rk 0 ->
  uf_wf (mkUF (upd (parent uf) c r) rk).
Proof.
  intros [Hlen Hpar] Hr Hc Hne Hlk Hsame Hge Hlt.
  assert (Hclt : c < List.length (parent uf)) by (apply nth_error_Some; congruence).
  assert (Hrlt : r < List.length (parent uf)) by (apply nth_error_Some; congruence).
  split; simpl; rewrite length_upd; [congruence|].
  intros i p Hi. destruct (Nat.eq_dec c i) as [->|Hn].
  - rewrite nth_error_upd_eq in Hi by assumption. inversion Hi; subst p.
    split; [assumption|]. intros _. rewrite (Hsame i) by congruence. exact Hlt.
  - rewrite nth_error_upd_ne in Hi by assumption.
    destruct (Hpar i p Hi) as [Hp Hrk]. split; [assumption|].
    intros Hpi. specialize (Hrk Hpi).
    assert (i <> r) by (intros ->; congruence).
    rewrite (Hsame i) by assumption.
    destruct (Nat.eq_dec p r) as [->|Hpr]; [lia|].
    now rewrite (Hsame p).
Qed.

Lemma union_spec uf x y :
  uf_wf uf -> x < List.length (parent uf) -> y < List.length (parent uf) ->
  exists res uf', union x y uf = Ret res uf' /\ union_post uf res uf'.
Proof.
  intros Hwf Hx Hy. unfold union, bind.
  destruct (find_spec uf x Hwf Hx)
    as (rx & uf1 & E1 & Hrx & Hwf1 & Hrk1 & Hlen1 & Hroots1 & Hpres1).
  rewrite E1.
  destruct (find_spec uf1 y Hwf1 ltac:(lia))
    as (ry & uf2 & E2 & Hry & Hwf2 & Hrk2 & Hlen2 & Hroots2 & Hpres2).
  rewrite E2.
  assert (Hroots : forall z, nth_error (parent uf) z = Some z
                             <-> nth_error (parent uf2) z = Some z).
  { intros z. rewrite Hroots1. apply Hroots2. }
  destruct (Nat.eqb_spec rx ry) as [Heq|Hne].
  - exists None, uf2. split; [reflexivity|].
    split; [assumption|]. split; [congruence|]. exact Hroots.
  - pose proof (root_of_is_root _ _ _ Hrx) as Rx. apply Hroots in Rx.
    pose proof (root_of_is_root _ _ _ Hry) as Ry. apply Hroots2 in Ry.
    assert (Lx : rx < List.length (parent uf2)) by (apply nth_error_Some; congruence).
    assert (Ly : ry < List.length (parent uf2)) by (apply nth_error_Some; congruence).
    destruct Hwf2 as [Hl2 Hp2].
    unfold get. cbn [bind].
    destruct (nth_error (rank uf2) rx) as [kx|] eqn:Kx;
      [|apply nth_error_None in Kx; lia].
    destruct (nth_error (rank uf2) ry) as [ky|] eqn:Ky;
      [|apply nth_error_None in Ky; lia].
    pose proof (nth_error_nth _ _ 0 Kx) as Nx.
    pose proof (nth_error_nth _ _ 0 Ky) as Ny.
    destruct (Nat.ltb_spec kx ky) as [Hlt|Hge].
    + eexists (Some (ry, rx)), _. split; [reflexivity|].
      split; [|split; [simpl; rewrite length_upd; congruence|]].
      * apply wf_attach; auto; try lia. split; assumption.
      * simpl. repeat split; try (apply Hroots; assumption); auto.
        -- now rewrite nth_error_upd_ne by auto.
        -- now rewrite nth_error_upd_eq.
        -- intros Hz. rewrite nth_error_upd_ne by auto. now apply Hroots.
        -- intros Hz. rewrite nth_error_upd_ne in Hz by auto. now apply Hroots.
    + destruct (Nat.ltb_spec ky kx) as [Hlt|Hge'].
      * eexists (Some (rx, ry)), _. split; [reflexivity|].
        split; [|split; [simpl; rewrite length_upd; congruence|]].
        -- apply wf_attach; auto; try lia. split; assumption.
        -- simpl. repeat split; try (apply Hroots; assumption); auto.
           ++ now rewrite nth_error_upd_ne by auto.
           ++ now rewrite nth_error_upd_eq.
           ++ intros Hz. rewrite nth_error_upd_ne by auto. now apply Hroots.
           ++ intros Hz. rewrite nth_error_upd_ne in Hz by auto. now apply Hroots.
      * eexists (Some (rx, ry)), _. split; [reflexivity|].
        split; [|split; [simpl; rewrite length_upd; congruence|]].
        -- apply wf_attach; auto; try (split; assumption).
           ++ now rewrite length_upd.
           ++ intros i Hi. now rewrite nth_upd_ne by auto.
           ++ rewrite nth_upd_eq by lia. lia.
           ++ rewrite nth_upd_eq by lia. lia.
        -- simpl. repeat split; try (apply Hroots; assumption); auto.
           ++ now rewrite nth_error_upd_ne by auto.
           ++ now rewrite nth_error_upd_eq.
           ++ intros Hz. rewrite nth_error_upd_ne by auto. now apply Hroots.
           ++ intros Hz. rewrite nth_error_upd_ne in Hz by auto. now apply Hroots.
Qed.

(** [extend] adds a root and leaves the other keys as they are. *)
Lemma extend_wf uf :
  uf_wf uf ->
  uf_wf (mkUF (parent uf ++ [List.length (parent uf)]) (rank uf ++ [0])).
Proof.
  intros [Hlen Hpar]. split; simpl; rewrite !length_app; simpl; [lia|].
  intros i p Hi.
  destruct (Nat.lt_ge_cases i (List.length (parent uf))) as [Hlt|Hge].
  - rewrite nth_error_app1 in Hi by assumption.
    destruct (Hpar i p Hi) as [Hp Hrk]. split; [lia|].
    intros Hne. specialize (Hrk Hne).
    rewrite !app_nth1 by lia. exact Hrk.
  - rewrite nth_error_app2 in Hi by assumption.
    destruct (i - List.length (parent uf)) as [|k] eqn:Ek; simpl in Hi.
    + inversion Hi; subst p. split; [lia|]. intros Hne. lia.
    + destruct k; discriminate.
Qed.

Lemma extend_root_of uf x r :
  root_of uf x r ->
  root_of (mkUF (parent uf ++ [List.length (parent uf)]) (rank uf ++ [0])) x r.
Proof.
  induction 1 as [x Hx | x p r Hp Hne _ IH].
  - apply root_of_root. simpl. rewrite nth_error_app1; [assumption|].
    apply nth_error_Some. congruence.
  - apply root_of_step with (p := p); auto. simpl.
    rewrite nth_error_app1; [assumption|]. apply nth_error_Some. congruence.
Qed.

Lemma extend_root_of_back uf x r :
  uf_wf uf -> x < List.length (parent uf) ->
  root_of (mkUF (parent uf ++ [List.length (parent uf)]) (rank uf ++ [0])) x r ->
  root_of uf x r.
Proof.
  intros Hwf Hx H. destruct (root_of_total uf x Hwf Hx) as [r0 H0].
  assert (r0 = r)
    by (eapply root_of_functional; [apply extend_root_of; exact H0 | exact H]).
  now subst.
Qed.

End UnionFindFacts.

(* ------------------------------------------------------------------ *)
(** * Facts about egraph.ts: the invariant of the state *)

Section EGraphInvariant.

Import UF EG.
Local Open Scope monad_scope.

Definition gsize (g : EGraph) : nat := List.length (parent (unionFind g)).

Definition isroot (g : EGraph) (r : EClassId) : Prop :=
  nth_error (parent (unionFind g)) r = Some r.

(** Ids below [n]. *)
Definition ids_ok (n : nat) (l : list EClassId) : Prop :=
  Forall (fun c => c < n) l.

Definition entries_ok (n : nat) (m : list (ENode * EClassId)) : Prop :=
  Forall (fun e => ids_ok n (children (fst e)) /\ snd e < n) m.

Definition eclass_ok (n : nat) (ec : EClass) : Prop :=
  ids_ok n (children (originalNode ec)) /\ entries_ok n (parents ec).

Definition hashcons_ok (n : nat) (h : list (ENode * option EClassId)) : Prop :=
  Forall (fun e => match snd e with Some v => v < n | None => True end) h.

(** The invariant that [add] and [merge] rely on and maintain: the union-find
    is well formed, every root has a class object, and every id stored in the
    objects and in [hashcons] is a key of the union-find. *)
Record egraph_inv (g : EGraph) : Prop := mkInv {
  inv_uf : uf_wf (unionFind g);
  inv_roots : forall r, isroot g r ->
      exists eclass, classes_get r g = Some eclass /\ eclass < List.length (store g);
  inv_store : Forall (eclass_ok (gsize g)) (store g);
  inv_hashcons : hashcons_ok (gsize g) (hashcons g)
}.

(** The same invariant as a test, to run on a concrete state. *)
Definition uf_okb (uf : UnionFind) : bool :=
  let n := List.length (parent uf) in
  Nat.eqb (List.length (rank uf)) n &&
  forallb (fun i =>
             match nth_error (parent uf) i with
             | Some p =>
                 Nat.ltb p n
                 && (Nat.eqb p i || Nat.ltb (nth i (rank uf) 0) (nth p (rank uf) 0))
             | None => true
             end) (seq 0 n).

Definition ids_okb (n : nat) (l : list EClassId) : bool :=
  forallb (fun c => Nat.ltb c n) l.

Definition entries_okb (n : nat) (m : list (ENode * EClassId)) : bool :=
  forallb (fun e => ids_okb n (children (fst e)) && Nat.ltb (snd e) n) m.

Definition egraph_ok (g : EGraph) : bool :=
  let n := List.length (parent (unionFind g)) in
  uf_okb (unionFind g)
  && forallb (fun r =>
                match nth_error (parent (unionFind g)) r with
                | Some p =>
                    negb (Nat.eqb p r) ||
                    match classes_get r g with
                    | Some eclass => Nat.ltb eclass (List.length (store g))
                    | None => false
                    end
                | None => true
                end) (seq 0 n)
  && forallb (fun ec => ids_okb n (children (originalNode ec))
                        && entries_okb n (parents ec)) (store g)
  && forallb (fun e => match snd e with
                       | Some v => Nat.ltb v n
                       | None => true
                       end) (hashcons g).

Lemma ids_okb_spec n l : ids_okb n l = true -> ids_ok n l.
Proof.
  unfold ids_okb, ids_ok. rewrite forallb_forall, Forall_forall.
  intros H x Hx. apply Nat.ltb_lt. now apply H.
Qed.

Lemma uf_okb_spec uf : uf_okb uf = true -> uf_wf uf.
Proof.
  unfold uf_okb. intros H. apply andb_true_iff in H as [Hl Hf].
  apply Nat.eqb_eq in Hl. split; [assumption|].
  rewrite forallb_forall in Hf. intros i p Hi.
  assert (Hlt : i < List.length (parent uf)) by (apply nth_error_Some; congruence).
  specialize (Hf i ltac:(apply in_seq; lia)). rewrite Hi in Hf.
  apply andb_true_iff in Hf as [Hp Hr]. apply Nat.ltb_lt in Hp.
  split; [assumption|]. intros Hne.
  apply orb_true_iff in Hr as [Hr|Hr].
  - apply Nat.eqb_eq in Hr. contradiction.
  - now apply Nat.ltb_lt.
Qed.

Lemma egraph_ok_inv g : egraph_ok g = true -> egraph_inv g.
Proof.
  unfold egraph_ok. intros H.
  apply andb_true_iff in H as [H H4]. apply andb_true_iff in H as [H H3].
  apply andb_true_iff in H as [H1 H2].
  constructor.
  - now apply uf_okb_spec.
  - intros r Hr. unfold isroot in Hr. rewrite forallb_forall in H2.
    assert (Hlt : r < List.length (parent (unionFind g)))
      by (apply nth_error_Some; congruence).
    specialize (H2 r ltac:(apply in_seq; lia)). rewrite Hr in H2.
    rewrite Nat.eqb_refl in H2. simpl in H2.
    destruct (classes_get r g) as [ec|]; [|discriminate].
    exists ec. split; [reflexivity|]. now apply Nat.ltb_lt.
  - rewrite forallb_forall in H3. apply Forall_forall. intros ec Hec.
    specialize (H3 ec Hec). apply andb_true_iff in H3 as [Ha Hb].
    split; [now apply ids_okb_spec|].
    unfold entries_okb in Hb. rewrite forallb_forall in Hb.
    apply Forall_forall. intros e He. specialize (Hb e He).
    apply andb_true_iff in Hb as [Hc Hd].
    split; [now apply ids_okb_spec | now apply Nat.ltb_lt].
  - rewrite forallb_forall in H4. apply Forall_forall. intros e He.
    specialize (H4 e He). destruct (snd e); [now apply Nat.ltb_lt | exact I].
Qed.

(** A step that only compresses paths of the union-find. *)
Record uf_only (g g' : EGraph) : Prop := mkUfOnly {
  uo_store : store g' = store g;
  uo_classes : classes g' = classes g;
  uo_hashcons : hashcons g' = hashcons g;
  uo_size : gsize g' = gsize g;
  uo_wf : uf_wf (unionFind g');
  uo_roots : forall z, isroot g z <-> isroot g' z;
  uo_root_of : forall y r, root_of (unionFind g) y r -> root_of (unionFind g') y r
}.

Lemma uf_only_refl g : uf_wf (unionFind g) -> uf_only g g.
Proof. intros H. constructor; auto; tauto. Qed.

Lemma uf_only_trans g1 g2 g3 : uf_only g1 g2 -> uf_only g2 g3 -> uf_only g1 g3.
Proof.
  intros [a b c d e f h] [a' b' c' d' e' f' h'].
  constructor; try congruence; auto.
  intros z. rewrite f. apply f'.
Qed.

Lemma inv_uf_only g g' : egraph_inv g -> uf_only g g' -> egraph_inv g'.
Proof.
  intros [I1 I2 I3 I4] [a b c d e f h]. constructor.
  - assumption.
  - intros r Hr. apply f in Hr. destruct (I2 r Hr) as (ec & H1 & H2).
    exists ec. unfold classes_get in *. rewrite b, a. auto.
  - rewrite a, d. assumption.
  - rewrite c, d. assumption.
Qed.

Lemma liftUF_find_spec g x :
  egraph_inv g -> x < gsize g ->
  exists r g', liftUF (find x) g = Ret r g' /\
    uf_only g g' /\ isroot g' r /\ r < gsize g /\ root_of (unionFind g) x r.
Proof.
  intros Hinv Hx. unfold liftUF.
  destruct (find_spec (unionFind g) x (inv_uf g Hinv) Hx)
    as (r & uf' & E & Hr & Hwf & Hrk & Hlen & Hroots & Hpres).
  rewrite E. eexists r, _. split; [reflexivity|].
  pose proof (root_of_is_root _ _ _ Hr) as Rr.
  split; [|split; [|split]].
  - constructor; simpl; auto.
  - unfold isroot. simpl. now apply Hroots.
  - unfold gsize. apply nth_error_Some. congruence.
  - exact Hr.
Qed.

End EGraphInvariant.

(* ------------------------------------------------------------------ *)
(** * Facts about egraph.ts: [canonicalize] and [add] *)

Section AddFacts.

Import UF EG.
Local Open Scope monad_scope.

Lemma uf_only_back g g' :
  uf_wf (unionFind g) -> uf_only g g' ->
  forall y r, root_of (unionFind g') y r -> root_of (unionFind g) y r.
Proof.
  intros Hwf H y r Hy.
  pose proof (root_of_lt _ _ _ Hy) as Hlt.
  pose proof (uo_size _ _ H) as Hs. unfold gsize in Hs. rewrite Hs in Hlt.
  destruct (root_of_total _ y Hwf Hlt) as [r0 H0].
  assert (r0 = r)
    by (eapply root_of_functional; [apply (uo_root_of _ _ H); exact H0 | exact Hy]).
  now subst.
Qed.

Lemma isroot_lt g r : isroot g r -> r < gsize g.
Proof. unfold isroot, gsize. intros H. apply nth_error_Some. congruence. Qed.

Lemma mapM_find_spec cs :
  forall g, egraph_inv g -> ids_ok (gsize g) cs ->
  exists rs g',
    mapM (fun eid => liftUF (find eid)) cs g = Ret rs g' /\
    uf_only g g' /\
    Forall (isroot g') rs /\
    Forall2 (root_of (unionFind g)) cs rs.
Proof.
  induction cs as [|c cs IH]; intros g Hinv Hok.
  - exists [], g. split; [reflexivity|].
    split; [apply uf_only_refl, (inv_uf g Hinv)|]. split; constructor.
  - inversion Hok as [|? ? Hc Hcs]; subst.
    cbn [mapM]. fold (mapM (fun eid => liftUF (find eid))). unfold bind.
    destruct (liftUF_find_spec g c Hinv Hc) as (r & g1 & E & U1 & Rr & Hr & Hroot).
    rewrite E.
    assert (Hinv1 : egraph_inv g1) by (eapply inv_uf_only; eauto).
    assert (Hok1 : ids_ok (gsize g1) cs) by (rewrite (uo_size _ _ U1); assumption).
    destruct (IH g1 Hinv1 Hok1) as (rs & g2 & E2 & U2 & Rrs & Hroots).
    rewrite E2. exists (r :: rs), g2. split; [reflexivity|].
    split; [eapply uf_only_trans; eauto|]. split.
    + constructor; [|assumption]. now apply (uo_roots _ _ U2).
    + constructor; [assumption|].
      eapply Forall2_impl; [|exact Hroots].
      intros a b Hab. eapply uf_only_back; eauto. apply (inv_uf g Hinv).
Qed.

Lemma canonicalize_spec g e :
  egraph_inv g -> ids_ok (gsize g) (children e) ->
  exists e' g',
    canonicalize e g = Ret e' g' /\
    uf_only g g' /\
    op e' = op e /\
    Forall (isroot g') (children e') /\
    Forall2 (root_of (unionFind g)) (children e) (children e').
Proof.
  intros Hinv Hok. unfold canonicalize, bind.
  destruct (mapM_find_spec (children e) g Hinv Hok) as (rs & g' & E & U & R & F).
  rewrite E. exists (mkENode (op e) rs), g'.
  split; [reflexivity|]. split; [exact U|]. split; [reflexivity|].
  split; [exact R | exact F].
Qed.

Lemma ids_eqb_refl l : ids_eqb l l = true.
Proof. induction l as [|x l IH]; simpl; [reflexivity|]. now rewrite Nat.eqb_refl. Qed.

Lemma enode_eqb_refl e : enode_eqb e e = true.
Proof. unfold enode_eqb. now rewrite String.eqb_refl, ids_eqb_refl. Qed.

Lemma map_set_idem {V} (e : ENode) (v : V) (m : list (ENode * V)) :
  map_set enode_eqb e v (map_set enode_eqb e v m) = map_set enode_eqb e v m.
Proof.
  induction m as [|[k' v'] m IH]; simpl.
  - now rewrite enode_eqb_refl.
  - destruct (enode_eqb e k') eqn:E; simpl; rewrite E; [reflexivity|].
    now rewrite IH.
Qed.

Lemma map_get_set_ne {V} (c k : nat) (v : V) (m : list (nat * V)) :
  c <> k -> map_get Nat.eqb c (map_set Nat.eqb k v m) = map_get Nat.eqb c m.
Proof.
  intros Hne. induction m as [|[k' v'] m IH]; simpl.
  - destruct (Nat.eqb_spec c k); [contradiction | reflexivity].
  - destruct (Nat.eqb_spec k k') as [->|Hk]; simpl.
    + destruct (Nat.eqb_spec c k'); [contradiction | reflexivity].
    + destruct (Nat.eqb_spec c k'); [reflexivity | exact IH].
Qed.

(** What the loop of [add] does to the class objects: nothing but setting
    the entry of the new node in some maps of parents. *)
Definition store_rel (e : ENode) (eid : EClassId) (st st' : list EClass) : Prop :=
  List.length st' = List.length st /\
  forall eclass ec, nth_error st eclass = Some ec ->
    exists ec', nth_error st' eclass = Some ec' /\
      nodes ec' = nodes ec /\
      originalNode ec' = originalNode ec /\
      (parents ec' = parents ec \/
       parents ec' = map_set enode_eqb e eid (parents ec)).

Lemma store_rel_refl e eid st : store_rel e eid st st.
Proof. split; [reflexivity|]. intros r ec H. exists ec. auto. Qed.

Lemma store_rel_trans e eid st1 st2 st3 :
  store_rel e eid st1 st2 -> store_rel e eid st2 st3 -> store_rel e eid st1 st3.
Proof.
  intros [L1 H1] [L2 H2]. split; [congruence|].
  intros r ec Hr. destruct (H1 r ec Hr) as (ec2 & Hr2 & N2 & O2 & P2).
  destruct (H2 r ec2 Hr2) as (ec3 & Hr3 & N3 & O3 & P3).
  exists ec3. repeat split; try congruence.
  destruct P2 as [P2|P2], P3 as [P3|P3]; rewrite P3, P2; auto.
  right. apply map_set_idem.
Qed.

Lemma store_rel_step e eid st child c :
  nth_error st child = Some c ->
  store_rel e eid st
    (upd st child (mkEClass (nodes c) (originalNode c)
                     (map_set enode_eqb e eid (parents c)))).
Proof.
  intros Hc. split; [apply length_upd|].
  assert (Hlt : child < List.length st) by (apply nth_error_Some; congruence).
  intros r ec Hr. destruct (Nat.eq_dec child r) as [->|Hne].
  - rewrite nth_error_upd_eq by assumption. eexists. split; [reflexivity|].
    assert (ec = c) by congruence. subst. simpl. auto.
  - rewrite nth_error_upd_ne by assumption. exists ec. auto.
Qed.

Definition add_loop_body (enode : ENode) (eid : EClassId) (child_id : EClassId)
  : M EGraph unit :=
  g2 <- get ;;
  match classes_get child_id g2 with
  | None => throw
  | Some child =>
      c <- deref child ;;
      set_parents child (map_set enode_eqb enode eid (parents c))
  end.

Lemma add_loop_spec enode eid cs :
  forall g,
  (forall c, In c cs ->
     exists eclass, classes_get c g = Some eclass /\ eclass < List.length (store g)) ->
  exists g',
    forM (add_loop_body enode eid) cs g = Ret tt g' /\
    unionFind g' = unionFind g /\
    classes g' = classes g /\
    hashcons g' = hashcons g /\
    store_rel enode eid (store g) (store g') /\
    (forall eclass,
       (forall c, In c cs -> classes_get c g <> Some eclass) ->
       nth_error (store g') eclass = nth_error (store g) eclass).
Proof.
  induction cs as [|c cs IH]; intros g Hcs.
  - exists g. split; [reflexivity|]. repeat (split; [reflexivity|]).
    split; [apply store_rel_refl | reflexivity].
  - destruct (Hcs c (or_introl eq_refl)) as (child & Hget & Hlt).
    destruct (nth_error (store g) child) as [ec|] eqn:Hec;
      [|apply nth_error_None in Hec; lia].
    cbn [forM]. fold (forM (add_loop_body enode eid)).
    unfold bind at 1. unfold add_loop_body at 1.
    unfold bind, get, set_parents, deref, modify, bind. rewrite Hget, Hec.
    rewrite Hec.
    match goal with
    | |- context [forM _ cs ?g1] =>
        destruct (IH g1) as (g' & E & Hu & Hc & Hh & Hs & Hun)
    end.
    { intros c' Hc'. destruct (Hcs c' (or_intror Hc')) as (r & Hr & Hrl).
      exists r. split; [exact Hr|]. simpl. now rewrite length_upd. }
    rewrite E. exists g'. simpl in Hu, Hc, Hh, Hs, Hun.
    split; [reflexivity|]. split; [exact Hu|]. split; [exact Hc|].
    split; [exact Hh|]. split.
    + eapply store_rel_trans; [|exact Hs]. now apply store_rel_step.
    + intros r Hr. rewrite Hun.
      * apply nth_error_upd_ne. intros ->.
        apply (Hr c (or_introl eq_refl)). exact Hget.
      * intros c' Hc'. apply (Hr c' (or_intror Hc')).
Qed.

Lemma connected_spec uf x y :
  uf_wf uf -> x < List.length (parent uf) -> y < List.length (parent uf) ->
  exists rx ry uf',
    connected x y uf = Ret (Nat.eqb rx ry) uf' /\
    root_of uf x rx /\ root_of uf y ry.
Proof.
  intros Hwf Hx Hy. unfold connected, bind.
  destruct (find_spec uf x Hwf Hx) as (rx & uf1 & E1 & P1). rewrite E1.
  pose proof P1 as (Hrx & Hwf1 & _ & Hlen1 & _ & _).
  destruct (find_spec uf1 y Hwf1 ltac:(lia)) as (ry & uf2 & E2 & P2). rewrite E2.
  exists rx, ry, uf2. split; [reflexivity|]. split; [assumption|].
  destruct P2 as (Hry & _). eapply find_post_back; eauto.
Qed.

(** Two union-finds with the same roots for the keys below [n] answer
    [connected] alike there. *)
Lemma connected_same uf uf' n x y :
  uf_wf uf -> uf_wf uf' ->
  n <= List.length (parent uf) -> n <= List.length (parent uf') ->
  (forall z r, z < n -> root_of uf z r -> root_of uf' z r) ->
  x < n -> y < n ->
  exists b u u', connected x y uf = Ret b u /\ connected x y uf' = Ret b u'.
Proof.
  intros Hwf Hwf' Hn Hn' Hsame Hx Hy.
  destruct (connected_spec uf x y Hwf ltac:(lia) ltac:(lia))
    as (rx & ry & u & E & Rx & Ry).
  destruct (connected_spec uf' x y Hwf' ltac:(lia) ltac:(lia))
    as (rx' & ry' & u' & E' & Rx' & Ry').
  assert (rx' = rx) by (eapply root_of_functional; [exact Rx' | now apply Hsame]).
  assert (ry' = ry) by (eapply root_of_functional; [exact Ry' | now apply Hsame]).
  subst. eauto.
Qed.

(** The state that [add] builds for a new node, before the loop over its
    children. *)
Definition add_fresh (g1 : EGraph) (enode : ENode) : EGraph :=
  mkEGraph
    (mkUF (parent (unionFind g1) ++ [gsize g1]) (rank (unionFind g1) ++ [0]))
    (store g1 ++ [createSingletonEClass enode])
    (map_set Nat.eqb (gsize g1) (List.length (store g1)) (classes g1))
    (map_set enode_eqb enode (Some (gsize g1)) (hashcons g1)).

Lemma add_unfold enode0 g :
  add enode0 g =
  match canonicalize enode0 g with
  | Ret enode g1 =>
      match hashcons_get enode g1 with
      | Some eid => Ret eid g1
      | None =>
          match forM (add_loop_body enode (gsize g1)) (children enode)
                  (add_fresh g1 enode) with
          | Ret _ g2 => Ret (gsize g1) g2
          | Throw g2 => Throw g2
          | ThrowOutside => ThrowOutside
          | Unmodelled => Unmodelled
          | OutOfFuel => OutOfFuel
          end
      end
  | Throw g1 => Throw g1
  | ThrowOutside => ThrowOutside
  | Unmodelled => Unmodelled
  | OutOfFuel => OutOfFuel
  end.
Proof.
  unfold add, bind at 1. destruct (canonicalize enode0 g) as [enode g1| | | |]; auto.
  unfold bind at 1, get. destruct (hashcons_get enode g1); [reflexivity|].
  reflexivity.
Qed.

(** What [add] returns and leaves, on a state that satisfies the invariant. *)
Lemma add_spec g enode0 :
  egraph_inv g -> ids_ok (gsize g) (children enode0) ->
  exists eid enode g',
    add enode0 g = Ret eid g' /\
    op enode = op enode0 /\
    Forall2 (root_of (unionFind g)) (children enode0) (children enode) /\
    uf_wf (unionFind g') /\
    gsize g <= gsize g' /\
    (forall z r, z < gsize g -> root_of (unionFind g) z r -> root_of (unionFind g') z r) /\
    (forall id, id < gsize g -> classes_get id g' = classes_get id g) /\
    (forall eclass ec, nth_error (store g) eclass = Some ec ->
       exists ec', nth_error (store g') eclass = Some ec' /\
         nodes ec' = nodes ec /\
         originalNode ec' = originalNode ec /\
         (parents ec' = parents ec \/
          parents ec' = map_set enode_eqb enode eid (parents ec)) /\
         ((forall c, In c (children enode) -> classes_get c g <> Some eclass) ->
          parents ec' = parents ec)) /\
    ((store g' = store g /\ classes g' = classes g /\ hashcons g' = hashcons g /\
      gsize g' = gsize g /\ hashcons_get enode g' = Some eid) \/
     (eid = gsize g /\ gsize g' = S (gsize g) /\
      List.length (store g') = S (List.length (store g)) /\
      nth_error (store g') (List.length (store g)) = Some (createSingletonEClass enode) /\
      classes g' = map_set Nat.eqb eid (List.length (store g)) (classes g) /\
      hashcons g' = map_set enode_eqb enode (Some eid) (hashcons g))).
Proof.
  intros Hinv Hok. rewrite add_unfold.
  destruct (canonicalize_spec g enode0 Hinv Hok) as (e & g1 & E & U & Hop & Hroots & Hcan).
  rewrite E.
  pose proof (inv_uf_only _ _ Hinv U) as Hinv1.
  pose proof (uo_size _ _ U) as Hsz.
  destruct (hashcons_get e g1) as [eid|] eqn:Hh.
  - exists eid, e, g1. split; [reflexivity|].
    split; [assumption|]. split; [assumption|].
    split; [apply (uo_wf _ _ U)|]. split; [lia|].
    split; [intros z r _; apply (uo_root_of _ _ U)|].
    split; [intros id _; unfold classes_get; now rewrite (uo_classes _ _ U)|].
    split.
    + intros r ec Hr. exists ec. rewrite (uo_store _ _ U).
      split; [exact Hr|]. split; [reflexivity|]. split; [reflexivity|].
      split; [now left | intros _; reflexivity].
    + left. split; [apply (uo_store _ _ U)|]. split; [apply (uo_classes _ _ U)|].
      split; [apply (uo_hashcons _ _ U)|]. split; [exact Hsz | exact Hh].
  - assert (Hpre : forall c, In c (children e) ->
               exists eclass, classes_get c g1 = Some eclass /\
                              eclass < List.length (store g1) /\ c < gsize g1).
    { intros c Hc. rewrite Forall_forall in Hroots. specialize (Hroots c Hc).
      destruct (inv_roots g1 Hinv1 c Hroots) as (r & Hr & Hl).
      exists r. repeat split; auto. now apply isroot_lt. }
    assert (Hget5 : forall c, c < gsize g1 ->
               classes_get c (add_fresh g1 e) = classes_get c g1).
    { intros c Hc. unfold classes_get, add_fresh. simpl.
      apply map_get_set_ne. lia. }
    destruct (add_loop_spec e (gsize g1) (children e) (add_fresh g1 e))
      as (g2 & E2 & Hu & Hc & Hhc & Hs & Hun).
    { intros c Hin. destruct (Hpre c Hin) as (r & Hr & Hl & Hlt).
      exists r. rewrite Hget5 by assumption. split; [assumption|].
      unfold add_fresh. simpl. rewrite length_app. simpl. lia. }
    rewrite E2. exists (gsize g1), e, g2. split; [reflexivity|].
    split; [assumption|]. split; [assumption|].
    assert (Hwf2 : uf_wf (unionFind g2)).
    { rewrite Hu. unfold add_fresh. simpl. apply extend_wf. apply (inv_uf g1 Hinv1). }
    split; [assumption|].
    assert (Hsz2 : gsize g2 = S (gsize g)).
    { unfold gsize at 1. rewrite Hu. unfold add_fresh. simpl.
      rewrite length_app. simpl. fold (gsize g1). lia. }
    split; [lia|]. split.
    { intros z r _ Hr. rewrite Hu. unfold add_fresh. simpl.
      apply extend_root_of. now apply (uo_root_of _ _ U). }
    split.
    { intros id Hid. unfold classes_get at 1. rewrite Hc.
      fold (classes_get id (add_fresh g1 e)). rewrite Hget5 by lia.
      unfold classes_get. now rewrite (uo_classes _ _ U). }
    destruct Hs as [Hlen Hs]. split.
    { intros r ec Hr.
      assert (Hr5 : nth_error (store (add_fresh g1 e)) r = Some ec).
      { unfold add_fresh. simpl. rewrite (uo_store _ _ U).
        rewrite nth_error_app1; [assumption|]. apply nth_error_Some. congruence. }
      destruct (Hs r ec Hr5) as (ec' & H1 & H2 & H3 & H4).
      exists ec'. rewrite Hsz in *. repeat split; auto.
      intros Hnot. rewrite Hun in H1.
      - congruence.
      - intros c Hin. destruct (Hpre c Hin) as (r0 & Hr0 & _ & Hlt).
        rewrite Hget5 by lia. unfold classes_get.
        rewrite (uo_classes _ _ U). apply (Hnot c Hin). }
    right. rewrite Hsz. split; [reflexivity|]. split; [assumption|].
    split.
    { rewrite Hlen. unfold add_fresh. simpl. rewrite length_app.
      rewrite (uo_store _ _ U). simpl. lia. }
    split.
    { rewrite Hun.
      - unfold add_fresh. simpl. rewrite <- (uo_store _ _ U).
        rewrite nth_error_app2, Nat.sub_diag by lia. reflexivity.
      - intros c Hin. destruct (Hpre c Hin) as (r0 & Hr0 & Hl & Hlt).
        rewrite Hget5 by lia. rewrite Hr0. rewrite <- (uo_store _ _ U).
        intros H. inversion H. lia. }
    split.
    { rewrite Hc. unfold add_fresh. simpl.
      now rewrite Hsz, (uo_classes _ _ U), (uo_store _ _ U). }
    rewrite Hhc. unfold add_fresh. simpl.
    now rewrite Hsz, (uo_hashcons _ _ U).
Qed.

(** The frame of [add]: what a call may change, seen from the state [g]
    before it. *)
Definition add_frame (g : EGraph) (enode0 : ENode) : Prop :=
  exists eid enode g',
    add enode0 g = Ret eid g' /\
    (forall x y, x < gsize g -> y < gsize g ->
       exists b u u',
         connected x y (unionFind g) = Ret b u /\
         connected x y (unionFind g') = Ret b u') /\
    (forall id, id < gsize g -> classes_get id g' = classes_get id g) /\
    (forall eclass ec, nth_error (store g) eclass = Some ec ->
       exists ec', nth_error (store g') eclass = Some ec' /\
         nodes ec' = nodes ec /\
         originalNode ec' = originalNode ec /\
         (parents ec' = parents ec \/
          parents ec' = map_set enode_eqb enode eid (parents ec)) /\
         ((forall c, In c (children enode) -> classes_get c g <> Some eclass) ->
          parents ec' = parents ec)) /\
    ((store g' = store g /\ classes g' = classes g /\ gsize g' = gsize g) \/
     (eid = gsize g /\ gsize g' = S (gsize g) /\
      List.length (store g') = S (List.length (store g)) /\
      nth_error (store g') (List.length (store g)) = Some (createSingletonEClass enode) /\
      classes g' = map_set Nat.eqb eid (List.length (store g)) (classes g))).

(** C10. [add] keeps the equivalence of the ids that exist ([connected]
    answers as before), keeps the node set and the original node of every
    class object, and changes the parents of a class only by setting the
    entry of the new node, and only in the classes of its children. Either
    nothing is allocated, or one fresh singleton class is, under the next
    id. *)
Theorem add_changes_only_parents (g : EGraph) (enode0 : ENode) :
  egraph_ok g = true ->
  ids_okb (gsize g) (children enode0) = true ->
  add_frame g enode0.
Proof.
  intros Hok Hids. apply egraph_ok_inv in Hok. apply ids_okb_spec in Hids.
  destruct (add_spec g enode0 Hok Hids)
    as (eid & e & g' & E & _ & _ & Hwf & Hsz & Hroot & Hcl & Hst & Hnew).
  exists eid, e, g'. split; [exact E|]. split.
  { intros x y Hx Hy.
    apply (connected_same (unionFind g) (unionFind g') (gsize g)); auto.
    apply (inv_uf g Hok). }
  split; [exact Hcl|]. split; [exact Hst|].
  destruct Hnew as [(A & B & _ & D & _) | (A & B & C & D & F & _)];
    [left | right]; auto.
Qed.

(** The e-graph of the term [(f a)]: classes 0 and 1. *)
Definition graph_fa : EGraph :=
  mkEGraph (mkUF [0; 1] [0; 0])
    [mkEClass [mkENode "a" []] (mkENode "a" []) [(mkENode "f" [0], 1)];
     mkEClass [mkENode "f" [0]] (mkENode "f" [0]) []]
    [(0, 0); (1, 1)]
    [(mkENode "a" [], Some 0); (mkENode "f" [0], Some 1)].

Lemma add_changes_only_parents_witness :
  add_frame graph_fa (mkENode "g" [1; 0]).
Proof.
  apply add_changes_only_parents; vm_compute; reflexivity.
Defined.

End AddFacts.

(* ------------------------------------------------------------------ *)
(** * Facts about egraph.ts: [merge] and [repair] *)

Section MergeFacts.

Import UF EG.
Local Open Scope monad_scope.

(** [delete] moves entries, so what it keeps is stated up to the order: the
    entries of the map are those that are left, and the one removed. *)
Lemma move_last_perm {A B} (l : list (A * B)) : Permutation (move_last l) l.
Proof.
  destruct l as [|e l]; [constructor|]. unfold move_last.
  rewrite (app_removelast_last e (l := e :: l)) at 3 by discriminate.
  apply Permutation_cons_append.
Qed.

Lemma map_delete_perm {V} (c : nat) (m : list (nat * V)) :
  match map_get Nat.eqb c m with
  | Some v => Permutation ((c, v) :: map_delete Nat.eqb c m) m
  | None => map_delete Nat.eqb c m = m
  end.
Proof.
  induction m as [|[k w] m IH]; simpl; [reflexivity|].
  destruct (Nat.eqb_spec c k) as [->|Hc].
  - apply perm_skip, move_last_perm.
  - destruct (map_get Nat.eqb c m) as [v|].
    + eapply perm_trans; [apply perm_swap|]. now apply perm_skip.
    + now rewrite IH.
Qed.

Lemma map_get_In_nat {V} (z : nat) (v : V) m :
  map_get Nat.eqb z m = Some v -> In (z, v) m.
Proof.
  induction m as [|[k w] m IH]; simpl; [discriminate|].
  destruct (Nat.eqb_spec z k) as [->|Hz].
  - intros H. inversion H. now left.
  - intros H. right. now apply IH.
Qed.

Lemma map_get_In_nodup {V} (z : nat) (v : V) m :
  NoDup (map fst m) -> In (z, v) m -> map_get Nat.eqb z m = Some v.
Proof.
  induction m as [|[k w] m IH]; simpl; [tauto|].
  intros Hnd Hin. inversion Hnd as [|? ? Hk Hnd']; subst.
  destruct Hin as [Heq|Hin].
  - inversion Heq; subst. now rewrite Nat.eqb_refl.
  - destruct (Nat.eqb_spec z k) as [->|Hz]; [|now apply IH].
    exfalso. apply Hk. apply (in_map fst) in Hin. exact Hin.
Qed.

(** The keys of a map are distinct, so a lookup does not depend on the
    order of the entries. *)
Lemma map_get_perm {V} (z : nat) (m m' : list (nat * V)) :
  NoDup (map fst m) -> Permutation m m' ->
  map_get Nat.eqb z m = map_get Nat.eqb z m'.
Proof.
  intros Hnd Hp.
  assert (Hnd' : NoDup (map fst m')).
  { eapply Permutation_NoDup; [|exact Hnd]. now apply Permutation_map. }
  destruct (map_get Nat.eqb z m) as [v|] eqn:E.
  - symmetry. apply map_get_In_nodup; [exact Hnd'|].
    eapply Permutation_in; [exact Hp|]. now apply map_get_In_nat.
  - destruct (map_get Nat.eqb z m') as [v'|] eqn:E'; [|reflexivity].
    apply map_get_In_nat in E'.
    apply (Permutation_in _ (Permutation_sym Hp)) in E'.
    rewrite (map_get_In_nodup _ _ _ Hnd E') in E. discriminate.
Qed.

Lemma map_get_delete_ne {V} (z c : nat) (m : list (nat * V)) :
  NoDup (map fst m) ->
  z <> c -> map_get Nat.eqb z (map_delete Nat.eqb c m) = map_get Nat.eqb z m.
Proof.
  intros Hnd Hne. pose proof (map_delete_perm c m) as H.
  destruct (map_get Nat.eqb c m) as [v|]; [|now rewrite H].
  rewrite (map_get_perm z m _ Hnd (Permutation_sym H)). simpl.
  destruct (Nat.eqb_spec z c); [contradiction | reflexivity].
Qed.

Lemma NoDup_map_delete {V} (c : nat) (m : list (nat * V)) :
  NoDup (map fst m) -> NoDup (map fst (map_delete Nat.eqb c m)).
Proof.
  intros Hnd. pose proof (map_delete_perm c m) as H.
  destruct (map_get Nat.eqb c m) as [v|]; [|now rewrite H].
  apply (Permutation_map fst) in H. simpl in H.
  apply Permutation_sym in H.
  pose proof (Permutation_NoDup H Hnd) as Hnd'. now inversion Hnd'.
Qed.

Lemma length_map_delete {V} (c : nat) (v : V) (m : list (nat * V)) :
  map_get Nat.eqb c m = Some v ->
  S (List.length (map_delete Nat.eqb c m)) = List.length m.
Proof.
  intros E. pose proof (map_delete_perm c m) as H. rewrite E in H.
  apply Permutation_length in H. exact H.
Qed.

Lemma map_get_In {K V} (keq : K -> K -> bool) k (v : V) m :
  map_get keq k m = Some v -> exists k', In (k', v) m.
Proof.
  induction m as [|[k' w] m IH]; simpl; [discriminate|].
  destruct (keq k k').
  - intros H. inversion H; subst. exists k'. now left.
  - intros H. destruct (IH H) as [k0 H0]. exists k0. now right.
Qed.

Section ForallMaps.
Context {K V : Type} (keq : K -> K -> bool).
Variables (Pk : K -> Prop) (Pv : V -> Prop).

Let ok (m : list (K * V)) : Prop := Forall (fun e => Pk (fst e) /\ Pv (snd e)) m.

Lemma Forall_map_set k v m : ok m -> Pk k -> Pv v -> ok (map_set keq k v m).
Proof.
  intros Hm Hk Hv. induction Hm as [|[k' v'] m [H1 H2] Hm IH]; simpl.
  - constructor; [split; assumption | constructor].
  - destruct (keq k k'); constructor; auto.
Qed.

Lemma Forall_map_delete k m : ok m -> ok (map_delete keq k m).
Proof.
  intros Hm. induction Hm as [|[k' v'] m H Hm IH]; simpl; [constructor|].
  destruct (keq k k'); [|constructor; assumption].
  eapply Permutation_Forall; [apply Permutation_sym, move_last_perm | exact Hm].
Qed.

Lemma Forall_map_concat m1 m2 : ok m1 -> ok m2 -> ok (map_concat keq m1 m2).
Proof.
  intros H1 H2. unfold map_concat. revert m1 H1.
  induction H2 as [|[k v] m2 [Hk Hv] _ IH]; intros m1 H1; simpl; [assumption|].
  apply IH. now apply Forall_map_set.
Qed.
End ForallMaps.

Lemma Forall_upd {A} (P : A -> Prop) (l : list A) i v :
  Forall P l -> P v -> Forall P (upd l i v).
Proof.
  intros Hl Hv. revert i. induction Hl as [|x l Hx Hl IH]; intros [|i]; simpl;
    constructor; auto.
Qed.

Lemma entries_ok_set n e v m :
  entries_ok n m -> ids_ok n (children e) -> v < n ->
  entries_ok n (map_set enode_eqb e v m).
Proof.
  intros. apply (Forall_map_set enode_eqb (fun k => ids_ok n (children k))
                   (fun v => v < n)); assumption.
Qed.

Lemma entries_ok_concat n m1 m2 :
  entries_ok n m1 -> entries_ok n m2 -> entries_ok n (map_concat enode_eqb m1 m2).
Proof.
  intros. apply (Forall_map_concat enode_eqb (fun k => ids_ok n (children k))
                   (fun v => v < n)); assumption.
Qed.

Lemma entries_ok_get n e v m :
  entries_ok n m -> map_get enode_eqb e m = Some v -> v < n.
Proof.
  intros Hm Hg. destruct (map_get_In _ _ _ _ Hg) as [k Hk].
  unfold entries_ok in Hm. rewrite Forall_forall in Hm.
  now destruct (Hm _ Hk).
Qed.

Definition opt_ok (n : nat) (v : option EClassId) : Prop :=
  match v with
  | Some x => x < n
  | None => True
  end.

Lemma hashcons_ok_update n e e' v h :
  hashcons_ok n h -> opt_ok n v ->
  hashcons_ok n (map_set enode_eqb e' v (map_delete enode_eqb e h)).
Proof.
  intros Hh Hv. unfold hashcons_ok in *.
  assert (H : Forall (fun x : ENode * option EClassId => True /\ opt_ok n (snd x))
                (map_set enode_eqb e' v (map_delete enode_eqb e h))).
  { apply (Forall_map_set enode_eqb (fun _ => True) (opt_ok n)); auto.
    apply (Forall_map_delete enode_eqb (fun _ => True) (opt_ok n)).
    eapply Forall_impl; [|exact Hh]. intros a Ha. split; [exact I | exact Ha]. }
  eapply Forall_impl; [|exact H]. intros a [_ Ha]. exact Ha.
Qed.

Lemma hashcons_get_ok g e :
  egraph_inv g -> opt_ok (gsize g) (hashcons_get e g).
Proof.
  intros Hinv. unfold hashcons_get.
  destruct (map_get enode_eqb e (hashcons g)) as [v|] eqn:E; [|exact I].
  destruct (map_get_In _ _ _ _ E) as [k Hk].
  pose proof (inv_hashcons g Hinv) as Hh. unfold hashcons_ok in Hh.
  rewrite Forall_forall in Hh. apply (Hh _ Hk).
Qed.

(** Updates of the state that keep the invariant. *)
Lemma inv_set_hashcons g h :
  egraph_inv g -> hashcons_ok (gsize g) h -> egraph_inv (set_hashcons g h).
Proof. intros [I1 I2 I3 I4] Hh. constructor; auto. Qed.

Lemma inv_set_store g eclass ec :
  egraph_inv g -> eclass_ok (gsize g) ec ->
  egraph_inv (set_store g (upd (store g) eclass ec)).
Proof.
  intros [I1 I2 I3 I4] Hec. constructor; auto.
  - intros r Hr. destruct (I2 r Hr) as (x & H1 & H2). exists x.
    split; [exact H1|]. simpl. now rewrite length_upd.
  - simpl. now apply Forall_upd.
Qed.

(** The keys of [classes] are distinct, as the keys of a map are. *)
Definition keys_distinct (g : EGraph) : Prop := NoDup (map fst (classes g)).

Fixpoint distinctb (l : list nat) : bool :=
  match l with
  | [] => true
  | x :: xs => negb (existsb (Nat.eqb x) xs) && distinctb xs
  end.

Definition keys_distinctb (g : EGraph) : bool :=
  distinctb (map fst (classes g)).

Lemma distinctb_spec l : distinctb l = true -> NoDup l.
Proof.
  induction l as [|x l IH]; simpl; [constructor|].
  intros H. apply andb_true_iff in H as [H1 H2].
  constructor; [|now apply IH].
  intros Hin. apply negb_true_iff in H1.
  assert (existsb (Nat.eqb x) l = true)
    by (apply existsb_exists; exists x; split; [exact Hin | apply Nat.eqb_refl]).
  congruence.
Qed.

Lemma keys_distinctb_spec g : keys_distinctb g = true -> keys_distinct g.
Proof. apply distinctb_spec. Qed.

Lemma uf_only_keys g g' : uf_only g g' -> keys_distinct g -> keys_distinct g'.
Proof. intros U. unfold keys_distinct. now rewrite (uo_classes _ _ U). Qed.

Lemma inv_delete_class g c :
  egraph_inv g -> keys_distinct g -> ~ isroot g c ->
  egraph_inv (set_classes g (map_delete Nat.eqb c (classes g))).
Proof.
  intros [I1 I2 I3 I4] Hk Hc. constructor; auto.
  intros r Hr. destruct (I2 r Hr) as (x & H1 & H2). exists x.
  split; [|exact H2]. unfold classes_get in *. simpl.
  rewrite map_get_delete_ne; [exact H1 | exact Hk |]. intros ->. contradiction.
Qed.

Lemma inv_set_unionFind g uf :
  egraph_inv g -> uf_wf uf ->
  List.length (parent uf) = gsize g ->
  (forall z, nth_error (parent uf) z = Some z -> isroot g z) ->
  egraph_inv (set_unionFind g uf).
Proof.
  intros [I1 I2 I3 I4] Hwf Hlen Hroots. constructor; auto.
  - intros r Hr. apply Hroots in Hr. exact (I2 r Hr).
  - unfold gsize. simpl. rewrite Hlen. exact I3.
  - unfold gsize. simpl. rewrite Hlen. exact I4.
Qed.

Lemma inv_store_nth g eclass ec :
  egraph_inv g -> nth_error (store g) eclass = Some ec -> eclass_ok (gsize g) ec.
Proof.
  intros Hinv H. pose proof (inv_store g Hinv) as Hs.
  rewrite Forall_forall in Hs. apply Hs. eapply nth_error_In; eauto.
Qed.

(** What a call of [merge] guarantees. *)
Definition merge_post (g : EGraph) (res : bool) (g' : EGraph) : Prop :=
  egraph_inv g' /\
  gsize g' = gsize g /\
  List.length (store g') = List.length (store g) /\
  classCount g' <= classCount g /\
  (res = true -> classCount g' < classCount g) /\
  keys_distinct g'.

(** A [merge] that returns on every state with fewer than [F] classes. *)
Definition merge_ok (F : nat) (mf : EClassId -> EClassId -> M EGraph bool) : Prop :=
  forall g a b,
    egraph_inv g -> keys_distinct g ->
    a < gsize g -> b < gsize g -> classCount g < F ->
    exists res g', mf a b g = Ret res g' /\ merge_post g res g'.

Lemma uf_only_classCount g g' : uf_only g g' -> classCount g' = classCount g.
Proof. intros U. unfold classCount. now rewrite (uo_classes _ _ U). Qed.

Lemma roots_ids_ok g l : Forall (isroot g) l -> ids_ok (gsize g) l.
Proof.
  unfold ids_ok. apply Forall_impl. intros a. apply isroot_lt.
Qed.

Section Repair.
Variable F : nat.
Variable mf : EClassId -> EClassId -> M EGraph bool.
Hypothesis Hmf : merge_ok F mf.

Lemma repair_loop_spec entries :
  forall dedup g,
  egraph_inv g -> keys_distinct g ->
  entries_ok (gsize g) entries -> entries_ok (gsize g) dedup ->
  classCount g < F ->
  exists dedup' g',
    repair_loop mf entries dedup g = Ret dedup' g' /\
    egraph_inv g' /\ gsize g' = gsize g /\
    List.length (store g') = List.length (store g) /\
    classCount g' <= classCount g /\
    entries_ok (gsize g) dedup' /\
    keys_distinct g'.
Proof.
  induction entries as [|[pn pid] rest IH]; intros dedup g Hinv Hkeys Hent Hded Hc.
  - exists dedup, g. split; [reflexivity|]. split; [assumption|].
    split; [reflexivity|]. split; [reflexivity|]. split; [lia|].
    split; assumption.
  - inversion Hent as [|? ? [Hpn Hpid] Hrest]; subst. simpl in Hpn, Hpid.
    cbn [repair_loop]. fold (repair_loop mf).
    destruct (canonicalize_spec g pn Hinv Hpn) as (e & g1 & E1 & U1 & _ & Hroots & _).
    unfold bind at 1. rewrite E1.
    pose proof (inv_uf_only _ _ Hinv U1) as Hinv1.
    pose proof (uo_size _ _ U1) as Hs1.
    destruct (liftUF_find_spec g1 pid Hinv1 ltac:(lia)) as (r & g2 & E2 & U2 & _ & Hr & _).
    unfold bind at 1. rewrite E2.
    pose proof (inv_uf_only _ _ Hinv1 U2) as Hinv2.
    pose proof (uo_size _ _ U2) as Hs2.
    unfold bind at 1, modify.
    set (g3 := set_hashcons g2 _).
    assert (Hinv3 : egraph_inv g3).
    { apply inv_set_hashcons; [assumption|].
      apply hashcons_ok_update; [apply (inv_hashcons g2 Hinv2)|].
      change (r < gsize g2). lia. }
    assert (Hs3 : gsize g3 = gsize g) by (change (gsize g2 = gsize g); lia).
    assert (Hl3 : List.length (store g3) = List.length (store g)).
    { change (List.length (store g2) = List.length (store g)).
      now rewrite (uo_store _ _ U2), (uo_store _ _ U1). }
    assert (Hc3 : classCount g3 = classCount g).
    { change (classCount g2 = classCount g).
      rewrite (uf_only_classCount _ _ U2). apply (uf_only_classCount _ _ U1). }
    assert (He : ids_ok (gsize g) (children e)).
    { rewrite <- Hs1. now apply roots_ids_ok. }
    assert (Hded' : entries_ok (gsize g) (map_set enode_eqb e r dedup)).
    { apply entries_ok_set; auto. lia. }
    assert (Hent3 : entries_ok (gsize g3) rest) by (rewrite Hs3; assumption).
    assert (Hded3 : entries_ok (gsize g3) (map_set enode_eqb e r dedup))
      by (rewrite Hs3; assumption).
    assert (Hlt3 : classCount g3 < F) by lia.
    assert (K3 : keys_distinct g3).
    { change (keys_distinct g2).
      eapply uf_only_keys; [exact U2|]. eapply uf_only_keys; eauto. }
    unfold bind at 1.
    destruct (map_get enode_eqb e dedup) as [[|k]|] eqn:Eg.
    + cbn [bind ret].
      destruct (IH _ g3 Hinv3 K3 Hent3 Hded3 Hlt3)
        as (d' & g' & E' & I' & S' & L' & C' & D' & K').
      exists d', g'. split; [exact E'|]. rewrite Hs3 in *.
      split; [assumption|]. split; [assumption|]. split; [lia|].
      split; [lia|]. split; assumption.
    + pose proof (entries_ok_get _ _ _ _ Hded Eg) as Hk.
      assert (Hp3 : pid < gsize g3) by lia.
      assert (Hk3 : S k < gsize g3) by lia.
      destruct (Hmf g3 pid (S k) Hinv3 K3 Hp3 Hk3 Hlt3)
        as (res & g4 & E4 & I4 & S4 & L4 & C4 & _ & K4).
      unfold bind at 1. rewrite E4. cbn [ret].
      assert (Hent4 : entries_ok (gsize g4) rest) by (rewrite S4; assumption).
      assert (Hded4 : entries_ok (gsize g4) (map_set enode_eqb e r dedup))
        by (rewrite S4; assumption).
      assert (Hlt4 : classCount g4 < F) by lia.
      destruct (IH _ g4 I4 K4 Hent4 Hded4 Hlt4)
        as (d' & g' & E' & I' & S' & L' & C' & D' & K').
      exists d', g'. split; [exact E'|]. rewrite S4, Hs3 in *.
      split; [assumption|]. split; [assumption|]. split; [lia|].
      split; [lia|]. split; assumption.
    + cbn [bind ret].
      destruct (IH _ g3 Hinv3 K3 Hent3 Hded3 Hlt3)
        as (d' & g' & E' & I' & S' & L' & C' & D' & K').
      exists d', g'. split; [exact E'|]. rewrite Hs3 in *.
      split; [assumption|]. split; [assumption|]. split; [lia|].
      split; [lia|]. split; assumption.
Qed.
End Repair.

Lemma repair_with_spec F mf g eclass ec :
  merge_ok F mf ->
  egraph_inv g -> keys_distinct g ->
  nth_error (store g) eclass = Some ec -> classCount g < F ->
  exists g',
    repair_with mf eclass g = Ret tt g' /\
    egraph_inv g' /\ gsize g' = gsize g /\
    List.length (store g') = List.length (store g) /\
    classCount g' <= classCount g /\
    keys_distinct g'.
Proof.
  intros Hmf Hinv Hkeys Hec Hc. unfold repair_with.
  unfold bind at 1, deref. rewrite Hec.
  destruct (inv_store_nth g eclass ec Hinv Hec) as [_ Hpar].
  destruct (repair_loop_spec F mf Hmf (parents ec) [] g Hinv Hkeys Hpar
              ltac:(constructor) Hc)
    as (d & g1 & E1 & I1 & S1 & L1 & C1 & D1 & K1).
  unfold bind at 1. rewrite E1.
  assert (Hlt : eclass < List.length (store g1)).
  { rewrite L1. apply nth_error_Some. congruence. }
  destruct (nth_error (store g1) eclass) as [ec1|] eqn:Hec1;
    [|apply nth_error_None in Hec1; lia].
  unfold set_parents, bind, deref, modify. rewrite Hec1.
  eexists. split; [reflexivity|].
  destruct (inv_store_nth g1 eclass ec1 I1 Hec1) as [Ho _].
  split.
  { apply inv_set_store; [assumption|]. split; [exact Ho|]. simpl.
    now rewrite S1. }
  split; [exact S1|]. split; [simpl; rewrite length_upd; exact L1|].
  split; [exact C1 | exact K1].
Qed.

(** The part of [merge] that follows a [union] which joined two classes. *)
Definition merge_roots (f : nat) (newRootId oldRootId : EClassId) : M EGraph bool :=
  g <- get ;;
  let newRoot := classes_get newRootId g in
  let oldRoot := classes_get oldRootId g in
  modify (fun g => set_classes g (map_delete Nat.eqb oldRootId (classes g))) ;;;
  match oldRoot with
  | None => throw
  | Some oldRoot =>
      old <- deref oldRoot ;;
      g1 <- get ;;
      let eid := hashcons_get (originalNode old) g1 in
      canon <- canonicalize (originalNode old) ;;
      feid <- find_undef eid ;;
      modify (fun g => set_hashcons g
                (map_set enode_eqb canon feid
                   (map_delete enode_eqb (originalNode old) (hashcons g1)))) ;;;
      match newRoot with
      | None => throw
      | Some newRoot =>
          new <- deref newRoot ;;
          old' <- deref oldRoot ;;
          set_nodes newRoot (set_union enode_eqb (nodes new) (nodes old')) ;;;
          new' <- deref newRoot ;;
          old'' <- deref oldRoot ;;
          set_parents newRoot
            (map_concat enode_eqb (parents new') (parents old'')) ;;;
          repair_with (merge_fuel f) newRoot ;;;
          ret true
      end
  end.

Lemma merge_fuel_S f a b :
  merge_fuel (S f) a b =
  (unionResult <- liftUF (union a b) ;;
   match unionResult with
   | None => ret false
   | Some (newRootId, oldRootId) => merge_roots f newRootId oldRootId
   end).
Proof. reflexivity. Qed.

Lemma find_undef_spec g v :
  egraph_inv g -> opt_ok (gsize g) v ->
  exists r g', find_undef v g = Ret r g' /\ uf_only g g' /\ opt_ok (gsize g) r.
Proof.
  intros Hinv Hv. destruct v as [x|]; simpl in *.
  - destruct (liftUF_find_spec g x Hinv Hv) as (r & g' & E & U & _ & Hr & _).
    unfold bind. rewrite E. exists (Some r), g'. split; [reflexivity|].
    split; [exact U | exact Hr].
  - exists None, g. split; [reflexivity|]. split; [|exact I].
    apply uf_only_refl, (inv_uf g Hinv).
Qed.

Lemma deref_eq g eclass ec :
  nth_error (store g) eclass = Some ec -> deref eclass g = Ret ec g.
Proof. intros H. unfold deref. now rewrite H. Qed.

Lemma set_nodes_eq g eclass ec ns :
  nth_error (store g) eclass = Some ec ->
  set_nodes eclass ns g
  = Ret tt (set_store g (upd (store g) eclass
                           (mkEClass ns (originalNode ec) (parents ec)))).
Proof. intros H. unfold set_nodes, bind, deref, modify. now rewrite H. Qed.

Lemma set_parents_eq g eclass ec ps :
  nth_error (store g) eclass = Some ec ->
  set_parents eclass ps g
  = Ret tt (set_store g (upd (store g) eclass
                           (mkEClass (nodes ec) (originalNode ec) ps))).
Proof. intros H. unfold set_parents, bind, deref, modify. now rewrite H. Qed.

Lemma merge_roots_spec f g n o nref oref :
  merge_ok f (merge_fuel f) ->
  egraph_inv g -> keys_distinct g -> ~ isroot g o ->
  classes_get n g = Some nref -> classes_get o g = Some oref ->
  nref < List.length (store g) -> oref < List.length (store g) ->
  classCount g <= f ->
  exists g',
    merge_roots f n o g = Ret true g' /\
    egraph_inv g' /\ gsize g' = gsize g /\
    List.length (store g') = List.length (store g) /\
    classCount g' < classCount g /\
    keys_distinct g'.
Proof.
  intros Hmf Hinv Hkeys Hno Hn Ho Hnl Hol Hc.
  unfold merge_roots. unfold bind at 1, get. cbv zeta. rewrite Hn, Ho.
  unfold bind at 1, modify.
  set (g2 := set_classes g (map_delete Nat.eqb o (classes g))).
  assert (I2 : egraph_inv g2) by now apply inv_delete_class.
  assert (K2 : keys_distinct g2) by (apply NoDup_map_delete; exact Hkeys).
  assert (C2 : S (classCount g2) = classCount g).
  { unfold g2, classCount. simpl. eapply length_map_delete. exact Ho. }
  destruct (nth_error (store g) oref) as [old|] eqn:Hold;
    [|apply nth_error_None in Hold; lia].
  destruct (nth_error (store g) nref) as [new|] eqn:Hnew;
    [|apply nth_error_None in Hnew; lia].
  assert (Hold2 : nth_error (store g2) oref = Some old) by exact Hold.
  unfold bind at 1. rewrite (deref_eq _ _ _ Hold2).
  unfold bind at 1, get. cbv zeta.
  destruct (inv_store_nth g2 oref old I2 Hold2) as [Horig _].
  destruct (canonicalize_spec g2 (originalNode old) I2 Horig)
    as (canon & g3 & E3 & U3 & _ & _ & _).
  unfold bind at 1. rewrite E3.
  pose proof (inv_uf_only _ _ I2 U3) as I3.
  pose proof (hashcons_get_ok g2 (originalNode old) I2) as Heid.
  rewrite <- (uo_size _ _ U3) in Heid.
  destruct (find_undef_spec g3 _ I3 Heid) as (feid & g4 & E4 & U4 & Hfeid).
  unfold bind at 1. rewrite E4.
  pose proof (inv_uf_only _ _ I3 U4) as I4.
  unfold bind at 1, modify.
  set (g5 := set_hashcons g4 _).
  assert (S5 : gsize g5 = gsize g).
  { change (gsize g4 = gsize g2). rewrite (uo_size _ _ U4). apply (uo_size _ _ U3). }
  assert (I5 : egraph_inv g5).
  { apply inv_set_hashcons; [assumption|].
    rewrite (uo_size _ _ U4). apply hashcons_ok_update; [|assumption].
    rewrite (uo_size _ _ U3). apply (inv_hashcons g2 I2). }
  assert (St5 : store g5 = store g).
  { change (store g4 = store g2). rewrite (uo_store _ _ U4). apply (uo_store _ _ U3). }
  assert (C5 : classCount g5 = classCount g2).
  { change (classCount g4 = classCount g2).
    rewrite (uf_only_classCount _ _ U4). apply (uf_only_classCount _ _ U3). }
  assert (Hnew5 : nth_error (store g5) nref = Some new) by congruence.
  assert (Hold5 : nth_error (store g5) oref = Some old) by congruence.
  unfold bind at 1. rewrite (deref_eq _ _ _ Hnew5).
  unfold bind at 1. rewrite (deref_eq _ _ _ Hold5).
  unfold bind at 1. rewrite (set_nodes_eq _ _ _ _ Hnew5).
  set (g6 := set_store g5 _).
  destruct (inv_store_nth g5 nref new I5 Hnew5) as [Hno1 Hnp1].
  assert (I6 : egraph_inv g6).
  { unfold g6. apply inv_set_store; [assumption|]. split; assumption. }
  assert (L6 : List.length (store g6) = List.length (store g)).
  { unfold g6, set_store. cbn [store]. rewrite length_upd. now rewrite St5. }
  assert (S6 : gsize g6 = gsize g) by exact S5.
  destruct (nth_error (store g6) nref) as [new'|] eqn:Hnew';
    [|apply nth_error_None in Hnew'; lia].
  destruct (nth_error (store g6) oref) as [old''|] eqn:Hold'';
    [|apply nth_error_None in Hold''; lia].
  unfold bind at 1. rewrite (deref_eq _ _ _ Hnew').
  unfold bind at 1. rewrite (deref_eq _ _ _ Hold'').
  unfold bind at 1. rewrite (set_parents_eq _ _ _ _ Hnew').
  set (g7 := set_store g6 _).
  destruct (inv_store_nth g6 nref new' I6 Hnew') as [Hno2 Hnp2].
  destruct (inv_store_nth g6 oref old'' I6 Hold'') as [_ Hop2].
  assert (I7 : egraph_inv g7).
  { unfold g7. apply inv_set_store; [assumption|]. split; [exact Hno2|].
    simpl. now apply entries_ok_concat. }
  assert (L7 : List.length (store g7) = List.length (store g)).
  { unfold g7, set_store. cbn [store]. rewrite length_upd. exact L6. }
  assert (C7 : classCount g7 = classCount g2) by exact C5.
  assert (K7 : keys_distinct g7).
  { change (keys_distinct g4).
    eapply uf_only_keys; [exact U4|]. eapply uf_only_keys; eauto. }
  destruct (nth_error (store g7) nref) as [new7|] eqn:Hnew7;
    [|apply nth_error_None in Hnew7; lia].
  destruct (repair_with_spec f (merge_fuel f) g7 nref new7 Hmf I7 K7 Hnew7 ltac:(lia))
    as (g8 & E8 & I8 & S8 & L8 & C8 & K8).
  unfold bind at 1. rewrite E8. cbn [ret].
  exists g8. split; [reflexivity|]. split; [assumption|].
  split; [rewrite S8; exact S6|]. split; [lia|]. split; [lia | exact K8].
Qed.

Lemma liftUF_union_spec g a b :
  egraph_inv g -> a < gsize g -> b < gsize g ->
  exists res uf',
    liftUF (union a b) g = Ret res (set_unionFind g uf') /\
    union_post (unionFind g) res uf'.
Proof.
  intros Hinv Ha Hb. unfold liftUF.
  destruct (union_spec (unionFind g) a b (inv_uf g Hinv) Ha Hb) as (res & uf' & E & P).
  rewrite E. exists res, uf'. split; [reflexivity | exact P].
Qed.

(** [merge] returns on every state that satisfies the invariant, whatever
    the fuel above the number of classes. *)
Lemma merge_fuel_spec f : merge_ok f (merge_fuel f).
Proof.
  induction f as [|f IH]; intros g a b Hinv Hkeys Ha Hb Hc; [lia|].
  rewrite merge_fuel_S.
  destruct (liftUF_union_spec g a b Hinv Ha Hb) as (res & uf' & E & Hwf & Hlen & P).
  unfold bind at 1. rewrite E.
  destruct res as [[r c]|].
  - destruct P as (Hne & Rr & Rc & Rr' & Rc' & Hothers).
    set (g1 := set_unionFind g uf').
    assert (I1 : egraph_inv g1).
    { apply inv_set_unionFind; auto. intros z Hz.
      destruct (Nat.eq_dec z c) as [->|Hzc]; [congruence|]. now apply Hothers. }
    destruct (inv_roots g Hinv r Rr) as (nref & Hn & Hnl).
    destruct (inv_roots g Hinv c Rc) as (oref & Ho & Hol).
    assert (Hnc : ~ isroot g1 c).
    { unfold isroot, g1. simpl. rewrite Rc'. intros H. inversion H. congruence. }
    destruct (merge_roots_spec f g1 r c nref oref IH I1 Hkeys Hnc Hn Ho Hnl Hol
                ltac:(change (classCount g <= f); lia))
      as (g' & E' & I' & S' & L' & C' & K').
    exists true, g'. split; [exact E'|].
    split; [assumption|]. split; [rewrite S'; exact Hlen|].
    split; [exact L'|]. change (classCount g1) with (classCount g) in C'.
    split; [lia|]. split; [intros _; lia | exact K'].
  - exists false, (set_unionFind g uf'). split; [reflexivity|].
    split; [apply inv_set_unionFind; auto; intros z Hz; now apply P|].
    split; [exact Hlen|]. split; [reflexivity|].
    split; [apply Nat.le_refl|]. split; [discriminate | exact Hkeys].
Qed.

(** [merge] with the fuel that the model gives it. *)
Lemma merge_spec g a b :
  egraph_inv g -> keys_distinct g -> a < gsize g -> b < gsize g ->
  exists res g', merge a b g = Ret res g' /\ merge_post g res g'.
Proof.
  intros Hinv Hkeys Ha Hb.
  apply (merge_fuel_spec (S (classCount g)) g a b Hinv Hkeys Ha Hb).
  apply Nat.lt_succ_diag_r.
Qed.

End MergeFacts.

(* ------------------------------------------------------------------ *)
(** * Facts about the worklist variant: [merge], [rebuild] and [repair] *)

Section WorklistFacts.

Import UF EG WL.
Local Open Scope monad_scope.

Definition wsize (g : WGraph) : nat := List.length (parent (wunionFind g)).

Definition wisroot (g : WGraph) (r : EClassId) : Prop :=
  nth_error (parent (wunionFind g)) r = Some r.

Definition wclass_ok (n na : nat) (ec : WClass) : Prop :=
  ids_ok n (children (woriginalNode ec)) /\ wparents ec < na.

(** The invariant of the worklist e-graph: the union-find is well formed,
    every root has a class object, the keys of [classes] are distinct, every
    object points to an array, and every id stored in the objects, in the
    arrays and in [hashcons] is a key of the union-find. *)
Record wl_inv (g : WGraph) : Prop := mkWInv {
  wi_uf : uf_wf (wunionFind g);
  wi_roots : forall r, wisroot g r ->
      exists eclass, wclasses_get r g = Some eclass /\
                     eclass < List.length (wstore g);
  wi_keys : NoDup (map fst (wclasses g));
  wi_store : Forall (wclass_ok (wsize g) (List.length (arrays g))) (wstore g);
  wi_arrays : Forall (entries_ok (wsize g)) (arrays g);
  wi_hashcons : hashcons_ok (wsize g) (whashcons g)
}.

(** The same invariant as a test, with an empty worklist. *)
Definition wgraph_ok (g : WGraph) : bool :=
  let n := List.length (parent (wunionFind g)) in
  uf_okb (wunionFind g)
  && forallb (fun r =>
                match nth_error (parent (wunionFind g)) r with
                | Some p =>
                    negb (Nat.eqb p r) ||
                    match wclasses_get r g with
                    | Some eclass => Nat.ltb eclass (List.length (wstore g))
                    | None => false
                    end
                | None => true
                end) (seq 0 n)
  && distinctb (map fst (wclasses g))
  && forallb (fun ec => ids_okb n (children (woriginalNode ec))
                        && Nat.ltb (wparents ec) (List.length (arrays g)))
       (wstore g)
  && forallb (entries_okb n) (arrays g)
  && forallb (fun e => match snd e with
                       | Some v => Nat.ltb v n
                       | None => true
                       end) (whashcons g)
  && match worklist g with
     | [] => true
     | _ :: _ => false
     end.

Lemma entries_okb_spec n m : entries_okb n m = true -> entries_ok n m.
Proof.
  unfold entries_okb. rewrite forallb_forall. intros Hb.
  apply Forall_forall. intros e He. specialize (Hb e He).
  apply andb_true_iff in Hb as [Hc Hd].
  split; [now apply ids_okb_spec | now apply Nat.ltb_lt].
Qed.

Lemma wgraph_ok_inv g :
  wgraph_ok g = true -> wl_inv g /\ worklist g = [].
Proof.
  unfold wgraph_ok. intros H.
  apply andb_true_iff in H as [H H7]. apply andb_true_iff in H as [H H6].
  apply andb_true_iff in H as [H H5]. apply andb_true_iff in H as [H H4].
  apply andb_true_iff in H as [H H3]. apply andb_true_iff in H as [H1 H2].
  split; [|destruct (worklist g); [reflexivity | discriminate]].
  constructor.
  - now apply uf_okb_spec.
  - intros r Hr. unfold wisroot in Hr. rewrite forallb_forall in H2.
    assert (Hlt : r < List.length (parent (wunionFind g)))
      by (apply nth_error_Some; congruence).
    specialize (H2 r ltac:(apply in_seq; lia)). rewrite Hr in H2.
    rewrite Nat.eqb_refl in H2. simpl in H2.
    destruct (wclasses_get r g) as [ec|]; [|discriminate].
    exists ec. split; [reflexivity|]. now apply Nat.ltb_lt.
  - now apply distinctb_spec.
  - rewrite forallb_forall in H4. apply Forall_forall. intros ec Hec.
    specialize (H4 ec Hec). apply andb_true_iff in H4 as [Ha Hb].
    split; [now apply ids_okb_spec | now apply Nat.ltb_lt].
  - rewrite forallb_forall in H5. apply Forall_forall. intros a Ha.
    apply entries_okb_spec. now apply H5.
  - rewrite forallb_forall in H6. apply Forall_forall. intros e He.
    specialize (H6 e He). destruct (snd e); [now apply Nat.ltb_lt | exact I].
Qed.

(** A step that only compresses paths of the union-find. *)
Record wuf_only (g g' : WGraph) : Prop := mkWUfOnly {
  wo_arrays : arrays g' = arrays g;
  wo_store : wstore g' = wstore g;
  wo_classes : wclasses g' = wclasses g;
  wo_hashcons : whashcons g' = whashcons g;
  wo_worklist : worklist g' = worklist g;
  wo_size : wsize g' = wsize g;
  wo_wf : uf_wf (wunionFind g');
  wo_roots : forall z, wisroot g z <-> wisroot g' z
}.

Lemma wuf_only_refl g : uf_wf (wunionFind g) -> wuf_only g g.
Proof. intros H. constructor; auto; tauto. Qed.

Lemma wuf_only_trans g1 g2 g3 :
  wuf_only g1 g2 -> wuf_only g2 g3 -> wuf_only g1 g3.
Proof.
  intros [a b c d e f h i] [a' b' c' d' e' f' h' i'].
  constructor; try congruence; auto.
  intros z. rewrite i. apply i'.
Qed.

Lemma winv_uf_only g g' : wl_inv g -> wuf_only g g' -> wl_inv g'.
Proof.
  intros [I1 I2 I3 I4 I5 I6] [a b c d e f h i]. constructor.
  - assumption.
  - intros r Hr. apply i in Hr. destruct (I2 r Hr) as (ec & H1 & H2).
    exists ec. unfold wclasses_get in *. rewrite c, b. auto.
  - now rewrite c.
  - rewrite b, f, a. assumption.
  - rewrite a, f. assumption.
  - rewrite d, f. assumption.
Qed.

Lemma wisroot_lt g r : wisroot g r -> r < wsize g.
Proof. unfold wisroot, wsize. intros H. apply nth_error_Some. congruence. Qed.

Lemma wliftUF_find_spec g x :
  wl_inv g -> x < wsize g ->
  exists r g', wliftUF (find x) g = Ret r g' /\
    wuf_only g g' /\ wisroot g' r /\ r < wsize g.
Proof.
  intros Hinv Hx. unfold wliftUF.
  destruct (find_spec (wunionFind g) x (wi_uf g Hinv) Hx)
    as (r & uf' & E & Hr & Hwf & Hrk & Hlen & Hroots & Hpres).
  rewrite E. eexists r, _. split; [reflexivity|].
  pose proof (root_of_is_root _ _ _ Hr) as Rr.
  split; [|split].
  - constructor; simpl; auto.
  - unfold wisroot. simpl. now apply Hroots.
  - unfold wsize. apply nth_error_Some. congruence.
Qed.

Lemma wmapM_find_spec cs :
  forall g, wl_inv g -> ids_ok (wsize g) cs ->
  exists rs g',
    mapM (fun eid => wliftUF (find eid)) cs g = Ret rs g' /\
    wuf_only g g' /\
    ids_ok (wsize g) rs.
Proof.
  induction cs as [|c cs IH]; intros g Hinv Hok.
  - exists [], g. split; [reflexivity|].
    split; [apply wuf_only_refl, (wi_uf g Hinv) | constructor].
  - inversion Hok as [|? ? Hc Hcs]; subst.
    cbn [mapM]. fold (mapM (fun eid => wliftUF (find eid))). unfold bind.
    destruct (wliftUF_find_spec g c Hinv Hc) as (r & g1 & E & U1 & Rr & Hr).
    rewrite E.
    assert (Hinv1 : wl_inv g1) by (eapply winv_uf_only; eauto).
    assert (Hok1 : ids_ok (wsize g1) cs) by (rewrite (wo_size _ _ U1); assumption).
    destruct (IH g1 Hinv1 Hok1) as (rs & g2 & E2 & U2 & Rrs).
    rewrite E2. exists (r :: rs), g2. split; [reflexivity|].
    split; [eapply wuf_only_trans; eauto|].
    constructor; [exact Hr|]. now rewrite <- (wo_size _ _ U1).
Qed.

Lemma wcanonicalize_spec g e :
  wl_inv g -> ids_ok (wsize g) (children e) ->
  exists e' g',
    wcanonicalize e g = Ret e' g' /\
    wuf_only g g' /\
    ids_ok (wsize g) (children e').
Proof.
  intros Hinv Hok. unfold wcanonicalize, bind.
  destruct (wmapM_find_spec (children e) g Hinv Hok) as (rs & g' & E & U & R).
  rewrite E. exists (mkENode (op e) rs), g'.
  split; [reflexivity|]. split; [exact U | exact R].
Qed.

Lemma wfind_undef_spec g v :
  wl_inv g -> opt_ok (wsize g) v ->
  exists r g', wfind_undef v g = Ret r g' /\ wuf_only g g' /\ opt_ok (wsize g) r.
Proof.
  intros Hinv Hv. destruct v as [x|]; simpl in *.
  - destruct (wliftUF_find_spec g x Hinv Hv) as (r & g' & E & U & _ & Hr).
    unfold bind. rewrite E. exists (Some r), g'. split; [reflexivity|].
    split; [exact U | exact Hr].
  - exists None, g. split; [reflexivity|]. split; [|exact I].
    apply wuf_only_refl, (wi_uf g Hinv).
Qed.

Lemma wliftUF_union_spec g a b :
  wl_inv g -> a < wsize g -> b < wsize g ->
  exists res uf',
    wliftUF (union a b) g = Ret res (set_wunionFind g uf') /\
    union_post (wunionFind g) res uf'.
Proof.
  intros Hinv Ha Hb. unfold wliftUF.
  destruct (union_spec (wunionFind g) a b (wi_uf g Hinv) Ha Hb)
    as (res & uf' & E & P).
  rewrite E. exists res, uf'. split; [reflexivity | exact P].
Qed.

Lemma whashcons_get_ok g e :
  wl_inv g -> opt_ok (wsize g) (whashcons_get e g).
Proof.
  intros Hinv. unfold whashcons_get.
  destruct (map_get enode_eqb e (whashcons g)) as [v|] eqn:E; [|exact I].
  destruct (map_get_In _ _ _ _ E) as [k Hk].
  pose proof (wi_hashcons g Hinv) as Hh. unfold hashcons_ok in Hh.
  rewrite Forall_forall in Hh. apply (Hh _ Hk).
Qed.

(** What every step of [merge], [rebuild] and [repair] keeps, between two
    states with an empty worklist. *)
Record wpost (g g' : WGraph) : Prop := mkWPost {
  wp_inv : wl_inv g';
  wp_worklist : worklist g' = [];
  wp_size : wsize g' = wsize g;
  wp_store : List.length (wstore g') = List.length (wstore g);
  wp_arrays : List.length (arrays g) <= List.length (arrays g');
  wp_count : wclassCount g' <= wclassCount g
}.

Lemma wpost_refl g : wl_inv g -> worklist g = [] -> wpost g g.
Proof. intros. constructor; auto. Qed.

Lemma wpost_trans g1 g2 g3 : wpost g1 g2 -> wpost g2 g3 -> wpost g1 g3.
Proof.
  intros [a b c d e f] [a' b' c' d' e' f'].
  constructor; auto; try congruence; lia.
Qed.

Lemma wpost_uf_only g g' :
  wl_inv g -> worklist g = [] -> wuf_only g g' -> wpost g g'.
Proof.
  intros Hinv Hw U. constructor.
  - eapply winv_uf_only; eauto.
  - now rewrite (wo_worklist _ _ U).
  - apply (wo_size _ _ U).
  - now rewrite (wo_store _ _ U).
  - now rewrite (wo_arrays _ _ U).
  - unfold wclassCount. now rewrite (wo_classes _ _ U).
Qed.

Lemma winv_set_hashcons g h :
  wl_inv g -> hashcons_ok (wsize g) h -> wl_inv (set_whashcons g h).
Proof. intros [I1 I2 I3 I4 I5 I6] Hh. constructor; auto. Qed.

Lemma winv_set_worklist g w : wl_inv g -> wl_inv (set_worklist g w).
Proof. intros [I1 I2 I3 I4 I5 I6]. constructor; auto. Qed.

Lemma winv_store_nth g eclass ec :
  wl_inv g -> nth_error (wstore g) eclass = Some ec ->
  wclass_ok (wsize g) (List.length (arrays g)) ec.
Proof.
  intros Hinv H. pose proof (wi_store g Hinv) as Hs.
  rewrite Forall_forall in Hs. apply Hs. eapply nth_error_In; eauto.
Qed.

Lemma winv_array_nth g a l :
  wl_inv g -> nth_error (arrays g) a = Some l -> entries_ok (wsize g) l.
Proof.
  intros Hinv H. pose proof (wi_arrays g Hinv) as Hs.
  rewrite Forall_forall in Hs. apply Hs. eapply nth_error_In; eauto.
Qed.

Lemma wderef_eq g eclass ec :
  nth_error (wstore g) eclass = Some ec -> wderef eclass g = Ret ec g.
Proof. intros H. unfold wderef. now rewrite H. Qed.

Lemma read_array_eq g a l :
  nth_error (arrays g) a = Some l -> read_array a g = Ret l g.
Proof. intros H. unfold read_array. now rewrite H. Qed.

Lemma push_array_eq g a l items :
  nth_error (arrays g) a = Some l ->
  push_array a items g = Ret tt (set_arrays g (upd (arrays g) a (l ++ items))).
Proof. intros H. unfold push_array, bind, read_array, wmodify. now rewrite H. Qed.

(** One step of the first loop of [repair]. *)
Lemma wpost_hashcons g g2 h :
  wl_inv g -> worklist g = [] -> wuf_only g g2 ->
  hashcons_ok (wsize g) h -> wpost g (set_whashcons g2 h).
Proof.
  intros Hinv Hw U Hh.
  destruct (wpost_uf_only g g2 Hinv Hw U) as [a b c d e f].
  constructor; auto.
  apply winv_set_hashcons; [assumption|]. now rewrite c.
Qed.

Lemma repair_hashcons_spec entries :
  forall g, wl_inv g -> worklist g = [] -> entries_ok (wsize g) entries ->
  exists g', repair_hashcons entries g = Ret tt g' /\ wpost g g'.
Proof.
  induction entries as [|[pe pc] entries IH]; intros g Hinv Hw Hok.
  - exists g. split; [reflexivity | now apply wpost_refl].
  - inversion Hok as [|? ? [Hpe Hpc] Hrest]; subst. simpl in Hpe, Hpc.
    unfold repair_hashcons. cbn [forM]. fold repair_hashcons.
    change (forM _ entries) with (repair_hashcons entries).
    cbn [fst snd].
    destruct (wcanonicalize_spec g pe Hinv Hpe) as (pe' & g1 & E1 & U1 & Hpe').
    pose proof (winv_uf_only _ _ Hinv U1) as I1.
    assert (Hpc1 : pc < wsize g1) by (rewrite (wo_size _ _ U1); exact Hpc).
    destruct (wliftUF_find_spec g1 pc I1 Hpc1) as (r & g2 & E2 & U2 & _ & Hr).
    pose proof (wuf_only_trans _ _ _ U1 U2) as U.
    assert (Hr0 : opt_ok (wsize g) (Some r))
      by (simpl; rewrite <- (wo_size _ _ U1); exact Hr).
    unfold bind at 1. unfold bind at 1. rewrite E1.
    unfold bind at 1. rewrite E2. unfold wmodify at 1.
    set (g3 := set_whashcons g2 _).
    assert (P3 : wpost g g3).
    { apply wpost_hashcons; auto.
      apply hashcons_ok_update.
      - rewrite (wo_hashcons _ _ U). apply (wi_hashcons g Hinv).
      - exact Hr0. }
    destruct (IH g3 (wp_inv _ _ P3) (wp_worklist _ _ P3)) as (g' & E' & P').
    { now rewrite (wp_size _ _ P3). }
    rewrite E'. exists g'. split; [reflexivity|]. eapply wpost_trans; eauto.
Qed.

(** A [merge] that returns, with enough fuel, on every state with an empty
    worklist and at most [C] classes. *)
Definition merge_returns (mf : nat -> EClassId -> EClassId -> M WGraph bool)
  (C : nat) : Prop :=
  forall g a b,
    wl_inv g -> worklist g = [] -> a < wsize g -> b < wsize g ->
    wclassCount g <= C ->
    exists res g',
      (exists N, forall fuel, N <= fuel -> mf fuel a b g = Ret res g') /\
      wpost g g' /\
      (res = true -> wclassCount g' < wclassCount g) /\
      (res = false -> arrays g' = arrays g).

(** The equations of the second loop of [repair]. *)
Lemma repair_dedup_end mrg k a i (dedup : ParentList) g entries :
  nth_error (arrays g) a = Some entries -> nth_error entries i = None ->
  repair_dedup mrg (S k) a i dedup g = Ret dedup g.
Proof.
  intros Ha Hi. cbn [repair_dedup]. unfold bind at 1.
  rewrite (read_array_eq _ _ _ Ha). now rewrite Hi.
Qed.

Lemma repair_dedup_skip mrg k a i (dedup : ParentList) g entries pe pc pe' g1
  (r : EClassId) g2 :
  nth_error (arrays g) a = Some entries -> nth_error entries i = Some (pe, pc) ->
  wcanonicalize pe g = Ret pe' g1 ->
  wliftUF (find pc) g1 = Ret r g2 ->
  (forall n, map_get enode_eqb pe' dedup <> Some (S n)) ->
  repair_dedup mrg (S k) a i dedup g
  = repair_dedup mrg k a (i + 1) (map_set enode_eqb pe' r dedup) g2.
Proof.
  intros Ha Hi E1 E2 Hno. cbn [repair_dedup]. unfold bind at 1.
  rewrite (read_array_eq _ _ _ Ha). rewrite Hi.
  unfold bind at 1. rewrite E1. unfold bind at 1. rewrite E2.
  unfold bind at 1.
  destruct (map_get enode_eqb pe' dedup) as [[|n]|] eqn:E;
    [reflexivity | exfalso; now apply (Hno n) | reflexivity].
Qed.

Lemma repair_dedup_merge mrg k a i (dedup : ParentList) g entries pe pc pe' g1
  (r : EClassId) g2 n res g3 :
  nth_error (arrays g) a = Some entries -> nth_error entries i = Some (pe, pc) ->
  wcanonicalize pe g = Ret pe' g1 ->
  wliftUF (find pc) g1 = Ret r g2 ->
  map_get enode_eqb pe' dedup = Some (S n) ->
  mrg pc (S n) g2 = Ret res g3 ->
  repair_dedup mrg (S k) a i dedup g
  = repair_dedup mrg k a (i + 1) (map_set enode_eqb pe' r dedup) g3.
Proof.
  intros Ha Hi E1 E2 Hget E3. cbn [repair_dedup]. unfold bind at 1.
  rewrite (read_array_eq _ _ _ Ha). rewrite Hi.
  unfold bind at 1. rewrite E1. unfold bind at 1. rewrite E2.
  unfold bind at 1. rewrite Hget. unfold bind at 1. rewrite E3.
  reflexivity.
Qed.

(** Updates of the state that keep the invariant. *)
Lemma winv_delete_class g c :
  wl_inv g -> ~ wisroot g c ->
  wl_inv (set_wclasses g (map_delete Nat.eqb c (wclasses g))).
Proof.
  intros [I1 I2 I3 I4 I5 I6] Hc. constructor; auto.
  - intros r Hr. destruct (I2 r Hr) as (x & H1 & H2). exists x.
    split; [|exact H2]. unfold wclasses_get in *. simpl.
    rewrite map_get_delete_ne; [exact H1 | exact I3 |]. intros ->. contradiction.
  - simpl. now apply NoDup_map_delete.
Qed.

Lemma winv_set_store g eclass ec :
  wl_inv g -> wclass_ok (wsize g) (List.length (arrays g)) ec ->
  wl_inv (set_wstore g (upd (wstore g) eclass ec)).
Proof.
  intros [I1 I2 I3 I4 I5 I6] Hec. constructor; auto.
  - intros r Hr. destruct (I2 r Hr) as (x & H1 & H2). exists x.
    split; [exact H1|]. simpl. now rewrite length_upd.
  - simpl. now apply Forall_upd.
Qed.

Lemma winv_set_array g a l :
  wl_inv g -> entries_ok (wsize g) l ->
  wl_inv (set_arrays g (upd (arrays g) a l)).
Proof.
  intros [I1 I2 I3 I4 I5 I6] Hl. constructor; auto.
  - simpl. rewrite length_upd. exact I4.
  - simpl. now apply Forall_upd.
Qed.

Lemma winv_set_unionFind g uf :
  wl_inv g -> uf_wf uf ->
  List.length (parent uf) = wsize g ->
  (forall z, nth_error (parent uf) z = Some z -> wisroot g z) ->
  wl_inv (set_wunionFind g uf).
Proof.
  intros [I1 I2 I3 I4 I5 I6] Hwf Hlen Hroots. constructor; auto.
  - intros r Hr. apply Hroots in Hr. exact (I2 r Hr).
  - unfold wsize. simpl. rewrite Hlen. exact I4.
  - unfold wsize. simpl. rewrite Hlen. exact I5.
  - unfold wsize. simpl. rewrite Hlen. exact I6.
Qed.

(** The body of [merge] after a [union] that joined two classes; [rb] is the
    call of [rebuild]. *)
Definition wmerge_roots (rb : M WGraph unit) (newRootId oldRootId : EClassId)
  : M WGraph bool :=
  (g <- get ;;
   let newRoot := wclasses_get newRootId g in
   let oldRoot := wclasses_get oldRootId g in
   wmodify (fun g => set_wclasses g
              (map_delete Nat.eqb oldRootId (wclasses g))) ;;;
   match oldRoot with
   | None => throw
   | Some oldRoot =>
       old <- wderef oldRoot ;;
       g1 <- get ;;
       let eid := whashcons_get (woriginalNode old) g1 in
       canon <- wcanonicalize (woriginalNode old) ;;
       feid <- wfind_undef eid ;;
       wmodify (fun g => set_whashcons g
                  (map_set enode_eqb canon feid
                     (map_delete enode_eqb (woriginalNode old)
                        (whashcons g1)))) ;;;
       match newRoot with
       | None => throw
       | Some newRoot =>
           new <- wderef newRoot ;;
           old' <- wderef oldRoot ;;
           wmodify (fun g => set_wstore g
                      (upd (wstore g) newRoot
                         (mkWClass
                            (set_union enode_eqb (wnodes new) (wnodes old'))
                            (woriginalNode new) (wparents new)))) ;;;
           new' <- wderef newRoot ;;
           old'' <- wderef oldRoot ;;
           items <- read_array (wparents old'') ;;
           push_array (wparents new') items ;;;
           wmodify (fun g => set_worklist g (worklist g ++ [newRootId])) ;;;
           rb ;;;
           ret true
       end
   end)%monad.

Lemma wmerge_S f a b :
  wmerge (S f) a b
  = (unionResult <- wliftUF (union a b) ;;
     match unionResult with
     | None => ret false
     | Some (n, o) =>
         wmerge_roots (wrebuild_with (wrepair_with (wmerge f) f) f) n o
     end)%monad.
Proof. reflexivity. Qed.

(** [merge] up to its call of [rebuild]: the class of the old root is
    gone, and the new root is the one id on the worklist. *)
Lemma wmerge_roots_prepare g n o nref oref :
  wl_inv g -> worklist g = [] -> ~ wisroot g o ->
  wclasses_get n g = Some nref -> wclasses_get o g = Some oref ->
  nref < List.length (wstore g) -> oref < List.length (wstore g) ->
  exists g8,
    (forall rb, wmerge_roots rb n o g = (rb ;;; ret true)%monad g8) /\
    wl_inv g8 /\ worklist g8 = [n] /\ wsize g8 = wsize g /\
    List.length (wstore g8) = List.length (wstore g) /\
    List.length (arrays g8) = List.length (arrays g) /\
    S (wclassCount g8) = wclassCount g.
Proof.
  intros Hinv Hw Hno Hn Ho Hnl Hol.
  unfold wmerge_roots. unfold bind at 1, get. cbv zeta. rewrite Hn, Ho.
  unfold bind at 1, wmodify at 1.
  set (g2 := set_wclasses g (map_delete Nat.eqb o (wclasses g))).
  assert (I2 : wl_inv g2) by now apply winv_delete_class.
  assert (C2 : S (wclassCount g2) = wclassCount g).
  { unfold g2, wclassCount. simpl. eapply length_map_delete. exact Ho. }
  destruct (nth_error (wstore g) oref) as [old|] eqn:Hold;
    [|apply nth_error_None in Hold; lia].
  destruct (nth_error (wstore g) nref) as [new|] eqn:Hnew;
    [|apply nth_error_None in Hnew; lia].
  assert (Hold2 : nth_error (wstore g2) oref = Some old) by exact Hold.
  unfold bind at 1. rewrite (wderef_eq _ _ _ Hold2).
  unfold bind at 1, get. cbv zeta.
  destruct (winv_store_nth g2 oref old I2 Hold2) as [Horig _].
  destruct (wcanonicalize_spec g2 (woriginalNode old) I2 Horig)
    as (canon & g3 & E3 & U3 & _).
  unfold bind at 1. rewrite E3.
  pose proof (winv_uf_only _ _ I2 U3) as I3.
  pose proof (whashcons_get_ok g2 (woriginalNode old) I2) as Heid.
  rewrite <- (wo_size _ _ U3) in Heid.
  destruct (wfind_undef_spec g3 _ I3 Heid) as (feid & g4 & E4 & U4 & Hfeid).
  unfold bind at 1. rewrite E4.
  pose proof (winv_uf_only _ _ I3 U4) as I4.
  unfold bind at 1, wmodify at 1.
  set (g5 := set_whashcons g4 _).
  assert (S5 : wsize g5 = wsize g).
  { change (wsize g4 = wsize g2). rewrite (wo_size _ _ U4). apply (wo_size _ _ U3). }
  assert (I5 : wl_inv g5).
  { apply winv_set_hashcons; [assumption|].
    rewrite (wo_size _ _ U4). apply hashcons_ok_update; [|assumption].
    rewrite (wo_size _ _ U3). apply (wi_hashcons g2 I2). }
  assert (St5 : wstore g5 = wstore g).
  { change (wstore g4 = wstore g2). rewrite (wo_store _ _ U4). apply (wo_store _ _ U3). }
  assert (A5 : arrays g5 = arrays g).
  { change (arrays g4 = arrays g2). rewrite (wo_arrays _ _ U4). apply (wo_arrays _ _ U3). }
  assert (W5 : worklist g5 = []).
  { change (worklist g4 = []). rewrite (wo_worklist _ _ U4), (wo_worklist _ _ U3).
    exact Hw. }
  assert (C5 : wclassCount g5 = wclassCount g2).
  { change (wclassCount g4 = wclassCount g2). unfold wclassCount.
    now rewrite (wo_classes _ _ U4), (wo_classes _ _ U3). }
  assert (Hnew5 : nth_error (wstore g5) nref = Some new) by congruence.
  assert (Hold5 : nth_error (wstore g5) oref = Some old) by congruence.
  unfold bind at 1. rewrite (wderef_eq _ _ _ Hnew5).
  unfold bind at 1. rewrite (wderef_eq _ _ _ Hold5).
  unfold bind at 1, wmodify at 1.
  set (g6 := set_wstore g5 _).
  assert (I6 : wl_inv g6).
  { unfold g6. apply winv_set_store; [assumption|].
    exact (winv_store_nth g5 nref new I5 Hnew5). }
  assert (L6 : List.length (wstore g6) = List.length (wstore g)).
  { unfold g6, set_wstore. cbn [wstore]. rewrite length_upd. now rewrite St5. }
  destruct (nth_error (wstore g6) nref) as [new'|] eqn:Hnew';
    [|apply nth_error_None in Hnew'; lia].
  destruct (nth_error (wstore g6) oref) as [old''|] eqn:Hold'';
    [|apply nth_error_None in Hold''; lia].
  unfold bind at 1. rewrite (wderef_eq _ _ _ Hnew').
  unfold bind at 1. rewrite (wderef_eq _ _ _ Hold'').
  destruct (winv_store_nth g6 nref new' I6 Hnew') as [_ Hnp].
  destruct (winv_store_nth g6 oref old'' I6 Hold'') as [_ Hop].
  destruct (nth_error (arrays g6) (wparents old'')) as [items|] eqn:Hitems;
    [|apply nth_error_None in Hitems; lia].
  destruct (nth_error (arrays g6) (wparents new')) as [l|] eqn:Hl;
    [|apply nth_error_None in Hl; lia].
  unfold bind at 1. rewrite (read_array_eq _ _ _ Hitems).
  unfold bind at 1. rewrite (push_array_eq _ _ _ _ Hl).
  set (g7 := set_arrays g6 _).
  assert (I7 : wl_inv g7).
  { unfold g7. apply winv_set_array; [assumption|].
    apply Forall_app. split; eapply winv_array_nth; eauto. }
  unfold bind at 1, wmodify at 1.
  set (g8 := set_worklist g7 _).
  exists g8. split; [intros rb; reflexivity|].
  split; [unfold g8; now apply winv_set_worklist|].
  split; [change (worklist g5 ++ [n] = [n]); now rewrite W5|].
  split; [exact S5|]. split; [exact L6|].
  split; [|change (S (wclassCount g5) = wclassCount g); lia].
  change (List.length (upd (arrays g5) (wparents new') (l ++ items))
          = List.length (arrays g)).
  rewrite length_upd. now rewrite A5.
Qed.

Lemma winv_reassign g eclass ec d :
  wl_inv g -> nth_error (wstore g) eclass = Some ec ->
  entries_ok (wsize g) d ->
  wl_inv (set_wstore (set_arrays g (arrays g ++ [d]))
            (upd (wstore g) eclass
               (mkWClass (wnodes ec) (woriginalNode ec) (List.length (arrays g))))).
Proof.
  intros Hinv Hec Hd.
  destruct (winv_store_nth g eclass ec Hinv Hec) as [Horig _].
  destruct Hinv as [I1 I2 I3 I4 I5 I6]. constructor.
  - exact I1.
  - intros r Hr. destruct (I2 r Hr) as (x & H1 & H2). exists x.
    split; [exact H1|]. simpl. now rewrite length_upd.
  - exact I3.
  - simpl. apply Forall_upd.
    + eapply Forall_impl; [|exact I4]. intros a [Ha Hb].
      split; [exact Ha|]. rewrite length_app. simpl. lia.
    + split; [exact Horig|]. simpl. rewrite length_app. simpl. lia.
  - simpl. apply Forall_app. split; [exact I5|].
    constructor; [exact Hd | constructor].
  - exact I6.
Qed.

Section WRepair.
Variable mf : nat -> EClassId -> EClassId -> M WGraph bool.
Variable C : nat.
Hypothesis Hmf : merge_returns mf C.

(** The second loop of [repair] ends although a [merge] in its body may
    push on the array it runs over: a [merge] that pushes has returned
    [true], and then there is a class less. *)
Lemma repair_dedup_spec :
  forall m d g a entries i (dedup : ParentList),
    wclassCount g <= m -> m <= C ->
    wl_inv g -> worklist g = [] ->
    nth_error (arrays g) a = Some entries ->
    List.length entries - i <= d ->
    entries_ok (wsize g) dedup ->
    exists d' g',
      (exists N, forall f k, N <= f -> N <= k ->
         repair_dedup (mf f) k a i dedup g = Ret d' g') /\
      wpost g g' /\ entries_ok (wsize g) d'.
Proof.
  induction m as [m IHm] using lt_wf_ind.
  induction d as [d IHd] using lt_wf_ind.
  intros g a entries i dedup Hm HC Hinv Hw Ea Hd Hdd.
  destruct (nth_error entries i) as [[pe pc]|] eqn:Ei.
  2:{ exists dedup, g. split; [|split; [now apply wpost_refl | exact Hdd]].
      exists 1. intros f k _ Hk. destruct k as [|k]; [lia|].
      eapply repair_dedup_end; eauto. }
  assert (Hi : i < List.length entries) by (apply nth_error_Some; congruence).
  pose proof (winv_array_nth g a entries Hinv Ea) as Hents.
  assert (Hentry : ids_ok (wsize g) (children pe) /\ pc < wsize g).
  { unfold entries_ok in Hents. rewrite Forall_forall in Hents.
    apply (Hents (pe, pc)). eapply nth_error_In; eauto. }
  destruct Hentry as [Hpe Hpc].
  destruct (wcanonicalize_spec g pe Hinv Hpe) as (pe' & g1 & E1 & U1 & Hpe').
  pose proof (winv_uf_only _ _ Hinv U1) as I1.
  assert (Hpc1 : pc < wsize g1) by (rewrite (wo_size _ _ U1); exact Hpc).
  destruct (wliftUF_find_spec g1 pc I1 Hpc1) as (r & g2 & E2 & U2 & _ & Hr).
  rewrite (wo_size _ _ U1) in Hr.
  pose proof (wuf_only_trans _ _ _ U1 U2) as U.
  pose proof (wpost_uf_only g g2 Hinv Hw U) as P2.
  set (dedup' := map_set enode_eqb pe' r dedup : ParentList).
  assert (Hdd' : entries_ok (wsize g) dedup') by (now apply entries_ok_set).
  assert (K : forall g3, wpost g2 g3 ->
                wclassCount g3 < wclassCount g \/ arrays g3 = arrays g ->
                exists d' g',
                  (exists N, forall f k, N <= f -> N <= k ->
                     repair_dedup (mf f) k a (i + 1) dedup' g3 = Ret d' g') /\
                  wpost g g' /\ entries_ok (wsize g) d').
  { intros g3 P3 Hcase.
    pose proof (wpost_trans _ _ _ P2 P3) as P03.
    assert (Ha : a < List.length (arrays g))
      by (apply nth_error_Some; congruence).
    destruct (nth_error (arrays g3) a) as [entries3|] eqn:Ea3;
      [|apply nth_error_None in Ea3; pose proof (wp_arrays _ _ P03); lia].
    assert (Hdd3 : entries_ok (wsize g3) dedup')
      by (rewrite (wp_size _ _ P03); exact Hdd').
    pose proof (wp_count _ _ P03) as Hc3.
    destruct Hcase as [Hlt | Harr].
    - destruct (IHm (wclassCount g3) ltac:(lia)
                  (List.length entries3 - (i + 1))
                  g3 a entries3 (i + 1) dedup' (Nat.le_refl _) ltac:(lia)
                  (wp_inv _ _ P03) (wp_worklist _ _ P03) Ea3 (Nat.le_refl _) Hdd3)
        as (d' & g' & HN & P' & Hd').
      exists d', g'. split; [exact HN|].
      split; [eapply wpost_trans; eauto|].
      now rewrite <- (wp_size _ _ P03).
    - assert (Hlen : List.length entries3 - (i + 1) < d).
      { rewrite Harr, Ea in Ea3. inversion Ea3; subst entries3. lia. }
      destruct (IHd _ Hlen g3 a entries3 (i + 1) dedup' ltac:(lia) HC
                  (wp_inv _ _ P03) (wp_worklist _ _ P03) Ea3 (Nat.le_refl _) Hdd3)
        as (d' & g' & HN & P' & Hd').
      exists d', g'. split; [exact HN|].
      split; [eapply wpost_trans; eauto|].
      now rewrite <- (wp_size _ _ P03). }
  assert (Kskip : (forall n, map_get enode_eqb pe' dedup <> Some (S n)) ->
            exists d' g',
              (exists N, forall f k, N <= f -> N <= k ->
                 repair_dedup (mf f) k a i dedup g = Ret d' g') /\
              wpost g g' /\ entries_ok (wsize g) d').
  { intros Hno.
    destruct (K g2 (wpost_refl g2 (wp_inv _ _ P2) (wp_worklist _ _ P2))
                (or_intror (wo_arrays _ _ U)))
      as (d' & g' & [N HN] & P' & Hd').
    exists d', g'. split; [|split; assumption].
    exists (S N). intros f k Hf Hk. destruct k as [|k]; [lia|].
    rewrite (repair_dedup_skip _ _ _ _ _ _ _ _ _ _ _ _ _ Ea Ei E1 E2 Hno).
    apply HN; lia. }
  destruct (map_get enode_eqb pe' dedup) as [[|n]|] eqn:Eg.
  - apply Kskip. intros n. discriminate.
  - assert (Hn : S n < wsize g) by exact (entries_ok_get _ _ _ _ Hdd Eg).
    destruct (Hmf g2 pc (S n) (wp_inv _ _ P2) (wp_worklist _ _ P2))
      as (res & g3 & [N1 H1] & P3 & Htrue & Hfalse).
    { now rewrite (wp_size _ _ P2). }
    { now rewrite (wp_size _ _ P2). }
    { pose proof (wp_count _ _ P2). lia. }
    assert (Hcase : wclassCount g3 < wclassCount g \/ arrays g3 = arrays g).
    { destruct res.
      - left. pose proof (wp_count _ _ P2). specialize (Htrue eq_refl). lia.
      - right. rewrite (Hfalse eq_refl). apply (wo_arrays _ _ U). }
    destruct (K g3 P3 Hcase) as (d' & g' & [N HN] & P' & Hd').
    exists d', g'. split; [|split; assumption].
    exists (S (Nat.max N1 N)). intros f k Hf Hk. destruct k as [|k]; [lia|].
    rewrite (repair_dedup_merge _ _ _ _ _ _ _ _ _ _ _ _ _ _ _ _ Ea Ei E1 E2 Eg
               (H1 f ltac:(lia))).
    apply HN; lia.
  - apply Kskip. intros n. discriminate.
Qed.


(** [repair(eid)] for an id that has a class object. *)
Lemma wrepair_with_spec g eid eclass :
  wl_inv g -> worklist g = [] -> wclassCount g <= C ->
  wclasses_get eid g = Some eclass -> eclass < List.length (wstore g) ->
  exists g',
    (exists N, forall f k, N <= f -> N <= k ->
       wrepair_with (mf f) k eid g = Ret tt g') /\
    wpost g g'.
Proof.
  intros Hinv Hw HC Hcls Hlt.
  destruct (nth_error (wstore g) eclass) as [ec|] eqn:Hec;
    [|apply nth_error_None in Hec; lia].
  destruct (winv_store_nth g eclass ec Hinv Hec) as [_ Hpar].
  destruct (nth_error (arrays g) (wparents ec)) as [entries|] eqn:Hent;
    [|apply nth_error_None in Hent; lia].
  pose proof (winv_array_nth g _ entries Hinv Hent) as Hents.
  destruct (repair_hashcons_spec entries g Hinv Hw Hents) as (g1 & E1 & P1).
  destruct (nth_error (wstore g1) eclass) as [ec'|] eqn:Hec';
    [|apply nth_error_None in Hec'; rewrite (wp_store _ _ P1) in Hec'; lia].
  destruct (winv_store_nth g1 eclass ec' (wp_inv _ _ P1) Hec') as [_ Hpar'].
  destruct (nth_error (arrays g1) (wparents ec')) as [entries'|] eqn:Hent';
    [|apply nth_error_None in Hent'; lia].
  destruct (repair_dedup_spec (wclassCount g1) (List.length entries' - 0)
              g1 (wparents ec') entries' 0 [] (Nat.le_refl _)
              ltac:(pose proof (wp_count _ _ P1); lia)
              (wp_inv _ _ P1) (wp_worklist _ _ P1) Hent' (Nat.le_refl _)
              ltac:(constructor))
    as (d' & g2 & [N HN] & P2 & Hd').
  destruct (nth_error (wstore g2) eclass) as [ec''|] eqn:Hec'';
    [|apply nth_error_None in Hec''; rewrite (wp_store _ _ P2), (wp_store _ _ P1) in Hec'';
      lia].
  set (g4 := set_wstore (set_arrays g2 (arrays g2 ++ [d']))
               (upd (wstore g2) eclass
                  (mkWClass (wnodes ec'') (woriginalNode ec'')
                     (List.length (arrays g2))))).
  assert (I4 : wl_inv g4).
  { apply winv_reassign; [exact (wp_inv _ _ P2) | exact Hec''|].
    now rewrite (wp_size _ _ P2). }
  assert (P4 : wpost g2 g4).
  { constructor.
    - exact I4.
    - exact (wp_worklist _ _ P2).
    - reflexivity.
    - unfold g4. simpl. now rewrite length_upd.
    - unfold g4. simpl. rewrite length_app. lia.
    - apply Nat.le_refl. }
  exists g4. split; [|eapply wpost_trans; [exact P1|]; eapply wpost_trans; eauto].
  exists N. intros f k Hf Hk.
  unfold wrepair_with. unfold bind at 1, get. rewrite Hcls.
  unfold bind at 1. rewrite (wderef_eq _ _ _ Hec).
  unfold bind at 1. rewrite (read_array_eq _ _ _ Hent).
  unfold bind at 1. rewrite E1.
  unfold bind at 1. rewrite (wderef_eq _ _ _ Hec').
  unfold bind at 1. rewrite (HN f k Hf Hk).
  unfold bind at 1, get. cbv zeta.
  unfold bind at 1, wmodify at 1.
  unfold bind at 1.
  rewrite (wderef_eq (set_arrays g2 (arrays g2 ++ [d'])) eclass ec'' Hec'').
  reflexivity.
Qed.

(** [rebuild()] with one id on the worklist, which is what [merge] leaves
    there: the loop runs [repair] once and finds the worklist empty. *)
Lemma wrebuild_with_spec g x :
  wl_inv g -> worklist g = [x] -> x < wsize g -> wclassCount g <= C ->
  exists g',
    (exists N, forall f k j, N <= f -> N <= k -> N <= j ->
       wrebuild_with (wrepair_with (mf f) k) j g = Ret tt g') /\
    wpost (set_worklist g []) g'.
Proof.
  intros Hinv Hw Hx HC.
  destruct (wliftUF_find_spec g x Hinv Hx) as (r & g1 & E1 & U1 & Rr & Hr).
  pose proof (winv_uf_only _ _ Hinv U1) as I1.
  set (g2 := set_worklist g1 []).
  assert (I2 : wl_inv g2) by (now apply winv_set_worklist).
  destruct (wi_roots g2 I2 r Rr) as (eclass & Hcls & Hlt).
  assert (C2 : wclassCount g2 = wclassCount g)
    by (unfold wclassCount, g2; simpl; now rewrite (wo_classes _ _ U1)).
  destruct (wrepair_with_spec g2 r eclass I2 eq_refl ltac:(lia) Hcls Hlt)
    as (g3 & [N HN] & P3).
  exists g3. split.
  - exists (S (S N)). intros f k j Hf Hk Hj.
    destruct j as [|[|j]]; [lia | lia |].
    cbn [wrebuild_with]. unfold bind at 1, get. rewrite Hw.
    unfold bind at 1. cbn [mapM]. unfold bind at 1. rewrite E1.
    unfold bind at 1, ret at 1. unfold ret at 1. cbv zeta.
    unfold bind at 1. unfold bind at 1, wmodify at 1.
    change (set_worklist g1 []) with g2.
    change (set_union Nat.eqb [] [r]) with [r].
    cbn [forM]. unfold bind at 1. unfold bind at 1.
    rewrite (HN f k ltac:(lia) ltac:(lia)).
    unfold ret at 1. unfold bind at 1, get.
    rewrite (wp_worklist _ _ P3). reflexivity.
  - destruct P3 as [a b c d e h]. constructor; auto.
    + rewrite c. apply (wo_size _ _ U1).
    + rewrite d. unfold g2. simpl. now rewrite (wo_store _ _ U1).
    + simpl. unfold g2 in e. simpl in e. now rewrite <- (wo_arrays _ _ U1).
    + change (wclassCount g3 <= wclassCount g). lia.
Qed.


(** [merge] after a [union] that joined two classes: [rebuild] returns,
    and there is a class less. *)
Lemma wmerge_roots_spec g n o nref oref :
  wl_inv g -> worklist g = [] -> ~ wisroot g o -> n < wsize g ->
  wclasses_get n g = Some nref -> wclasses_get o g = Some oref ->
  nref < List.length (wstore g) -> oref < List.length (wstore g) ->
  wclassCount g <= S C ->
  exists g',
    (exists N, forall f k j, N <= f -> N <= k -> N <= j ->
       wmerge_roots (wrebuild_with (wrepair_with (mf f) k) j) n o g
       = Ret true g') /\
    wpost g g' /\ wclassCount g' < wclassCount g.
Proof.
  intros Hinv Hw Hno Hnlt Hn Ho Hnl Hol HC.
  destruct (wmerge_roots_prepare g n o nref oref Hinv Hw Hno Hn Ho Hnl Hol)
    as (g8 & E8 & I8 & W8 & S8 & L8 & A8 & C8).
  destruct (wrebuild_with_spec g8 n I8 W8 ltac:(lia) ltac:(lia))
    as (g9 & [N HN] & P9).
  destruct P9 as [a b c d e h].
  change (wsize (set_worklist g8 [])) with (wsize g8) in c.
  change (wstore (set_worklist g8 [])) with (wstore g8) in d.
  change (arrays (set_worklist g8 [])) with (arrays g8) in e.
  change (wclassCount (set_worklist g8 [])) with (wclassCount g8) in h.
  exists g9. split; [|split].
  - exists N. intros f k j Hf Hk Hj. rewrite E8.
    unfold bind at 1. rewrite (HN f k j Hf Hk Hj). reflexivity.
  - constructor; auto; try congruence; lia.
  - lia.
Qed.

End WRepair.

(** [merge] returns on every state that satisfies the invariant, with
    enough fuel. *)
Lemma wmerge_spec : forall C, merge_returns wmerge C.
Proof.
  induction C as [C IH] using lt_wf_ind.
  intros g a b Hinv Hw Ha Hb HC.
  destruct (wliftUF_union_spec g a b Hinv Ha Hb) as (res & uf' & E & Hwf & Hlen & P).
  destruct res as [[r c]|].
  - destruct P as (Hne & Rr & Rc & Rr' & Rc' & Hothers).
    set (g1 := set_wunionFind g uf').
    assert (I1 : wl_inv g1).
    { apply winv_set_unionFind; auto. intros z Hz.
      destruct (Nat.eq_dec z c) as [->|Hzc]; [congruence|]. now apply Hothers. }
    destruct (wi_roots g Hinv r Rr) as (nref & Hn & Hnl).
    destruct (wi_roots g Hinv c Rc) as (oref & Ho & Hol).
    assert (Hnc : ~ wisroot g1 c).
    { unfold wisroot, g1. simpl. rewrite Rc'. intros H. inversion H. congruence. }
    assert (Hpos : 0 < wclassCount g).
    { unfold wclassCount, wclasses_get in *.
      destruct (wclasses g); [discriminate | simpl; lia]. }
    assert (Hr : r < wsize g1).
    { unfold wsize, g1. simpl. apply nth_error_Some. congruence. }
    destruct (wmerge_roots_spec wmerge (C - 1) (IH (C - 1) ltac:(lia))
                g1 r c nref oref I1 Hw Hnc Hr Hn Ho Hnl Hol
                ltac:(change (wclassCount g <= S (C - 1)); lia))
      as (g' & [N HN] & P' & C').
    exists true, g'. split; [|split; [|split]].
    + exists (S N). intros fuel Hfuel. destruct fuel as [|f]; [lia|].
      rewrite wmerge_S. unfold bind at 1. rewrite E.
      apply HN; lia.
    + destruct P' as [p1 p2 p3 p4 p5 p6]. constructor; auto.
      rewrite p3. exact Hlen.
    + intros _. exact C'.
    + discriminate.
  - exists false, (set_wunionFind g uf'). split; [|split; [|split]].
    + exists 1. intros fuel Hfuel. destruct fuel as [|f]; [lia|].
      rewrite wmerge_S. unfold bind at 1. rewrite E. reflexivity.
    + constructor; auto.
      apply winv_set_unionFind; auto. intros z Hz. now apply P.
    + discriminate.
    + reflexivity.
Qed.

(** [merge(a, b)] of the worklist variant returns. *)
Lemma wmerge_returns g a b :
  wl_inv g -> worklist g = [] -> a < wsize g -> b < wsize g ->
  exists res g',
    (exists N, forall fuel, N <= fuel -> wmerge fuel a b g = Ret res g') /\
    wpost g g' /\
    (res = true -> wclassCount g' < wclassCount g).
Proof.
  intros Hinv Hw Ha Hb.
  destruct (wmerge_spec (wclassCount g) g a b Hinv Hw Ha Hb (Nat.le_refl _))
    as (res & g' & HN & P & Ht & _).
  exists res, g'. auto.
Qed.

(** [rebuild()] returns when the worklist holds one id. *)
Lemma wrebuild_returns g x :
  wl_inv g -> worklist g = [] -> x < wsize g ->
  exists g',
    (exists N, forall fuel, N <= fuel ->
       wrebuild fuel (set_worklist g [x]) = Ret tt g') /\
    wpost g g'.
Proof.
  intros Hinv Hw Hx.
  destruct (wrebuild_with_spec wmerge (wclassCount g) (wmerge_spec _)
              (set_worklist g [x]) x (winv_set_worklist g [x] Hinv) eq_refl Hx
              (Nat.le_refl _))
    as (g' & [N HN] & P).
  exists g'. split.
  - exists N. intros fuel Hfuel. unfold wrebuild, wrepair. now apply HN.
  - destruct P as [p1 p2 p3 p4 p5 p6]. constructor; auto.
Qed.

(** The e-graphs of the terms [(f a)] and [(f b)], in the two variants:
    [a] is class 0, [(f a)] class 1, [b] class 2 and [(f b)] class 3. A
    [merge(0, 2)] makes the two parents equal, so that [repair] calls
    [merge(3, 1)]. *)
Definition graph_fa_fb : EGraph :=
  match (addTerm (Language.mkTerm "f" [Language.mkTerm "a" []]) ;;;
         addTerm (Language.mkTerm "f" [Language.mkTerm "b" []])) empty with
  | Ret _ g => g
  | _ => empty
  end.

Definition wgraph_fa_fb : WGraph :=
  match (waddTerm (Language.mkTerm "f" [Language.mkTerm "a" []]) ;;;
         waddTerm (Language.mkTerm "f" [Language.mkTerm "b" []])) wempty with
  | Ret _ g => g
  | _ => wempty
  end.

(** C7. On a state that satisfies the invariant and for ids of the
    union-find, [merge] with the recursion through [repair] returns, in
    [src/egraph.ts] and in the worklist variant, where [rebuild] drains the
    worklist and the second loop of [repair] runs over an array that the
    nested [merge] extends. A call that returns [true] leaves strictly fewer
    classes, no call leaves more, and the invariant holds again. [rebuild]
    as a method of its own returns as well, from a worklist of one id. *)
Theorem merge_terminates_and_shrinks (g : EGraph) (w : WGraph)
  (eid1 eid2 : EClassId) :
  egraph_ok g = true -> keys_distinctb g = true ->
  eid1 < gsize g -> eid2 < gsize g ->
  wgraph_ok w = true ->
  eid1 < wsize w -> eid2 < wsize w ->
  (exists res g',
     merge eid1 eid2 g = Ret res g' /\
     egraph_inv g' /\ keys_distinct g' /\
     classCount g' <= classCount g /\
     (res = true -> classCount g' < classCount g)) /\
  (exists res w',
     (exists N, forall fuel, N <= fuel ->
        wmerge fuel eid1 eid2 w = Ret res w') /\
     wl_inv w' /\ worklist w' = [] /\
     wclassCount w' <= wclassCount w /\
     (res = true -> wclassCount w' < wclassCount w)) /\
  (exists w',
     (exists N, forall fuel, N <= fuel ->
        wrebuild fuel (set_worklist w [eid1]) = Ret tt w') /\
     wl_inv w' /\ worklist w' = [] /\
     wclassCount w' <= wclassCount w).
Proof.
  intros Hok Hkeys H1 H2 Hwok W1 W2.
  apply egraph_ok_inv in Hok. apply keys_distinctb_spec in Hkeys.
  destruct (wgraph_ok_inv w Hwok) as [Hinv Hw].
  split; [|split].
  - destruct (merge_spec g eid1 eid2 Hok Hkeys H1 H2)
      as (res & g' & E & I & _ & _ & C & D & K).
    exists res, g'. split; [exact E|]. auto.
  - destruct (wmerge_returns w eid1 eid2 Hinv Hw W1 W2)
      as (res & w' & HN & [p1 p2 p3 p4 p5 p6] & Ht).
    exists res, w'. split; [exact HN|]. auto.
  - destruct (wrebuild_returns w eid1 Hinv Hw W1)
      as (w' & HN & [p1 p2 p3 p4 p5 p6]).
    exists w'. split; [exact HN|]. auto.
Qed.

Lemma merge_terminates_and_shrinks_witness :
  (exists res g',
     merge 0 2 graph_fa_fb = Ret res g' /\
     egraph_inv g' /\ keys_distinct g' /\
     classCount g' <= classCount graph_fa_fb /\
     (res = true -> classCount g' < classCount graph_fa_fb)) /\
  (exists res w',
     (exists N, forall fuel, N <= fuel ->
        wmerge fuel 0 2 wgraph_fa_fb = Ret res w') /\
     wl_inv w' /\ worklist w' = [] /\
     wclassCount w' <= wclassCount wgraph_fa_fb /\
     (res = true -> wclassCount w' < wclassCount wgraph_fa_fb)) /\
  (exists w',
     (exists N, forall fuel, N <= fuel ->
        wrebuild fuel (set_worklist wgraph_fa_fb [0]) = Ret tt w') /\
     wl_inv w' /\ worklist w' = [] /\
     wclassCount w' <= wclassCount wgraph_fa_fb).
Proof.
  apply merge_terminates_and_shrinks;
    [vm_compute; reflexivity | vm_compute; reflexivity
    | vm_compute; lia | vm_compute; lia
    | vm_compute; reflexivity | vm_compute; lia | vm_compute; lia].
Defined.

End WorklistFacts.

(* ------------------------------------------------------------------ *)
(** * Properties of union-find.ts *)

Section UnionFindProperties.

Import UF.

(** The answer of [connected], or [false] when the call does not return. *)
Definition conn (uf : UnionFind) (x y : Key) : bool :=
  match connected x y uf with
  | Ret b _ => b
  | _ => false
  end.

Lemma list_max_repeat0 n : list_max (repeat 0 n) = 0.
Proof. induction n as [|n IH]; simpl; [reflexivity | exact IH]. Qed.

Lemma nth_error_seq0 n i : i < n -> nth_error (seq 0 n) i = Some i.
Proof.
  intros H. rewrite nth_error_seq.
  destruct (Nat.ltb_spec i n); [reflexivity | lia].
Qed.

Lemma create_wf n : uf_wf (create n).
Proof.
  split; unfold create; cbn [parent rank].
  - now rewrite repeat_length, length_seq.
  - intros i p Hi. rewrite length_seq. unfold Key in *.
    assert (Hlt : i < List.length (seq 0 n)).
    { unfold Key in Hi. apply nth_error_Some. rewrite Hi. discriminate. }
    rewrite length_seq in Hlt.
    rewrite nth_error_seq0 in Hi by assumption. inversion Hi; subst.
    split; [assumption | congruence].
Qed.

Lemma find_root uf x :
  nth_error (parent uf) x = Some x -> find x uf = Ret x uf.
Proof.
  intros H. unfold find, find_depth. cbn [find_fuel]. rewrite H.
  now rewrite Nat.eqb_refl.
Qed.

(** X1. In a union-find made by the constructor every key is its own
    representative: [find] returns the key and [connected] tells whether
    the two keys are equal, and neither changes the arrays. *)
Theorem create_is_discrete (n : nat) (x y : Key) :
  x < n -> y < n ->
  find x (create n) = Ret x (create n) /\
  connected x y (create n) = Ret (Nat.eqb x y) (create n).
Proof.
  intros Hx Hy.
  assert (Fx : find x (create n) = Ret x (create n))
    by (apply find_root; simpl; now apply nth_error_seq0).
  assert (Fy : find y (create n) = Ret y (create n))
    by (apply find_root; simpl; now apply nth_error_seq0).
  split; [exact Fx|]. unfold connected, bind. now rewrite Fx, Fy.
Qed.

Lemma create_is_discrete_witness :
  find 2 (create 5) = Ret 2 (create 5) /\
  connected 2 4 (create 5) = Ret (Nat.eqb 2 4) (create 5).
Proof. apply create_is_discrete; lia. Defined.

Lemma upd_same {A} (l : list A) i v :
  nth_error l i = Some v -> upd l i v = l.
Proof.
  revert i. induction l as [|x l IH]; intros [|i]; simpl; intros H;
    try discriminate.
  - now inversion H.
  - now rewrite IH.
Qed.

Lemma find_parent uf x :
  uf_wf uf -> x < List.length (parent uf) ->
  exists r uf', find x uf = Ret r uf' /\ find_post uf x r uf' /\
                nth_error (parent uf') x = Some r.
Proof.
  intros Hwf Hx. unfold find, find_depth. cbn [find_fuel].
  destruct (nth_error (parent uf) x) as [p|] eqn:Hp;
    [|apply nth_error_None in Hp; lia].
  destruct (Nat.eqb_spec p x) as [->|Hne].
  - exists x, uf. split; [reflexivity|]. split; [|exact Hp].
    split; [now apply root_of_root|].
    split; [assumption|]. split; [reflexivity|]. split; [reflexivity|].
    split; [tauto | auto].
  - destruct (find_spec uf x Hwf Hx) as (r & uf' & E & P).
    unfold find, find_depth in E. cbn [find_fuel] in E. rewrite Hp in E.
    destruct (Nat.eqb_spec p x); [contradiction|].
    destruct (find_fuel (list_max (rank uf)) p uf) as [r1 uf1| | | |] eqn:E1;
      try discriminate.
    inversion E; subst r uf'. exists r1, {| parent := upd (parent uf1) x r1; rank := rank uf1 |}.
    split; [reflexivity|]. split; [exact P|]. simpl.
    apply nth_error_upd_eq.
    destruct P as (_ & _ & _ & Hlen & _). simpl in Hlen. rewrite length_upd in Hlen.
    lia.
Qed.

(** X2. [find] returns a root, stores it as the parent of its argument
    (path compression), and is idempotent: asking again, for the key or for
    the representative, gives the same representative and changes
    nothing. *)
Theorem find_compresses_and_is_idempotent (uf : UnionFind) (x : Key) :
  uf_wf uf -> x < List.length (parent uf) ->
  exists r uf',
    find x uf = Ret r uf' /\
    nth_error (parent uf') r = Some r /\
    nth_error (parent uf') x = Some r /\
    find x uf' = Ret r uf' /\
    find r uf' = Ret r uf'.
Proof.
  intros Hwf Hx.
  destruct (find_parent uf x Hwf Hx) as (r & uf' & E & P & Hpx).
  pose proof P as (Hroot & Hwf' & Hrk & Hlen & Hroots & Hpres).
  assert (Hr : nth_error (parent uf') r = Some r).
  { apply Hroots. eapply root_of_is_root; eauto. }
  exists r, uf'. split; [exact E|]. split; [exact Hr|]. split; [exact Hpx|].
  split; [|now apply find_root].
  destruct (Nat.eq_dec r x) as [->|Hne]; [now apply find_root|].
  unfold find, find_depth. cbn [find_fuel]. rewrite Hpx.
  destruct (Nat.eqb_spec r x); [contradiction|].
  destruct Hwf' as [Hl Hp]. destruct (Hp x r Hpx) as [_ Hlt]. specialize (Hlt Hne).
  pose proof (rank_le_max uf' r) as Hmax.
  destruct (list_max (rank uf')) as [|m] eqn:Em; [lia|].
  cbn [find_fuel]. rewrite Hr, Nat.eqb_refl.
  rewrite (upd_same _ _ _ Hpx). now destruct uf'.
Qed.

Lemma find_compresses_and_is_idempotent_witness :
  exists r uf',
    find 2 (mkUF [0; 0; 1] [2; 1; 0]) = Ret r uf' /\
    nth_error (parent uf') r = Some r /\
    nth_error (parent uf') 2 = Some r /\
    find 2 uf' = Ret r uf' /\
    find r uf' = Ret r uf'.
Proof.
  apply find_compresses_and_is_idempotent;
    [apply uf_okb_spec; reflexivity | simpl; lia].
Defined.

Lemma root_of_parent uf uf' x r :
  parent uf = parent uf' -> root_of uf x r -> root_of uf' x r.
Proof.
  intros E. induction 1 as [x Hx | x p r Hp Hne _ IH].
  - apply root_of_root. now rewrite <- E.
  - apply root_of_step with (p := p); auto. now rewrite <- E.
Qed.

(** Hanging the root [c] under the root [r] sends the keys of [c] to [r] and
    leaves the other keys with their root. *)
Lemma attach_root_of uf r c rk :
  nth_error (parent uf) r = Some r -> nth_error (parent uf) c = Some c ->
  r <> c ->
  forall z rz, root_of uf z rz ->
  root_of (mkUF (upd (parent uf) c r) rk) z (if Nat.eqb rz c then r else rz).
Proof.
  intros Hr Hc Hne z rz Hz.
  assert (Hclt : c < List.length (parent uf)).
  { apply nth_error_Some. unfold Key in *. rewrite Hc. discriminate. }
  assert (Hr' : root_of (mkUF (upd (parent uf) c r) rk) r r).
  { apply root_of_root. simpl. rewrite nth_error_upd_ne by auto. exact Hr. }
  induction Hz as [z Hzz | z p rz Hp Hnz Hz IH].
  - destruct (Nat.eqb_spec z c) as [->|Hzc].
    + apply root_of_step with (p := r); auto. simpl. now apply nth_error_upd_eq.
    + apply root_of_root. simpl. now rewrite nth_error_upd_ne by auto.
  - apply root_of_step with (p := p); auto. simpl.
    rewrite nth_error_upd_ne; [exact Hp|]. intros ->. congruence.
Qed.

(** The effect of [union] on the representatives and on the ranks. *)
Definition union_effect (uf : UnionFind) (rx ry : Key)
  (res : option (Key * Key)) (uf' : UnionFind) : Prop :=
  (rx = ry ->
     res = None /\ rank uf' = rank uf /\
     forall z rz, root_of uf z rz -> root_of uf' z rz) /\
  (rx <> ry ->
     exists r c,
       res = Some (r, c) /\
       ((r = rx /\ c = ry) \/ (r = ry /\ c = rx)) /\
       (forall z rz, root_of uf z rz ->
          root_of uf' z (if Nat.eqb rz c then r else rz)) /\
       nth c (rank uf) 0 <= nth r (rank uf) 0 /\
       (nth c (rank uf) 0 < nth r (rank uf) 0 -> rank uf' = rank uf) /\
       (nth c (rank uf) 0 = nth r (rank uf) 0 ->
          r = rx /\ rank uf' = upd (rank uf) r (S (nth r (rank uf) 0)))).

Lemma union_roots uf x y :
  uf_wf uf -> x < List.length (parent uf) -> y < List.length (parent uf) ->
  exists rx ry res uf',
    union x y uf = Ret res uf' /\
    root_of uf x rx /\ root_of uf y ry /\
    uf_wf uf' /\ List.length (parent uf') = List.length (parent uf) /\
    union_effect uf rx ry res uf'.
Proof.
  intros Hwf Hx Hy.
  destruct (union_spec uf x y Hwf Hx Hy) as (res0 & uf0 & E0 & Hwf0 & Hlen0 & _).
  unfold union, bind in E0 |- *.
  destruct (find_spec uf x Hwf Hx)
    as (rx & uf1 & E1 & Hrx & Hwf1 & Hrk1 & Hlen1 & Hroots1 & Hpres1).
  rewrite E1 in E0 |- *.
  destruct (find_spec uf1 y Hwf1 ltac:(lia))
    as (ry & uf2 & E2 & Hry & Hwf2 & Hrk2 & Hlen2 & Hroots2 & Hpres2).
  rewrite E2 in E0 |- *.
  assert (Hry0 : root_of uf y ry).
  { apply (find_post_back uf x rx uf1 Hwf); [|exact Hry].
    exact (conj Hrx (conj Hwf1 (conj Hrk1 (conj Hlen1 (conj Hroots1 Hpres1))))). }
  assert (Hpres : forall z rz, root_of uf z rz -> root_of uf2 z rz) by auto.
  assert (Hrk : rank uf2 = rank uf) by congruence.
  exists rx, ry.
  destruct (Nat.eqb_spec rx ry) as [Heq|Hne].
  - exists None, uf2. split; [reflexivity|]. split; [exact Hrx|].
    split; [exact Hry0|]. split; [exact Hwf2|]. split; [congruence|].
    split; [intros _; auto | intros H; contradiction].
  - exists res0, uf0. split; [exact E0|]. split; [exact Hrx|].
    split; [exact Hry0|]. split; [exact Hwf0|]. split; [exact Hlen0|].
    split; [intros H; contradiction | intros _].
    pose proof (root_of_is_root _ _ _ (Hpres _ _ Hrx)) as Rx.
    pose proof (proj1 (Hroots2 ry) (root_of_is_root _ _ _ Hry)) as Ry.
    unfold get in E0. cbn [bind] in E0.
    assert (Lx : rx < List.length (rank uf2)).
    { destruct Hwf2 as [Hl _]. rewrite Hl. apply nth_error_Some.
      unfold Key in *. rewrite Rx. discriminate. }
    assert (Ly : ry < List.length (rank uf2)).
    { destruct Hwf2 as [Hl _]. rewrite Hl. apply nth_error_Some.
      unfold Key in *. rewrite Ry. discriminate. }
    destruct (nth_error (rank uf2) rx) as [kx|] eqn:Kx;
      [|apply nth_error_None in Kx; lia].
    destruct (nth_error (rank uf2) ry) as [ky|] eqn:Ky;
      [|apply nth_error_None in Ky; lia].
    pose proof (nth_error_nth _ _ 0 Kx) as Nx.
    pose proof (nth_error_nth _ _ 0 Ky) as Ny.
    rewrite Hrk in Nx, Ny.
    destruct (Nat.ltb_spec kx ky) as [Hlt|Hge].
    + inversion E0; subst res0 uf0. exists ry, rx.
      split; [reflexivity|]. split; [now right|].
      split; [intros z rz Hz; apply attach_root_of; auto|].
      split; [lia|]. split; [intros _; exact Hrk | intros H; lia].
    + destruct (Nat.ltb_spec ky kx) as [Hlt|Hge'].
      * inversion E0; subst res0 uf0. exists rx, ry.
        split; [reflexivity|]. split; [now left|].
        split; [intros z rz Hz; apply attach_root_of; auto|].
        split; [lia|]. split; [intros _; exact Hrk | intros H; lia].
      * inversion E0; subst res0 uf0. exists rx, ry.
        split; [reflexivity|]. split; [now left|].
        split; [intros z rz Hz; apply attach_root_of; auto|].
        split; [lia|]. split; [intros H; lia|].
        intros _. split; [reflexivity|]. simpl. rewrite Hrk. f_equal. lia.
Qed.

Lemma conn_spec uf a b :
  uf_wf uf -> a < List.length (parent uf) -> b < List.length (parent uf) ->
  exists ra rb uf',
    connected a b uf = Ret (Nat.eqb ra rb) uf' /\
    root_of uf a ra /\ root_of uf b rb /\ conn uf a b = Nat.eqb ra rb.
Proof.
  intros Hwf Ha Hb.
  destruct (connected_spec uf a b Hwf Ha Hb) as (ra & rb & u & E & Ra & Rb).
  exists ra, rb, u. unfold conn. rewrite E. auto.
Qed.

(** X3. [connected] is reflexive and symmetric. *)
Theorem connected_refl_sym (uf : UnionFind) (x y : Key) :
  uf_wf uf -> x < List.length (parent uf) -> y < List.length (parent uf) ->
  (exists u, connected x x uf = Ret true u) /\
  (exists b u1 u2, connected x y uf = Ret b u1 /\ connected y x uf = Ret b u2).
Proof.
  intros Hwf Hx Hy. split.
  - destruct (conn_spec uf x x Hwf Hx Hx) as (r1 & r2 & u & E & R1 & R2 & _).
    assert (r1 = r2) by (eapply root_of_functional; eauto). subst.
    rewrite Nat.eqb_refl in E. eauto.
  - destruct (conn_spec uf x y Hwf Hx Hy) as (r1 & r2 & u & E & R1 & R2 & _).
    destruct (conn_spec uf y x Hwf Hy Hx) as (r3 & r4 & u' & E' & R3 & R4 & _).
    assert (r3 = r2) by (eapply root_of_functional; eauto).
    assert (r4 = r1) by (eapply root_of_functional; eauto). subst.
    rewrite (Nat.eqb_sym r2 r1) in E'. eauto.
Qed.

Lemma connected_refl_sym_witness :
  (exists u, connected 2 2 (mkUF [0; 0; 1] [2; 1; 0]) = Ret true u) /\
  (exists b u1 u2,
     connected 2 0 (mkUF [0; 0; 1] [2; 1; 0]) = Ret b u1 /\
     connected 0 2 (mkUF [0; 0; 1] [2; 1; 0]) = Ret b u2).
Proof.
  apply connected_refl_sym;
    [apply uf_okb_spec; reflexivity | simpl; lia | simpl; lia].
Defined.

Lemma conn_roots uf a b ra rb :
  uf_wf uf -> root_of uf a ra -> root_of uf b rb ->
  conn uf a b = Nat.eqb ra rb.
Proof.
  intros Hwf Ra Rb.
  destruct (conn_spec uf a b Hwf (root_of_lt _ _ _ Ra) (root_of_lt _ _ _ Rb))
    as (ra' & rb' & _ & _ & Ra' & Rb' & E).
  assert (ra' = ra) by (eapply root_of_functional; eauto).
  assert (rb' = rb) by (eapply root_of_functional; eauto).
  now subst.
Qed.

(** X4. [union] returns [null] exactly when its arguments are already
    connected; after it they are connected, and a second [union] of the
    same keys returns [null]. *)
Theorem union_joins (uf : UnionFind) (x y : Key) :
  uf_wf uf -> x < List.length (parent uf) -> y < List.length (parent uf) ->
  exists res uf',
    union x y uf = Ret res uf' /\
    uf_wf uf' /\
    (res = None <-> conn uf x y = true) /\
    conn uf' x y = true /\
    (exists uf'', union x y uf' = Ret None uf'').
Proof.
  intros Hwf Hx Hy.
  destruct (union_roots uf x y Hwf Hx Hy)
    as (rx & ry & res & uf' & E & Rx & Ry & Hwf' & Hlen & Hsame & Hdiff).
  exists res, uf'. split; [exact E|]. split; [exact Hwf'|].
  rewrite (conn_roots uf x y rx ry Hwf Rx Ry).
  assert (Hafter : exists r, root_of uf' x r /\ root_of uf' y r).
  { destruct (Nat.eq_dec rx ry) as [->|Hne].
    - destruct (Hsame eq_refl) as (_ & _ & Hp). exists ry. auto.
    - destruct (Hdiff Hne) as (r & c & _ & Hrc & Hp & _).
      pose proof (Hp x rx Rx) as Px. pose proof (Hp y ry Ry) as Py.
      exists r. destruct Hrc as [[-> ->]|[-> ->]].
      + rewrite Nat.eqb_refl in Py.
        destruct (Nat.eqb_spec rx ry); [contradiction|]. auto.
      + rewrite Nat.eqb_refl in Px.
        destruct (Nat.eqb_spec ry rx); [congruence|]. auto. }
  destruct Hafter as (r & Rx' & Ry').
  split; [|split].
  - destruct (Nat.eqb_spec rx ry) as [Heq|Hne].
    + destruct (Hsame Heq) as (-> & _). tauto.
    + destruct (Hdiff Hne) as (r0 & c0 & -> & _). split; discriminate.
  - rewrite (conn_roots uf' x y r r Hwf' Rx' Ry'). apply Nat.eqb_refl.
  - destruct (union_roots uf' x y Hwf' ltac:(lia) ltac:(lia))
      as (rx2 & ry2 & res2 & uf2 & E2 & Rx2 & Ry2 & _ & _ & Hsame2 & _).
    assert (rx2 = ry2).
    { transitivity r; [|symmetry]; eapply root_of_functional; eauto. }
    destruct (Hsame2 H) as (-> & _). eauto.
Qed.

Lemma union_joins_witness :
  exists res uf',
    union 1 3 (create 4) = Ret res uf' /\
    uf_wf uf' /\
    (res = None <-> conn (create 4) 1 3 = true) /\
    conn uf' 1 3 = true /\
    (exists uf'', union 1 3 uf' = Ret None uf'').
Proof.
  apply union_joins; [apply create_wf | simpl; lia | simpl; lia].
Defined.

Lemma attach_relation (ra rb rx ry r c : nat) :
  rx <> ry ->
  (r = rx /\ c = ry) \/ (r = ry /\ c = rx) ->
  Nat.eqb (if Nat.eqb ra c then r else ra) (if Nat.eqb rb c then r else rb)
  = (Nat.eqb ra rb
     || (Nat.eqb ra rx && Nat.eqb ry rb)
     || (Nat.eqb ra ry && Nat.eqb rx rb))%bool.
Proof.
  intros Hne Hrc. apply Bool.eq_iff_eq_true.
  rewrite !orb_true_iff, !andb_true_iff, !Nat.eqb_eq.
  destruct (Nat.eqb_spec ra c), (Nat.eqb_spec rb c);
    destruct Hrc as [[? ?]|[? ?]]; subst; intuition congruence.
Qed.

(** X5. [union] joins exactly two classes: afterwards two keys are
    connected when they were before, or when one was connected to the
    first argument and the other to the second. *)
Theorem union_relation (uf : UnionFind) (x y a b : Key) :
  uf_wf uf ->
  x < List.length (parent uf) -> y < List.length (parent uf) ->
  a < List.length (parent uf) -> b < List.length (parent uf) ->
  exists res uf',
    union x y uf = Ret res uf' /\
    conn uf' a b =
      (conn uf a b
       || (conn uf a x && conn uf y b)
       || (conn uf a y && conn uf x b))%bool.
Proof.
  intros Hwf Hx Hy Ha Hb.
  destruct (union_roots uf x y Hwf Hx Hy)
    as (rx & ry & res & uf' & E & Rx & Ry & Hwf' & Hlen & Hsame & Hdiff).
  exists res, uf'. split; [exact E|].
  destruct (root_of_total uf a Hwf Ha) as [ra Ra].
  destruct (root_of_total uf b Hwf Hb) as [rb Rb].
  rewrite (conn_roots uf a b ra rb), (conn_roots uf a x ra rx),
    (conn_roots uf y b ry rb), (conn_roots uf a y ra ry),
    (conn_roots uf x b rx rb) by assumption.
  destruct (Nat.eq_dec rx ry) as [Heq|Hne].
  - destruct (Hsame Heq) as (_ & _ & Hp).
    rewrite (conn_roots uf' a b ra rb) by auto. subst ry.
    destruct (Nat.eqb_spec ra rb), (Nat.eqb_spec ra rx), (Nat.eqb_spec rx rb);
      simpl; try reflexivity; congruence.
  - destruct (Hdiff Hne) as (r & c & _ & Hrc & Hp & _).
    rewrite (conn_roots uf' a b _ _ Hwf' (Hp a ra Ra) (Hp b rb Rb)).
    apply attach_relation; assumption.
Qed.

Lemma union_relation_witness :
  exists res uf',
    union 1 3 (create 4) = Ret res uf' /\
    conn uf' 3 1 =
      (conn (create 4) 3 1
       || (conn (create 4) 3 1 && conn (create 4) 3 1)
       || (conn (create 4) 3 3 && conn (create 4) 1 1))%bool.
Proof.
  apply union_relation; [apply create_wf | simpl; lia ..].
Defined.

(** X6. Union by rank: the absorbed root never has the larger rank. The
    ranks change only on a tie; then the root of the first argument survives
    and its rank grows by one. *)
Theorem union_by_rank (uf : UnionFind) (x y : Key) :
  uf_wf uf -> x < List.length (parent uf) -> y < List.length (parent uf) ->
  exists rx res uf',
    union x y uf = Ret res uf' /\
    root_of uf x rx /\
    match res with
    | None => rank uf' = rank uf
    | Some (r, c) =>
        nth c (rank uf) 0 <= nth r (rank uf) 0 /\
        (nth c (rank uf) 0 < nth r (rank uf) 0 -> rank uf' = rank uf) /\
        (nth c (rank uf) 0 = nth r (rank uf) 0 ->
           r = rx /\ rank uf' = upd (rank uf) r (S (nth r (rank uf) 0)))
    end.
Proof.
  intros Hwf Hx Hy.
  destruct (union_roots uf x y Hwf Hx Hy)
    as (rx & ry & res & uf' & E & Rx & Ry & Hwf' & Hlen & Hsame & Hdiff).
  exists rx, res, uf'. split; [exact E|]. split; [exact Rx|].
  destruct (Nat.eq_dec rx ry) as [Heq|Hne].
  - destruct (Hsame Heq) as (-> & Hrk & _). exact Hrk.
  - destruct (Hdiff Hne) as (r & c & -> & _ & _ & H1 & H2 & H3). auto.
Qed.

Lemma union_by_rank_witness :
  exists rx res uf',
    union 3 1 (create 4) = Ret res uf' /\
    root_of (create 4) 3 rx /\
    match res with
    | None => rank uf' = rank (create 4)
    | Some (r, c) =>
        nth c (rank (create 4)) 0 <= nth r (rank (create 4)) 0 /\
        (nth c (rank (create 4)) 0 < nth r (rank (create 4)) 0 ->
           rank uf' = rank (create 4)) /\
        (nth c (rank (create 4)) 0 = nth r (rank (create 4)) 0 ->
           r = rx /\
           rank uf' = upd (rank (create 4)) r (S (nth r (rank (create 4)) 0)))
    end.
Proof.
  apply union_by_rank; [apply create_wf | simpl; lia | simpl; lia].
Defined.

(** X7. [extend] on a well-formed union-find, the empty one included,
    returns the old size as the new key and grows the size by one; the new
    key is a root in a class of its own, the union-find stays well formed,
    and the keys that existed are connected as before. *)
Theorem extend_adds_singleton (uf : UnionFind) :
  uf_wf uf ->
  exists uf',
    extend uf = Ret (size uf) uf' /\
    uf_wf uf' /\
    size uf' = S (size uf) /\
    find (size uf) uf' = Ret (size uf) uf' /\
    (forall x, x < size uf -> conn uf' (size uf) x = false) /\
    (forall x y, x < size uf -> y < size uf -> conn uf' x y = conn uf x y).
Proof.
  intros Hwf. eexists. split; [reflexivity|].
  set (uf' := {| parent := parent uf ++ [List.length (parent uf)];
                 rank := rank uf ++ [0] |}).
  assert (Hwf' : uf_wf uf') by now apply extend_wf.
  assert (Hnew : nth_error (parent uf') (size uf) = Some (size uf)).
  { unfold uf', size. simpl. now rewrite nth_error_middle. }
  split; [exact Hwf'|]. split.
  { unfold uf', size. simpl. rewrite length_app. simpl. lia. }
  split; [now apply find_root|]. split.
  - intros x Hx. destruct (root_of_total uf x Hwf Hx) as [rx Rx].
    pose proof (extend_root_of uf x rx Rx) as Rx'. fold uf' in Rx'.
    rewrite (conn_roots uf' (size uf) x (size uf) rx Hwf'
               (root_of_root _ _ Hnew) Rx').
    apply Nat.eqb_neq. pose proof (root_of_is_root _ _ _ Rx) as H.
    assert (rx < size uf).
    { unfold size. apply nth_error_Some. unfold Key in *. rewrite H. discriminate. }
    lia.
  - intros x y Hx Hy.
    destruct (root_of_total uf x Hwf Hx) as [rx Rx].
    destruct (root_of_total uf y Hwf Hy) as [ry Ry].
    pose proof (extend_root_of uf x rx Rx) as Rx'.
    pose proof (extend_root_of uf y ry Ry) as Ry'.
    fold uf' in Rx', Ry'.
    rewrite (conn_roots uf' x y rx ry Hwf' Rx' Ry').
    now rewrite (conn_roots uf x y rx ry Hwf Rx Ry).
Qed.

Lemma extend_adds_singleton_witness :
  exists uf',
    extend empty = Ret (size empty) uf' /\
    uf_wf uf' /\
    size uf' = S (size empty) /\
    find (size empty) uf' = Ret (size empty) uf' /\
    (forall x, x < size empty -> conn uf' (size empty) x = false) /\
    (forall x y, x < size empty -> y < size empty ->
                 conn uf' x y = conn empty x y).
Proof.
  apply extend_adds_singleton. apply uf_okb_spec. reflexivity.
Defined.

End UnionFindProperties.

(* ------------------------------------------------------------------ *)
(** * Properties of the tokenizer and of the parser *)

Section ParserProperties.

Import Language.
Local Open Scope string_scope.
Local Open Scope list_scope.

(** A token: a parenthesis or an atom. *)
Definition is_token (t : string) : Prop :=
  t = "(" \/ t = ")" \/ is_atom t = true.

(** Strings made of whitespace only. *)
Fixpoint all_space (s : string) : bool :=
  match s with
  | EmptyString => true
  | String c r => is_space c && all_space r
  end.

Lemma atom_chars_snoc cur c :
  atom_chars cur = true -> is_paren c = false -> is_space c = false ->
  atom_chars (cur ++ String c "")%string = true.
Proof.
  intros Hcur Hp Hs. induction cur as [|x cur IH]; simpl in *.
  - now rewrite Hp, Hs.
  - apply andb_true_iff in Hcur as [H1 H2]. rewrite H1. now apply IH.
Qed.

Lemma flush_tokens cur : atom_chars cur = true -> Forall is_token (flush cur).
Proof.
  intros H. destruct cur as [|c cur]; simpl; constructor; [|constructor].
  right; right. exact H.
Qed.

Lemma paren_token c : is_paren c = true -> is_token (String c "").
Proof.
  unfold is_paren. intros H. apply orb_true_iff in H as [H|H];
    apply Nat.eqb_eq in H; rewrite <- (ascii_nat_embedding c), H;
    [left | right; left]; reflexivity.
Qed.

Lemma tokenize_from_tokens input :
  forall cur, atom_chars cur = true -> Forall is_token (tokenize_from cur input).
Proof.
  induction input as [|c rest IH]; intros cur Hcur; simpl.
  - now apply flush_tokens.
  - destruct (is_paren c) eqn:Hp.
    + apply Forall_app. split; [now apply flush_tokens|].
      constructor; [now apply paren_token | now apply IH].
    + destruct (is_space c) eqn:Hs.
      * apply Forall_app. split; [now apply flush_tokens | now apply IH].
      * apply IH. now apply atom_chars_snoc.
Qed.

(** X8. Every token that [tokenize] returns is a parenthesis or an atom: a
    non-empty string without whitespace and without parentheses. *)
Theorem tokenize_gives_tokens (input : string) :
  Forall is_token (tokenize input).
Proof. apply tokenize_from_tokens. reflexivity. Qed.

Lemma tokenize_all_space s rest :
  all_space s = true ->
  tokenize_from "" (s ++ rest)%string = tokenize_from "" rest.
Proof.
  induction s as [|c s IH]; simpl; intros H; [reflexivity|].
  apply andb_true_iff in H as [Hc Hs].
  destruct (is_paren c) eqn:Hp.
  - exfalso. unfold is_paren, is_space in *.
    apply orb_true_iff in Hp as [Hp|Hp]; apply Nat.eqb_eq in Hp;
      rewrite Hp in Hc; discriminate.
  - rewrite Hc. simpl. now apply IH.
Qed.

(** X9. An input made of whitespace only, the empty input included, has no
    token, and both parsers fail with "Unexpected end of input". *)
Theorem blank_input_is_rejected (input : string) :
  all_space input = true ->
  tokenize input = [] /\
  parseTerm input = Err "Unexpected end of input" /\
  parsePattern input = Err "Unexpected end of input".
Proof.
  intros H.
  assert (E : tokenize input = []).
  { unfold tokenize. rewrite <- (append_nil_r input).
    now rewrite tokenize_all_space. }
  unfold parseTerm, parsePattern. rewrite E. auto.
Qed.

Lemma blank_input_is_rejected_witness :
  tokenize "  " = [] /\
  parseTerm "  " = Err "Unexpected end of input" /\
  parsePattern "  " = Err "Unexpected end of input".
Proof. apply blank_input_is_rejected. reflexivity. Defined.

(** X10. An input whose first character after leading whitespace is a
    closing parenthesis is rejected with "Unexpected ')'". *)
Theorem leading_close_is_rejected (blank rest : string) :
  all_space blank = true ->
  parseTerm (blank ++ String ")" rest) = Err "Unexpected ')'" /\
  parsePattern (blank ++ String ")" rest) = Err "Unexpected ')'".
Proof.
  intros H. unfold parseTerm, parsePattern, tokenize.
  rewrite tokenize_all_space by assumption. rewrite tokenize_close.
  unfold parseFuel. cbn [parseSexp nth_error]. auto.
Qed.

Lemma leading_close_is_rejected_witness :
  parseTerm (" " ++ String ")" "a") = Err "Unexpected ')'" /\
  parsePattern (" " ++ String ")" "a") = Err "Unexpected ')'".
Proof. apply leading_close_is_rejected. reflexivity. Defined.

Lemma all_wf_sexp_app l x : all_wf_sexp l -> wf_sexp x -> all_wf_sexp (l ++ [x]).
Proof.
  induction l as [|y l IH]; simpl; intros Hl Hx; [auto|].
  destruct Hl as [Hy Hl]. split; [exact Hy | now apply IH].
Qed.

(** The S-expressions that [parseSexp] builds from tokens have atoms for
    atoms. *)
Lemma parseSexp_wf fuel :
  forall tokens, Forall is_token tokens ->
  (forall pos s next, parseSexp fuel tokens pos = Ok (s, next) -> wf_sexp s) /\
  (forall i acc s next, all_wf_sexp acc ->
     parseItems fuel tokens i acc = Ok (s, next) -> wf_sexp s).
Proof.
  induction fuel as [|f IH]; intros tokens Htok; [split; discriminate|].
  destruct (IH tokens Htok) as [IHs IHi]. split.
  - intros pos s next. cbn [parseSexp].
    destruct (nth_error tokens pos) as [token|] eqn:Ht; [|discriminate].
    destruct (String.eqb_spec token ")"); [discriminate|].
    destruct (String.eqb_spec token "("); cbn [negb].
    + apply IHi. exact I.
    + intros H. inversion H; subst. simpl.
      rewrite Forall_forall in Htok.
      destruct (Htok token (nth_error_In _ _ Ht)) as [T|[T|T]];
        [contradiction | contradiction | exact T].
  - intros i acc s next Hacc. cbn [parseItems].
    destruct (nth_error tokens i) as [token|]; [|discriminate].
    destruct (String.eqb token ")").
    + intros H. inversion H; subst. exact Hacc.
    + destruct (parseSexp f tokens i) as [[elem nx]| |] eqn:Es; try discriminate.
      apply IHi. apply all_wf_sexp_app; [exact Hacc|]. eapply IHs; eauto.
Qed.

Lemma mapResult_Forall2 {A B} (f : A -> result B) l l' :
  mapResult f l = Ok l' -> Forall2 (fun x y => f x = Ok y) l l'.
Proof.
  revert l'. induction l as [|x l IH]; intros l'; cbn [mapResult].
  - intros H. inversion H. constructor.
  - fold (mapResult f). destruct (f x) as [y| |] eqn:Ex; try discriminate.
    destruct (mapResult f l) as [ys| |]; try discriminate.
    intros H. inversion H; subst. constructor; auto.
Qed.

(** The fuel of the parsers suffices on every input: the recursion of
    [parseSexp] never runs out of it. *)
Lemma parseSexp_fuel (tokens : list string) f :
  (forall pos, 2 * (List.length tokens - pos) + 2 <= f ->
     parseSexp f tokens pos <> NoFuel /\
     forall s next, parseSexp f tokens pos = Ok (s, next) -> pos < next) /\
  (forall i acc, 2 * (List.length tokens - i) + 3 <= f ->
     parseItems f tokens i acc <> NoFuel /\
     forall s next, parseItems f tokens i acc = Ok (s, next) -> i < next).
Proof.
  induction f as [|f [IHs IHi]]; [split; intros; lia|]. split.
  - intros pos Hf. cbn [parseSexp].
    destruct (nth_error tokens pos) as [token|] eqn:Ht;
      [|split; [discriminate | intros; discriminate]].
    assert (Hlt : pos < List.length tokens)
      by (apply nth_error_Some; congruence).
    destruct (String.eqb token ")"); [split; [discriminate | intros; discriminate]|].
    destruct (String.eqb token "("); cbn [negb].
    + destruct (IHi (pos + 1) [] ltac:(lia)) as [H1 H2]. split; [exact H1|].
      intros s next E. specialize (H2 s next E). lia.
    + split; [discriminate|]. intros s next E. inversion E. lia.
  - intros i acc Hf. cbn [parseItems].
    destruct (nth_error tokens i) as [token|] eqn:Ht;
      [|split; [discriminate | intros; discriminate]].
    assert (Hlt : i < List.length tokens)
      by (apply nth_error_Some; congruence).
    destruct (String.eqb token ")").
    { split; [discriminate|]. intros s next E. inversion E. lia. }
    destruct (IHs i ltac:(lia)) as [H1 H2].
    destruct (parseSexp f tokens i) as [[elem next]| |] eqn:E1;
      [|split; [discriminate | intros; discriminate] | contradiction].
    specialize (H2 elem next eq_refl).
    destruct (IHi next (acc ++ [elem]) ltac:(lia)) as [H3 H4].
    split; [exact H3|]. intros s next' E. specialize (H4 s next' E). lia.
Qed.

Lemma mapResult_fuel {A B} (f : A -> result B) l :
  Forall (fun x => f x <> NoFuel) l -> mapResult f l <> NoFuel.
Proof.
  induction 1 as [|x l Hx _ IH]; simpl; [discriminate|].
  destruct (f x); [|discriminate | contradiction].
  destruct (mapResult f l); [discriminate | discriminate | contradiction].
Qed.

Lemma sexpToTerm_fuel s : sexpToTerm s <> NoFuel.
Proof.
  induction s as [a | l IH] using Sexp_rect'; [discriminate|].
  destruct l as [|[h|hl] tl]; try discriminate.
  inversion IH as [|? ? _ IHt]; subst. cbn [sexpToTerm].
  pose proof (mapResult_fuel sexpToTerm tl IHt) as H.
  destruct (mapResult sexpToTerm tl); [discriminate | discriminate | contradiction].
Qed.

Lemma sexpToPattern_fuel s : sexpToPattern s <> NoFuel.
Proof.
  induction s as [a | l IH] using Sexp_rect'.
  - simpl. destruct (startsWithQ a); discriminate.
  - destruct l as [|[h|hl] tl]; try discriminate.
    inversion IH as [|? ? _ IHt]; subst. cbn [sexpToPattern].
    pose proof (mapResult_fuel sexpToPattern tl IHt) as H.
    destruct (mapResult sexpToPattern tl); [discriminate | discriminate | contradiction].
Qed.

Lemma parse_fuel_suffices (input : string) :
  parseTerm input <> NoFuel /\ parsePattern input <> NoFuel.
Proof.
  unfold parseTerm, parsePattern.
  destruct (parseSexp_fuel (tokenize input) (parseFuel (tokenize input)))
    as [Hs _].
  destruct (Hs 0) as [H _]; [unfold parseFuel; lia|].
  destruct (parseSexp (parseFuel (tokenize input)) (tokenize input) 0)
    as [[s pos]| |]; [|split; discriminate | contradiction].
  destruct (Nat.ltb pos (List.length (tokenize input))); [split; discriminate|].
  split; [apply sexpToTerm_fuel | apply sexpToPattern_fuel].
Qed.

Lemma sexpToTerm_wf s :
  forall t, wf_sexp s -> sexpToTerm s = Ok t -> wf_term t.
Proof.
  induction s as [a | l IH] using Sexp_rect'; intros t Hwf E.
  - simpl in E. inversion E; subst. split; [exact Hwf | exact I].
  - destruct l as [|hd tail]; [discriminate|].
    destruct hd as [h|hl]; [|discriminate].
    cbn [sexpToTerm] in E.
    destruct (mapResult sexpToTerm tail) as [cs| |] eqn:Em; try discriminate.
    inversion E; subst. destruct Hwf as [Hh Htail].
    split; [exact Hh|]. fold (all_wf_term cs). fold (all_wf_sexp tail) in Htail.
    inversion IH as [|? ? _ IHtail]; subst.
    apply mapResult_Forall2 in Em. clear E Hh IH.
    induction Em as [|x y l l' Hxy _ IHl]; [exact I|].
    destruct Htail as [Hx Hl]. inversion IHtail as [|? ? Hx1 Hl1]; subst.
    split; [now apply (Hx1 y) | now apply IHl].
Qed.

(** X11. A term that [parseTerm] returns is well formed, so printing it and
    parsing the text gives it back: [parseTerm], then [printTerm], then
    [parseTerm] is [parseTerm]. *)
Theorem parseTerm_output_reparses (input : string) (t : Term) :
  parseTerm input = Ok t ->
  wf_term t /\ parseTerm (printTerm t) = Ok t.
Proof.
  intros H.
  assert (Hwf : wf_term t).
  { unfold parseTerm in H.
    destruct (parseSexp (parseFuel (tokenize input)) (tokenize input) 0)
      as [[s pos]| |] eqn:Es; try discriminate.
    destruct (Nat.ltb pos (List.length (tokenize input))); [discriminate|].
    apply (sexpToTerm_wf s); [|exact H].
    eapply (proj1 (parseSexp_wf _ _ (tokenize_gives_tokens input))); eauto. }
  split; [exact Hwf | now apply parseTerm_printTerm].
Qed.

Lemma parseTerm_output_reparses_witness :
  wf_term (mkTerm "+" [mkTerm "a" []; mkTerm "b" []]) /\
  parseTerm (printTerm (mkTerm "+" [mkTerm "a" []; mkTerm "b" []]))
  = Ok (mkTerm "+" [mkTerm "a" []; mkTerm "b" []]).
Proof.
  apply (parseTerm_output_reparses "  ( +   a    b )  "). reflexivity.
Defined.

Lemma tokens_of_nonempty s : tokens_of s <> [].
Proof. destruct s; discriminate. Qed.

(** X12. Two well-formed terms written one after the other are rejected:
    [parseTerm] reads exactly one term, and the message is
    "Unexpected tokens: " followed by the tokens of the second term,
    separated by spaces. *)
Theorem trailing_term_is_rejected (t t' : Term) :
  wf_term t -> wf_term t' ->
  parseTerm (printTerm t ++ " " ++ printTerm t')%string
  = Err ("Unexpected tokens: " ++ join (tokenize (printTerm t')))%string.
Proof.
  intros Ht Ht'. unfold parseTerm, tokenize.
  pose proof (wf_sexp_of_term t Ht) as Hs.
  pose proof (wf_sexp_of_term t' Ht') as Hs'.
  rewrite !printTerm_sexp.
  assert (E' : tokenize_from "" (printSexp (sexp_of_term t'))
               = tokens_of (sexp_of_term t')).
  { rewrite <- (append_nil_r (printSexp (sexp_of_term t'))).
    rewrite tokenize_printSexp by (assumption || exact I).
    apply app_nil_r. }
  rewrite E'.
  rewrite tokenize_printSexp by (assumption || (simpl; right; reflexivity)).
  change (" " ++ printSexp (sexp_of_term t'))%string
    with (String " " (printSexp (sexp_of_term t'))).
  rewrite tokenize_space. rewrite E'.
  set (ts := tokens_of (sexp_of_term t)). set (ts' := tokens_of (sexp_of_term t')).
  pose proof (parseSexp_tokens (sexp_of_term t) Hs [] ts' (parseFuel (ts ++ ts'))) as P.
  cbn [app List.length Nat.add] in P. fold ts in P. rewrite P.
  - assert (Hne : ts' <> []) by apply tokens_of_nonempty.
    rewrite length_app.
    destruct (Nat.ltb_spec (List.length ts) (List.length ts + List.length ts'));
      [|destruct ts'; [contradiction | simpl in *; lia]].
    rewrite skipn_app, skipn_all, Nat.sub_diag. reflexivity.
  - unfold parseFuel. rewrite length_app. lia.
Qed.

Lemma trailing_term_is_rejected_witness :
  parseTerm (printTerm (mkTerm "a" []) ++ " "
             ++ printTerm (mkTerm "f" [mkTerm "b" []]))%string
  = Err ("Unexpected tokens: "
         ++ join (tokenize (printTerm (mkTerm "f" [mkTerm "b" []]))))%string.
Proof.
  apply trailing_term_is_rejected; simpl; intuition (reflexivity || discriminate).
Defined.

Lemma tokenize_items_gen (l : list Sexp) :
  all_wf_sexp l ->
  forall rest, delimited rest ->
  tokenize_from "" (join (map printSexp l) ++ rest)%string
  = flat_map tokens_of l ++ tokenize_from "" rest.
Proof.
  induction l as [|x l IH]; intros Hwf rest Hd; [reflexivity|].
  destruct Hwf as [Hx Hl]. destruct l as [|y l].
  - cbn [map join String.concat flat_map]. rewrite app_nil_r.
    now apply tokenize_printSexp.
  - change (join (map printSexp (x :: y :: l)))
      with (printSexp x ++ String " " (join (map printSexp (y :: l))))%string.
    rewrite append_assoc'.
    rewrite tokenize_printSexp; [|assumption|simpl; right; reflexivity].
    change (String " " (join (map printSexp (y :: l))) ++ rest)%string
      with (String " " (join (map printSexp (y :: l)) ++ rest)%string).
    rewrite tokenize_space, (IH Hl rest Hd).
    cbn [flat_map]. now rewrite !app_assoc.
Qed.

Lemma parseItems_end (l : list Sexp) :
  all_wf_sexp l ->
  forall pre acc f,
  List.length (flat_map tokens_of l) + 1 <= f ->
  parseItems f (pre ++ flat_map tokens_of l) (List.length pre) acc
  = Err "Expected ')'".
Proof.
  induction l as [|x l IH]; intros Hwf pre acc f Hf.
  - destruct f as [|f]; [simpl in Hf; lia|].
    cbn [flat_map parseItems]. rewrite app_nil_r.
    now rewrite (proj2 (nth_error_None pre (List.length pre)) (Nat.le_refl _)).
  - destruct Hwf as [Hx Hl]. destruct f as [|f]; [lia|].
    cbn [flat_map] in *. rewrite length_app in Hf.
    destruct (tokens_of_head x Hx) as (tk & rest & Etk & Hne).
    assert (Hlen : 1 <= List.length (tokens_of x)) by (rewrite Etk; simpl; lia).
    cbn [parseItems].
    replace (nth_error (pre ++ tokens_of x ++ flat_map tokens_of l) (List.length pre))
      with (Some tk).
    2:{ rewrite Etk. cbn [app]. now rewrite nth_error_middle. }
    rewrite Hne.
    rewrite (parseSexp_tokens x Hx pre _ f) by lia.
    replace (pre ++ tokens_of x ++ flat_map tokens_of l)
      with ((pre ++ tokens_of x) ++ flat_map tokens_of l)
      by now rewrite <- app_assoc.
    replace (List.length pre + List.length (tokens_of x))
      with (List.length (pre ++ tokens_of x)) by now rewrite length_app.
    apply (IH Hl). lia.
Qed.

(** X13. A list that is never closed is rejected with "Expected ')'": the
    text of a well-formed node without its closing parenthesis. *)
Theorem unclosed_list_is_rejected (op : string) (cs : list Term) :
  wf_term (mkTerm op cs) ->
  parseTerm ("(" ++ join (op :: map printTerm cs))%string = Err "Expected ')'".
Proof.
  intros Hwf.
  assert (Hitems : all_wf_sexp (Atom op :: map sexp_of_term cs)).
  { destruct Hwf as [Hop Hcs]. split; [exact Hop|]. fold (all_wf_term cs) in Hcs.
    clear Hop. induction cs as [|c cs IH]; [exact I|].
    destruct Hcs as [Hc Hcs]. split; [now apply wf_sexp_of_term | now apply IH]. }
  assert (Etext : join (op :: map printTerm cs)
                  = join (map printSexp (Atom op :: map sexp_of_term cs))).
  { cbn [map printSexp]. f_equal. f_equal. rewrite map_map.
    apply map_ext. intros c. apply printTerm_sexp. }
  unfold parseTerm, tokenize. rewrite Etext.
  change ("(" ++ join (map printSexp (Atom op :: map sexp_of_term cs)))%string
    with (String "(" (join (map printSexp (Atom op :: map sexp_of_term cs)))).
  rewrite tokenize_open.
  rewrite <- (append_nil_r (join _)).
  rewrite (tokenize_items_gen _ Hitems "" I).
  cbn [tokenize_from flush]. rewrite app_nil_r.
  set (items := flat_map tokens_of (Atom op :: map sexp_of_term cs)).
  unfold parseFuel. cbn [parseSexp nth_error List.length].
  change (String.eqb "(" ")") with false. change (String.eqb "(" "(") with true.
  cbn [negb Nat.add].
  match goal with
  | |- context [parseItems ?f _ _ _] =>
      pose proof (parseItems_end _ Hitems ["("] [] f) as P
  end.
  fold items in P. cbn [app List.length] in P. rewrite P; [reflexivity | lia].
Qed.

Lemma unclosed_list_is_rejected_witness :
  parseTerm ("(" ++ join ("f" :: map printTerm [mkTerm "g" [mkTerm "a" []]]))%string
  = Err "Expected ')'".
Proof.
  apply unclosed_list_is_rejected; simpl; intuition reflexivity.
Defined.

(** S-expressions in which every list is non-empty and begins with an
    atom. *)
Fixpoint node_shaped (s : Sexp) : bool :=
  match s with
  | Atom _ => true
  | SList [] => false
  | SList (Atom _ :: tail) => forallb node_shaped tail
  | SList (SList _ :: _) => false
  end.

Lemma mapResult_shaped {B} (f : Sexp -> result B) (l : list Sexp) :
  Forall (fun x => if node_shaped x then exists y, f x = Ok y
                   else exists m, f x = Err m) l ->
  if forallb node_shaped l then exists ys, mapResult f l = Ok ys
  else exists m, mapResult f l = Err m.
Proof.
  induction 1 as [|x l Hx _ IH]; cbn [forallb mapResult].
  - now exists [].
  - fold (mapResult f). destruct (node_shaped x).
    + destruct Hx as [y ->]. cbn [andb].
      destruct (forallb node_shaped l).
      * destruct IH as [ys ->]. eauto.
      * destruct IH as [m ->]. eauto.
    + destruct Hx as [m ->]. cbn [andb]. eauto.
Qed.

(** X14. The conversions from S-expressions fail exactly on an empty list
    and on a list whose head is a list: [sexpToTerm] and [sexpToPattern]
    return a value when every list of the S-expression is non-empty and
    begins with an atom, and throw otherwise. *)
Theorem conversion_fails_on_list_shape (s : Sexp) :
  if node_shaped s
  then (exists t, sexpToTerm s = Ok t) /\ (exists p, sexpToPattern s = Ok p)
  else (exists m, sexpToTerm s = Err m) /\ (exists m, sexpToPattern s = Err m).
Proof.
  induction s as [a | l IH] using Sexp_rect'.
  - simpl. split; [eauto|]. destruct (startsWithQ a); eauto.
  - destruct l as [|hd tail]; [simpl; eauto|].
    destruct hd as [h|hl]; [|simpl; eauto].
    inversion IH as [|? ? _ IHt]; subst.
    cbn [node_shaped sexpToTerm sexpToPattern].
    assert (Ht := mapResult_shaped sexpToTerm tail).
    assert (Hp := mapResult_shaped sexpToPattern tail).
    destruct (forallb node_shaped tail).
    + destruct Ht as [ts ->].
      { eapply Forall_impl; [|exact IHt]. intros x Hx. cbv beta in *.
        destruct (node_shaped x); destruct Hx; assumption. }
      destruct Hp as [ps ->].
      { eapply Forall_impl; [|exact IHt]. intros x Hx. cbv beta in *.
        destruct (node_shaped x); destruct Hx; assumption. }
      eauto.
    + destruct Ht as [m ->].
      { eapply Forall_impl; [|exact IHt]. intros x Hx. cbv beta in *.
        destruct (node_shaped x); destruct Hx; assumption. }
      destruct Hp as [m' ->].
      { eapply Forall_impl; [|exact IHt]. intros x Hx. cbv beta in *.
        destruct (node_shaped x); destruct Hx; assumption. }
      eauto.
Qed.

End ParserProperties.

(* ------------------------------------------------------------------ *)
(** * Properties of egraph.ts: insertion *)

Section InsertionProperties.

Import UF EG.
Local Open Scope monad_scope.

Lemma ids_ok_mono n m l : ids_ok n l -> n <= m -> ids_ok m l.
Proof.
  unfold ids_ok. intros H Hle. eapply Forall_impl; [|exact H].
  intros a Ha. simpl in Ha. lia.
Qed.

Lemma entries_ok_mono n m l : entries_ok n l -> n <= m -> entries_ok m l.
Proof.
  unfold entries_ok. intros H Hle. eapply Forall_impl; [|exact H].
  intros a [H1 H2]. split; [eapply ids_ok_mono; eauto | lia].
Qed.

Lemma eclass_ok_mono n m ec : eclass_ok n ec -> n <= m -> eclass_ok m ec.
Proof.
  intros [H1 H2] Hle. split;
    [eapply ids_ok_mono; eauto | eapply entries_ok_mono; eauto].
Qed.

Lemma hashcons_ok_mono n m h : hashcons_ok n h -> n <= m -> hashcons_ok m h.
Proof.
  unfold hashcons_ok. intros H Hle. eapply Forall_impl; [|exact H].
  intros a. cbv beta. destruct (snd a); [lia | trivial].
Qed.

Lemma hashcons_ok_set n e v h :
  hashcons_ok n h -> opt_ok n v -> hashcons_ok n (map_set enode_eqb e v h).
Proof.
  intros Hh Hv. unfold hashcons_ok in *.
  assert (H : Forall (fun x : ENode * option EClassId => True /\ opt_ok n (snd x))
                (map_set enode_eqb e v h)).
  { apply (Forall_map_set enode_eqb (fun _ => True) (opt_ok n)); auto.
    eapply Forall_impl; [|exact Hh]. intros a Ha. split; [exact I | exact Ha]. }
  eapply Forall_impl; [|exact H]. intros a [_ Ha]. exact Ha.
Qed.

Lemma map_get_set_same {K V} (keq : K -> K -> bool) k (v : V) m :
  keq k k = true -> map_get keq k (map_set keq k v m) = Some v.
Proof.
  intros Hk. induction m as [|[k' v'] m IH]; simpl.
  - now rewrite Hk.
  - destruct (keq k k') eqn:E; simpl; rewrite E; [reflexivity | exact IH].
Qed.

Lemma length_map_set {K V} (keq : K -> K -> bool) k (v : V) m :
  List.length m <= List.length (map_set keq k v m) <= S (List.length m).
Proof.
  induction m as [|[k' v'] m IH]; simpl; [lia|].
  destruct (keq k k'); simpl; lia.
Qed.

Lemma Forall_nth_error {A} (P : A -> Prop) (l : list A) :
  (forall i x, nth_error l i = Some x -> P x) -> Forall P l.
Proof.
  intros H. apply Forall_forall. intros x Hx.
  destruct (In_nth_error _ _ Hx) as [i Hi]. eauto.
Qed.

Lemma roots_Forall2 uf l l' :
  Forall2 (root_of uf) l l' -> Forall (fun r => r < List.length (parent uf)) l'.
Proof.
  induction 1 as [|x r l l' H _ IH]; constructor; [|exact IH].
  apply nth_error_Some. pose proof (root_of_is_root _ _ _ H) as Hr.
  unfold Key in *. rewrite Hr. discriminate.
Qed.

(** [add] keeps the invariant. *)
Lemma add_inv g enode0 :
  egraph_inv g -> ids_ok (gsize g) (children enode0) ->
  exists eid g',
    add enode0 g = Ret eid g' /\
    egraph_inv g' /\
    eid < gsize g' /\
    gsize g <= gsize g' /\
    classCount g <= classCount g' <= S (classCount g) /\
    nodeCount g <= nodeCount g' <= S (nodeCount g).
Proof.
  intros Hinv Hok.
  destruct (add_spec g enode0 Hinv Hok)
    as (eid & e & g' & E & _ & Hcan & Hwf & Hsz & Hroot & Hcl & Hst & Hnew).
  exists eid, g'. split; [exact E|].
  assert (He : ids_ok (gsize g) (children e)) by (eapply roots_Forall2; eauto).
  destruct Hnew as [(A & B & C & D & F) | (A & B & C & D & F & G)].
  - assert (Hinv' : egraph_inv g').
    { constructor.
      - exact Hwf.
      - intros r Hr. pose proof (isroot_lt g' r Hr) as Hlt. rewrite D in Hlt.
        destruct (root_of_total _ r (inv_uf g Hinv) Hlt) as [r0 H0].
        pose proof (Hroot r r0 Hlt H0) as H1.
        assert (r0 = r)
          by (eapply root_of_functional; [exact H1 | now apply root_of_root]).
        subst r0. pose proof (root_of_is_root _ _ _ H0) as Hr0.
        destruct (inv_roots g Hinv r Hr0) as (x & X1 & X2).
        exists x. rewrite Hcl by assumption. rewrite A. auto.
      - rewrite A, D. apply (inv_store g Hinv).
      - rewrite C, D. apply (inv_hashcons g Hinv). }
    split; [exact Hinv'|]. split.
    + pose proof (hashcons_get_ok g' e Hinv') as Ho. rewrite F in Ho. exact Ho.
    + unfold classCount, nodeCount. rewrite B, C, D. lia.
  - assert (Hinv' : egraph_inv g').
    { constructor.
      - exact Hwf.
      - intros r Hr. pose proof (isroot_lt g' r Hr) as Hlt. rewrite B in Hlt.
        destruct (Nat.eq_dec r (gsize g)) as [->|Hne].
        + exists (List.length (store g)). split; [|lia].
          unfold classes_get. rewrite F, A. apply map_get_set_same, Nat.eqb_refl.
        + assert (Hlt' : r < gsize g) by lia.
          destruct (root_of_total _ r (inv_uf g Hinv) Hlt') as [r0 H0].
          pose proof (Hroot r r0 Hlt' H0) as H1.
          assert (r0 = r)
            by (eapply root_of_functional; [exact H1 | now apply root_of_root]).
          subst r0. pose proof (root_of_is_root _ _ _ H0) as Hr0.
          destruct (inv_roots g Hinv r Hr0) as (x & X1 & X2).
          exists x. rewrite Hcl by assumption. split; [exact X1 | lia].
      - apply Forall_nth_error. intros i x Hi.
        assert (Hil : i < List.length (store g'))
          by (apply nth_error_Some; rewrite Hi; discriminate).
        destruct (Nat.eq_dec i (List.length (store g))) as [->|Hne].
        + rewrite D in Hi. inversion Hi; subst x. split; simpl.
          * eapply ids_ok_mono; [exact He | lia].
          * constructor.
        + destruct (nth_error (store g) i) as [ec|] eqn:Hec;
            [|apply nth_error_None in Hec; lia].
          destruct (Hst i ec Hec) as (ec' & H1 & _ & H3 & H4 & _).
          assert (x = ec') by congruence. subst x.
          destruct (inv_store_nth g i ec Hinv Hec) as [Ho Hp].
          split; [rewrite H3; eapply ids_ok_mono; [exact Ho | lia]|].
          destruct H4 as [->| ->].
          * eapply entries_ok_mono; [exact Hp | lia].
          * apply entries_ok_set.
            -- eapply entries_ok_mono; [exact Hp | lia].
            -- eapply ids_ok_mono; [exact He | lia].
            -- lia.
      - rewrite G. apply hashcons_ok_set.
        + eapply hashcons_ok_mono; [apply (inv_hashcons g Hinv) | lia].
        + simpl. lia. }
    split; [exact Hinv'|]. split; [lia|]. split; [lia|].
    unfold classCount, nodeCount. rewrite F, G.
    split; apply length_map_set.
Qed.

Lemma Forall2_root_functional uf l a b :
  Forall2 (root_of uf) l a -> Forall2 (root_of uf) l b -> a = b.
Proof.
  intros H; revert b. induction H as [|x r l a Hr _ IH]; intros b Hb.
  - now inversion Hb.
  - inversion Hb as [|? r' ? b' Hr' Hb']; subst.
    f_equal; [eapply root_of_functional; eauto | now apply IH].
Qed.

Lemma Forall2_root_mono (uf uf' : UnionFind) l a :
  (forall z r, root_of uf z r -> root_of uf' z r) ->
  Forall2 (root_of uf) l a -> Forall2 (root_of uf') l a.
Proof. intros H. induction 1; constructor; auto. Qed.

Lemma enode_ext (a b : ENode) : op a = op b -> children a = children b -> a = b.
Proof. destruct a, b; simpl; intros; subst; reflexivity. Qed.

(** X15. [add] on a well-formed e-graph returns an id of the union-find and
    leaves the e-graph well formed; the class count and the node count
    each stay or grow by one. *)
Theorem add_keeps_invariant (g : EGraph) (enode0 : ENode) :
  egraph_inv g -> ids_ok (gsize g) (children enode0) ->
  exists eid g',
    add enode0 g = Ret eid g' /\
    egraph_inv g' /\
    eid < gsize g' /\
    classCount g <= classCount g' <= S (classCount g) /\
    nodeCount g <= nodeCount g' <= S (nodeCount g).
Proof.
  intros Hinv Hok.
  destruct (add_inv g enode0 Hinv Hok) as (eid & g' & E & I & L & _ & C & N).
  exists eid, g'. auto.
Qed.

Lemma add_keeps_invariant_witness :
  exists eid g',
    add (mkENode "g" [1; 0]) graph_fa = Ret eid g' /\
    egraph_inv g' /\
    eid < gsize g' /\
    classCount graph_fa <= classCount g' <= S (classCount graph_fa) /\
    nodeCount graph_fa <= nodeCount g' <= S (nodeCount graph_fa).
Proof.
  apply add_keeps_invariant;
    [apply egraph_ok_inv; reflexivity | apply ids_okb_spec; reflexivity].
Defined.

Lemma keys_map_set {V} (k : nat) (v : V) m :
  map fst (map_set Nat.eqb k v m) = map fst m \/
  (~ In k (map fst m) /\ map fst (map_set Nat.eqb k v m) = map fst m ++ [k]).
Proof.
  induction m as [|[k' v'] m IH]; simpl.
  - right. split; [tauto | reflexivity].
  - destruct (Nat.eqb_spec k k') as [->|Hne]; simpl; [now left|].
    destruct IH as [IH | [Hout IH]]; [left | right]; rewrite IH; [reflexivity|].
    split; [|reflexivity]. intros [H|H]; [congruence | contradiction].
Qed.

Lemma NoDup_map_set {V} (k : nat) (v : V) m :
  NoDup (map fst m) -> NoDup (map fst (map_set Nat.eqb k v m)).
Proof.
  intros Hnd. destruct (keys_map_set k v m) as [E | [Hout E]]; rewrite E.
  - exact Hnd.
  - eapply Permutation_NoDup; [apply Permutation_cons_append|].
    now constructor.
Qed.

(** X28. [add] keeps the keys of [classes] distinct, as the keys of a map
    are: the state that [merge] expects is the one that [add] leaves. *)
Theorem add_keeps_keys_distinct (g : EGraph) (enode0 : ENode) :
  egraph_inv g -> ids_ok (gsize g) (children enode0) -> keys_distinct g ->
  exists eid g',
    add enode0 g = Ret eid g' /\ egraph_inv g' /\ keys_distinct g'.
Proof.
  intros Hinv Hok Hkeys.
  destruct (add_inv g enode0 Hinv Hok) as (eid & g' & E & I & _).
  destruct (add_spec g enode0 Hinv Hok)
    as (eid0 & e & g0 & E0 & _ & _ & _ & _ & _ & _ & _ & Hnew).
  rewrite E in E0. inversion E0; subst eid0 g0.
  exists eid, g'. split; [exact E|]. split; [exact I|].
  unfold keys_distinct in *.
  destruct Hnew as [(_ & B & _) | (_ & _ & _ & _ & D & _)].
  - now rewrite B.
  - rewrite D. now apply NoDup_map_set.
Qed.

Lemma add_keeps_keys_distinct_witness :
  exists eid g',
    add (mkENode "g" [1; 0]) graph_fa = Ret eid g' /\
    egraph_inv g' /\ keys_distinct g'.
Proof.
  apply add_keeps_keys_distinct;
    [apply egraph_ok_inv; reflexivity | apply ids_okb_spec; reflexivity
    | apply keys_distinctb_spec; reflexivity].
Defined.

(** Adding a node that was just added. *)
Lemma add_again g enode0 :
  egraph_inv g -> ids_ok (gsize g) (children enode0) ->
  exists eid g' g'',
    add enode0 g = Ret eid g' /\
    add enode0 g' = Ret eid g'' /\
    uf_only g' g''.
Proof.
  intros Hinv Hok.
  destruct (add_spec g enode0 Hinv Hok)
    as (eid & e & g' & E & Hop & Hcan & Hwf & Hsz & Hroot & Hcl & Hst & Hnew).
  destruct (add_inv g enode0 Hinv Hok) as (eid0 & g0 & E0 & Hinv' & _).
  rewrite E in E0. inversion E0; subst eid0 g0. clear E0.
  assert (Hget : hashcons_get e g' = Some eid).
  { destruct Hnew as [(_ & _ & _ & _ & F) | (_ & _ & _ & _ & _ & G)]; [exact F|].
    unfold hashcons_get. rewrite G.
    rewrite map_get_set_same; [reflexivity | apply enode_eqb_refl]. }
  assert (Hok' : ids_ok (gsize g') (children enode0))
    by (eapply ids_ok_mono; eauto).
  assert (H2 : exists g'', add enode0 g' = Ret eid g'' /\ uf_only g' g'');
    [|destruct H2 as (g'' & H2 & H3); exists eid, g', g''; auto].
  rewrite add_unfold.
  destruct (canonicalize_spec g' enode0 Hinv' Hok')
    as (e2 & g2 & E2 & U2 & Hop2 & _ & Hcan2).
  rewrite E2.
  assert (e2 = e).
  { apply enode_ext; [congruence|].
    eapply Forall2_root_functional; [exact Hcan2|].
    eapply Forall2_root_mono; [|exact Hcan].
    intros z r Hz. apply Hroot; [|exact Hz]. eapply root_of_lt; eauto. }
  subst e2.
  assert (Hget2 : hashcons_get e g2 = Some eid)
    by (unfold hashcons_get in *; now rewrite (uo_hashcons _ _ U2)).
  rewrite Hget2. exists g2. auto.
Qed.

(** X16. [add] is idempotent: adding the same node again, with no [merge] in
    between, returns the same id and allocates nothing; only the paths of
    the union-find may be compressed. *)
Theorem add_is_idempotent (g : EGraph) (enode0 : ENode) :
  egraph_inv g -> ids_ok (gsize g) (children enode0) ->
  exists eid g' g'',
    add enode0 g = Ret eid g' /\
    add enode0 g' = Ret eid g'' /\
    store g'' = store g' /\
    classes g'' = classes g' /\
    hashcons g'' = hashcons g' /\
    gsize g'' = gsize g'.
Proof.
  intros Hinv Hok.
  destruct (add_again g enode0 Hinv Hok) as (eid & g' & g'' & E1 & E2 & U).
  exists eid, g', g''. destruct U as [U1 U2 U3 U4 _ _ _].
  split; [exact E1|]. split; [exact E2|]. auto.
Qed.

Lemma add_is_idempotent_witness :
  exists eid g' g'',
    add (mkENode "g" [1; 0]) graph_fa = Ret eid g' /\
    add (mkENode "g" [1; 0]) g' = Ret eid g'' /\
    store g'' = store g' /\
    classes g'' = classes g' /\
    hashcons g'' = hashcons g' /\
    gsize g'' = gsize g'.
Proof.
  apply add_is_idempotent;
    [apply egraph_ok_inv; reflexivity | apply ids_okb_spec; reflexivity].
Defined.

Lemma mapM_find_roots cs :
  forall g, Forall (isroot g) cs ->
  mapM (fun eid => liftUF (find eid)) cs g = Ret cs g.
Proof.
  induction cs as [|c cs IH]; intros g H; [reflexivity|].
  inversion H as [|? ? Hc Hcs]; subst.
  cbn [mapM]. fold (mapM (fun eid => liftUF (find eid))).
  unfold bind at 1. unfold liftUF at 1. rewrite (find_root _ _ Hc).
  replace (set_unionFind g (unionFind g)) with g by (now destruct g).
  unfold bind at 1. rewrite (IH g Hcs). reflexivity.
Qed.

(** X17. [canonicalize] replaces every child by its representative, keeps
    the operator and the arity, and is idempotent: a canonical node is
    returned as it is, with no change of the state. *)
Theorem canonicalize_is_idempotent (g : EGraph) (enode : ENode) :
  egraph_inv g -> ids_ok (gsize g) (children enode) ->
  exists enode' g',
    canonicalize enode g = Ret enode' g' /\
    op enode' = op enode /\
    Forall2 (root_of (unionFind g)) (children enode) (children enode') /\
    canonicalize enode' g' = Ret enode' g'.
Proof.
  intros Hinv Hok.
  destruct (canonicalize_spec g enode Hinv Hok)
    as (e & g' & E & U & Hop & Hroots & Hcan).
  exists e, g'. split; [exact E|]. split; [exact Hop|]. split; [exact Hcan|].
  unfold canonicalize, bind. rewrite (mapM_find_roots _ _ Hroots).
  now destruct e.
Qed.

Lemma canonicalize_is_idempotent_witness :
  exists enode' g',
    canonicalize (mkENode "g" [1; 0]) graph_fa = Ret enode' g' /\
    op enode' = op (mkENode "g" [1; 0]) /\
    Forall2 (root_of (unionFind graph_fa))
      (children (mkENode "g" [1; 0])) (children enode') /\
    canonicalize enode' g' = Ret enode' g'.
Proof.
  apply canonicalize_is_idempotent;
    [apply egraph_ok_inv; reflexivity | apply ids_okb_spec; reflexivity].
Defined.

(** Pairwise relation of two lists of the same length. *)
Section All2.
Context {A B : Type} (P : A -> B -> Prop).

Fixpoint all2 (l : list A) (l' : list B) : Prop :=
  match l, l' with
  | [], [] => True
  | x :: xs, y :: ys => P x y /\ all2 xs ys
  | _, _ => False
  end.
End All2.

Lemma all2_impl {A B} (P Q : A -> B -> Prop) l :
  Forall (fun x => forall y, P x y -> Q x y) l ->
  forall l', all2 P l l' -> all2 Q l l'.
Proof.
  induction 1 as [|x l Hx _ IH]; intros [|y l']; simpl; auto.
  intros [H1 H2]. split; auto.
Qed.

(** The two outcomes of [add], after the canonical node [e] is computed. *)
Lemma add_cases g enode0 :
  egraph_inv g -> ids_ok (gsize g) (children enode0) ->
  exists e g1,
    canonicalize enode0 g = Ret e g1 /\
    uf_only g g1 /\
    match hashcons_get e g1 with
    | Some eid => add enode0 g = Ret eid g1
    | None =>
        exists g', add enode0 g = Ret (gsize g) g' /\
          unionFind g' =
            mkUF (parent (unionFind g1) ++ [gsize g]) (rank (unionFind g1) ++ [0])
    end.
Proof.
  intros Hinv Hok. rewrite add_unfold.
  destruct (canonicalize_spec g enode0 Hinv Hok)
    as (e & g1 & E & U & Hop & Hroots & Hcan).
  rewrite E. exists e, g1. split; [reflexivity|]. split; [exact U|].
  pose proof (inv_uf_only _ _ Hinv U) as Hinv1.
  pose proof (uo_size _ _ U) as Hsz.
  destruct (hashcons_get e g1) as [eid|] eqn:Hh; [reflexivity|].
  destruct (add_loop_spec e (gsize g1) (children e) (add_fresh g1 e))
    as (g2 & E2 & Hu & _).
  { intros c Hc. rewrite Forall_forall in Hroots. specialize (Hroots c Hc).
    destruct (inv_roots g1 Hinv1 c Hroots) as (r & Hr & Hl).
    exists r. split.
    - unfold classes_get, add_fresh in *. simpl. rewrite <- Hr.
      apply map_get_set_ne. pose proof (isroot_lt _ _ Hroots). lia.
    - unfold add_fresh. simpl. rewrite length_app. simpl. lia. }
  rewrite E2. exists g2. rewrite <- Hsz. split; [reflexivity|].
  rewrite Hu. reflexivity.
Qed.

(** What a later state keeps of an earlier one when nodes are only added:
    the representatives of the ids and the bindings of [hashcons]. *)
Record ext (g h : EGraph) : Prop := mkExt {
  ext_root_of : forall z r,
    root_of (unionFind g) z r -> root_of (unionFind h) z r;
  ext_hashcons : forall n e, hashcons_get n g = Some e -> hashcons_get n h = Some e;
  ext_size : gsize g <= gsize h
}.

Lemma ext_refl g : ext g g.
Proof. constructor; auto. Qed.

Lemma ext_trans g1 g2 g3 : ext g1 g2 -> ext g2 g3 -> ext g1 g3.
Proof.
  intros [A1 B1 C1] [A2 B2 C2]. constructor; auto. lia.
Qed.

Lemma uf_only_ext g h : uf_only g h -> ext g h.
Proof.
  intros U. constructor.
  - apply (uo_root_of _ _ U).
  - intros n e. unfold hashcons_get. now rewrite (uo_hashcons _ _ U).
  - rewrite (uo_size _ _ U). lia.
Qed.

Lemma ids_eqb_eq a : forall b, ids_eqb a b = true -> a = b.
Proof.
  induction a as [|x a IH]; intros [|y b]; simpl; try discriminate; auto.
  intros H. apply andb_true_iff in H as [H1 H2].
  apply Nat.eqb_eq in H1. f_equal; auto.
Qed.

Lemma enode_eqb_eq a b : enode_eqb a b = true -> a = b.
Proof.
  unfold enode_eqb. intros H. apply andb_true_iff in H as [H1 H2].
  apply enode_ext; [now apply String.eqb_eq | now apply ids_eqb_eq].
Qed.

Lemma enode_get_set_ne {V} n e (v : V) m :
  enode_eqb n e = false ->
  map_get enode_eqb n (map_set enode_eqb e v m) = map_get enode_eqb n m.
Proof.
  intros Hne. induction m as [|[k' v'] m IH]; simpl.
  - now rewrite Hne.
  - destruct (enode_eqb e k') eqn:Ek; simpl.
    + apply enode_eqb_eq in Ek. subst k'. now rewrite Hne.
    + destruct (enode_eqb n k'); [reflexivity | exact IH].
Qed.

(** [add] only extends the e-graph, and binds the canonical node to the id
    it returns. *)
Lemma add_ext g enode0 :
  egraph_inv g -> ids_ok (gsize g) (children enode0) ->
  exists eid e g',
    add enode0 g = Ret eid g' /\
    egraph_inv g' /\
    ext g g' /\
    op e = op enode0 /\
    Forall2 (root_of (unionFind g)) (children enode0) (children e) /\
    hashcons_get e g' = Some eid /\
    eid < gsize g'.
Proof.
  intros Hinv Hok.
  destruct (add_spec g enode0 Hinv Hok)
    as (eid & e & g' & E & Hop & Hcan & Hwf & Hsz & Hroot & Hcl & Hst & Hnew).
  destruct (add_inv g enode0 Hinv Hok) as (eid0 & g0 & E0 & Hinv' & Hlt & _).
  rewrite E in E0. inversion E0; subst eid0 g0. clear E0.
  exists eid, e, g'. split; [exact E|]. split; [exact Hinv'|].
  assert (Hget : hashcons_get e g' = Some eid).
  { destruct Hnew as [(_ & _ & _ & _ & F) | (_ & _ & _ & _ & _ & G)]; [exact F|].
    unfold hashcons_get. rewrite G.
    rewrite map_get_set_same; [reflexivity | apply enode_eqb_refl]. }
  split; [|auto].
  constructor; [| |exact Hsz].
  - intros z r Hz. apply Hroot; [|exact Hz]. eapply root_of_lt; eauto.
  - intros n x Hn.
    destruct Hnew as [(_ & _ & C & _ & _) | (A & B & _ & _ & _ & G)].
    + unfold hashcons_get in *. now rewrite C.
    + destruct (enode_eqb n e) eqn:Hne.
      * exfalso. apply enode_eqb_eq in Hne. subst n.
        destruct (add_cases g enode0 Hinv Hok) as (e1 & g1 & E1 & U & Hc).
        destruct (canonicalize_spec g enode0 Hinv Hok)
          as (e2 & g2 & E2 & _ & Hop2 & _ & Hcan2).
        rewrite E1 in E2. inversion E2; subst e2 g2. clear E2.
        assert (e1 = e).
        { apply enode_ext; [congruence|].
          eapply Forall2_root_functional; eauto. }
        subst e1.
        assert (Hg1 : hashcons_get e g1 = Some x)
          by (unfold hashcons_get in *; now rewrite (uo_hashcons _ _ U)).
        rewrite Hg1 in Hc. rewrite E in Hc. inversion Hc; subst.
        pose proof (uo_size _ _ U). lia.
      * unfold hashcons_get in *. rewrite G.
        rewrite enode_get_set_ne by exact Hne. exact Hn.
Qed.

(** [denotes g t e]: the term [t] is present in [g] under the id [e]: its
    children are present under some ids, and [hashcons] binds the node over
    their representatives to [e]. *)
Fixpoint denotes (g : EGraph) (t : Language.Term) (e : EClassId) : Prop :=
  match t with
  | Language.mkTerm o cs =>
      exists es rs,
        all2 (denotes g) cs es /\
        Forall2 (root_of (unionFind g)) es rs /\
        hashcons_get (mkENode o rs) g = Some e
  end.

Lemma all2_ids_ok g cs : forall es,
  egraph_inv g -> all2 (denotes g) cs es -> ids_ok (gsize g) es.
Proof.
  induction cs as [|c cs IH]; intros [|e es] Hinv; simpl; try tauto.
  - constructor.
  - intros [H1 H2]. constructor; [|now apply IH].
    destruct c as [o cs']. simpl in H1. destruct H1 as (es' & rs & _ & _ & H).
    pose proof (hashcons_get_ok g (mkENode o rs) Hinv) as Ho.
    rewrite H in Ho. exact Ho.
Qed.

Lemma denotes_ext g h t : ext g h -> forall e, denotes g t e -> denotes h t e.
Proof.
  intros X. induction t as [o cs IH] using Term_rect'.
  intros e (es & rs & H1 & H2 & H3). exists es, rs.
  split; [eapply all2_impl; eauto|].
  split; [eapply Forall2_root_mono; [apply (ext_root_of _ _ X) | exact H2]|].
  now apply (ext_hashcons _ _ X).
Qed.

Lemma all2_denotes_ext g h cs es :
  ext g h -> all2 (denotes g) cs es -> all2 (denotes h) cs es.
Proof.
  intros X. apply all2_impl. apply Forall_forall. intros t _ e.
  now apply denotes_ext.
Qed.

Lemma Forall2_root_total uf es :
  uf_wf uf -> ids_ok (List.length (parent uf)) es ->
  exists rs, Forall2 (root_of uf) es rs.
Proof.
  intros Hwf. induction 1 as [|e es He _ IH].
  - exists []. constructor.
  - destruct IH as [rs Hrs]. destruct (root_of_total uf e Hwf He) as [r Hr].
    exists (r :: rs). now constructor.
Qed.

(** [addTerm] returns, keeps the invariant, only extends the e-graph, and
    makes the term present. *)
Lemma addTerm_spec t :
  forall g, egraph_inv g ->
  exists e g',
    addTerm t g = Ret e g' /\ egraph_inv g' /\ ext g g' /\ denotes g' t e.
Proof.
  induction t as [o cs IH] using Term_rect'. intros g Hinv.
  assert (Hcs : exists es g1,
             mapM addTerm cs g = Ret es g1 /\ egraph_inv g1 /\ ext g g1 /\
             all2 (denotes g1) cs es).
  { clear o. revert g Hinv. induction IH as [|c cs Hc _ IHcs]; intros g Hinv.
    - exists [], g. split; [reflexivity|]. split; [exact Hinv|].
      split; [apply ext_refl | exact I].
    - destruct (Hc g Hinv) as (e & g1 & E1 & I1 & X1 & D1).
      destruct (IHcs g1 I1) as (es & g2 & E2 & I2 & X2 & D2).
      exists (e :: es), g2. cbn [mapM]. fold (mapM addTerm).
      unfold bind at 1. rewrite E1. unfold bind at 1. rewrite E2.
      split; [reflexivity|]. split; [exact I2|].
      split; [eapply ext_trans; eauto|].
      simpl. split; [eapply denotes_ext; eauto | exact D2]. }
  destruct Hcs as (es & g1 & E1 & I1 & X1 & D1).
  pose proof (all2_ids_ok g1 cs es I1 D1) as Hes.
  destruct (add_ext g1 (mkENode o es) I1 Hes)
    as (eid & e & g' & E & I' & X & Hop & Hcan & Hget & _).
  exists eid, g'. cbn [addTerm]. fold (mapM addTerm).
  unfold bind at 1. rewrite E1.
  split; [exact E|]. split; [exact I'|]. split; [eapply ext_trans; eauto|].
  simpl. exists es, (children e).
  split; [eapply all2_denotes_ext; eauto|].
  split; [eapply Forall2_root_mono; [apply (ext_root_of _ _ X) | exact Hcan]|].
  destruct e as [o' rs]. simpl in *. now subst o'.
Qed.

(** A term that is present is found again by [addTerm]. *)
Lemma addTerm_present t :
  forall g e, egraph_inv g -> denotes g t e ->
  exists g', addTerm t g = Ret e g' /\ uf_only g g'.
Proof.
  induction t as [o cs IH] using Term_rect'.
  intros g e Hinv (es & rs & D & R & H).
  assert (Hcs : exists g1, mapM addTerm cs g = Ret es g1 /\ uf_only g g1).
  { clear o rs R H. revert g es Hinv D.
    induction IH as [|c cs Hc _ IHcs]; intros g [|e' es] Hinv; simpl; try tauto.
    - intros _. exists g. split; [reflexivity | apply uf_only_refl, (inv_uf g Hinv)].
    - intros [D1 D2]. destruct (Hc g e' Hinv D1) as (g1 & E1 & U1).
      pose proof (inv_uf_only _ _ Hinv U1) as I1.
      destruct (IHcs g1 es I1) as (g2 & E2 & U2).
      { eapply all2_denotes_ext; [apply uf_only_ext; exact U1 | exact D2]. }
      exists g2. unfold bind at 1. rewrite E1.
      unfold bind at 1. fold (mapM addTerm). rewrite E2.
      split; [reflexivity | eapply uf_only_trans; eauto]. }
  destruct Hcs as (g1 & E1 & U1).
  pose proof (inv_uf_only _ _ Hinv U1) as I1.
  cbn [addTerm]. fold (mapM addTerm). unfold bind at 1. rewrite E1.
  assert (Hes : ids_ok (gsize g1) es).
  { rewrite (uo_size _ _ U1). eapply all2_ids_ok; eauto. }
  destruct (add_cases g1 (mkENode o es) I1 Hes) as (e1 & g2 & E2 & U2 & Hc).
  destruct (canonicalize_spec g1 (mkENode o es) I1 Hes)
    as (e2 & g3 & E3 & _ & Hop & _ & Hcan).
  rewrite E2 in E3. inversion E3; subst e2 g3. clear E3.
  assert (e1 = mkENode o rs).
  { apply enode_ext; [exact Hop|]. simpl in *.
    eapply Forall2_root_functional; [exact Hcan|].
    eapply Forall2_root_mono; [apply (uo_root_of _ _ U1) | exact R]. }
  subst e1.
  assert (Hg : hashcons_get (mkENode o rs) g2 = Some e).
  { unfold hashcons_get in *.
    now rewrite (uo_hashcons _ _ U2), (uo_hashcons _ _ U1). }
  rewrite Hg in Hc. exists g2. split; [exact Hc | eapply uf_only_trans; eauto].
Qed.

(** X18. [addTerm] succeeds on every term and every well-formed e-graph: it
    returns an id of the union-find and leaves the e-graph well formed; the
    union-find never shrinks. *)
Theorem addTerm_keeps_invariant (t : Language.Term) (g : EGraph) :
  egraph_inv g ->
  exists e g',
    addTerm t g = Ret e g' /\
    egraph_inv g' /\
    e < gsize g' /\
    gsize g <= gsize g'.
Proof.
  intros Hinv. destruct (addTerm_spec t g Hinv) as (e & g' & E & I' & X & D).
  exists e, g'. split; [exact E|]. split; [exact I'|].
  split; [|apply (ext_size _ _ X)].
  destruct t as [o cs]. simpl in D. destruct D as (es & rs & _ & _ & H).
  pose proof (hashcons_get_ok g' (mkENode o rs) I') as Ho.
  rewrite H in Ho. exact Ho.
Qed.

Lemma addTerm_keeps_invariant_witness :
  exists e g',
    addTerm (Language.mkTerm "g" [Language.mkTerm "a" []]) graph_fa = Ret e g' /\
    egraph_inv g' /\
    e < gsize g' /\
    gsize graph_fa <= gsize g'.
Proof.
  apply addTerm_keeps_invariant. apply egraph_ok_inv. reflexivity.
Defined.

(** X19. [addTerm] is idempotent: adding the same term again, with no
    [merge] in between, returns the same id and allocates nothing. *)
Theorem addTerm_is_idempotent (t : Language.Term) (g : EGraph) :
  egraph_inv g ->
  exists e g' g'',
    addTerm t g = Ret e g' /\
    addTerm t g' = Ret e g'' /\
    store g'' = store g' /\
    classes g'' = classes g' /\
    hashcons g'' = hashcons g' /\
    gsize g'' = gsize g'.
Proof.
  intros Hinv. destruct (addTerm_spec t g Hinv) as (e & g' & E & I' & X & D).
  destruct (addTerm_present t g' e I' D) as (g'' & E' & U).
  exists e, g', g''. destruct U as [U1 U2 U3 U4 _ _ _].
  split; [exact E|]. split; [exact E'|]. auto.
Qed.

Lemma addTerm_is_idempotent_witness :
  exists e g' g'',
    addTerm (Language.mkTerm "g" [Language.mkTerm "a" []]) graph_fa = Ret e g' /\
    addTerm (Language.mkTerm "g" [Language.mkTerm "a" []]) g' = Ret e g'' /\
    store g'' = store g' /\
    classes g'' = classes g' /\
    hashcons g'' = hashcons g' /\
    gsize g'' = gsize g'.
Proof.
  apply addTerm_is_idempotent. apply egraph_ok_inv. reflexivity.
Defined.

End InsertionProperties.

(* ------------------------------------------------------------------ *)
(** * Properties of insertion in the worklist variant *)

Section WorklistInsertionProperties.

Import UF EG WL.
Local Open Scope monad_scope.

Lemma wmapM_find_roots cs :
  forall g, wl_inv g -> ids_ok (wsize g) cs ->
  exists rs g',
    mapM (fun eid => wliftUF (find eid)) cs g = Ret rs g' /\
    wuf_only g g' /\
    Forall (wisroot g') rs.
Proof.
  induction cs as [|c cs IH]; intros g Hinv Hok.
  - exists [], g. split; [reflexivity|].
    split; [apply wuf_only_refl, (wi_uf g Hinv) | constructor].
  - inversion Hok as [|? ? Hc Hcs]; subst.
    cbn [mapM]. fold (mapM (fun eid => wliftUF (find eid))). unfold bind.
    destruct (wliftUF_find_spec g c Hinv Hc) as (r & g1 & E & U1 & Rr & Hr).
    rewrite E.
    assert (Hinv1 : wl_inv g1) by (eapply winv_uf_only; eauto).
    assert (Hok1 : ids_ok (wsize g1) cs) by (rewrite (wo_size _ _ U1); assumption).
    destruct (IH g1 Hinv1 Hok1) as (rs & g2 & E2 & U2 & Rrs).
    rewrite E2. exists (r :: rs), g2. split; [reflexivity|].
    split; [eapply wuf_only_trans; eauto|].
    constructor; [now apply (wo_roots _ _ U2) | exact Rrs].
Qed.

(** The loop of [add] over the children: every child is a root, so it has a
    class object, and the new parent is pushed on its array. *)
Lemma wadd_children_spec enode eid :
  forall cs g,
    wl_inv g -> Forall (wisroot g) cs ->
    ids_ok (wsize g) (children enode) -> eid < wsize g ->
    exists g',
      forM (fun child_id =>
              g2 <- get ;;
              match wclasses_get child_id g2 with
              | None => throw
              | Some child =>
                  c <- wderef child ;;
                  push_array (wparents c) [(enode, eid)]
              end) cs g = Ret tt g' /\
      wl_inv g' /\ worklist g' = worklist g /\ wsize g' = wsize g.
Proof.
  induction cs as [|c cs IH]; intros g Hinv Hroots He Heid.
  - exists g. split; [reflexivity|]. auto.
  - inversion Hroots as [|? ? Hc Hcs]; subst.
    destruct (wi_roots g Hinv c Hc) as (ref & Hcls & Hlt).
    destruct (nth_error (wstore g) ref) as [cobj|] eqn:Hobj;
      [|apply nth_error_None in Hobj; lia].
    destruct (winv_store_nth g ref cobj Hinv Hobj) as [_ Hpar].
    destruct (nth_error (arrays g) (wparents cobj)) as [l|] eqn:Hl;
      [|apply nth_error_None in Hl; lia].
    set (g1 := set_arrays g (upd (arrays g) (wparents cobj) (l ++ [(enode, eid)]))).
    assert (I1 : wl_inv g1).
    { apply winv_set_array; [exact Hinv|]. apply Forall_app. split.
      - eapply winv_array_nth; eauto.
      - constructor; [split; assumption | constructor]. }
    destruct (IH g1 I1 Hcs He Heid) as (g' & E' & I' & W' & S').
    exists g'. split; [|auto].
    cbn [forM]. unfold bind at 1. unfold bind at 1, get. rewrite Hcls.
    unfold bind at 1. rewrite (wderef_eq _ _ _ Hobj).
    rewrite (push_array_eq _ _ _ _ Hl). exact E'.
Qed.

Lemma wadd_inv g enode0 :
  wl_inv g -> worklist g = [] -> ids_ok (wsize g) (children enode0) ->
  exists eid g',
    wadd enode0 g = Ret eid g' /\
    wl_inv g' /\ worklist g' = [] /\ eid < wsize g' /\ wsize g <= wsize g'.
Proof.
  intros Hinv Hw Hok.
  destruct (wmapM_find_roots (children enode0) g Hinv Hok)
    as (rs & g1 & E1 & U1 & R1).
  pose proof (winv_uf_only _ _ Hinv U1) as I1.
  pose proof (wo_size _ _ U1) as S1.
  unfold wadd. unfold bind at 1. unfold wcanonicalize, bind at 1. rewrite E1.
  unfold ret at 1. unfold bind at 1, get.
  set (enode := mkENode (op enode0) rs).
  destruct (whashcons_get enode g1) as [eid|] eqn:Hget.
  - exists eid, g1. split; [reflexivity|]. split; [exact I1|].
    split; [rewrite (wo_worklist _ _ U1); exact Hw|].
    pose proof (whashcons_get_ok g1 enode I1) as Ho. rewrite Hget in Ho.
    split; [exact Ho | lia].
  - unfold bind at 1, wliftUF, extend. cbv zeta.
    unfold bind at 1, wmodify at 1.
    unfold bind at 1, get. cbv zeta.
    unfold bind at 1, wmodify at 1.
    unfold bind at 1, wmodify at 1.
    unfold bind at 1, wmodify at 1.
    set (n := List.length (parent (wunionFind g1))).
    cbn [set_wclasses set_wstore set_arrays set_whashcons set_wunionFind
         arrays wstore whashcons wclasses wunionFind worklist].
    fold n.
    match goal with
    | |- context [bind (forM _ _) _ ?s] => set (g2 := s)
    end.
    assert (Hn : n = wsize g1) by reflexivity.
    assert (S2 : wsize g2 = S n).
    { unfold wsize, g2. simpl. rewrite length_app. simpl. fold n. lia. }
    assert (He : ids_ok (wsize g2) (children enode)).
    { rewrite S2. simpl. unfold ids_ok. eapply Forall_impl; [|exact R1].
      intros r Hr. apply wisroot_lt in Hr. lia. }
    assert (I2 : wl_inv g2).
    { destruct I1 as [J1 J2 J3 J4 J5 J6]. constructor.
      - apply (extend_wf _ J1).
      - intros r Hr. pose proof (wisroot_lt g2 r Hr) as Hlt. rewrite S2 in Hlt.
        destruct (Nat.eq_dec r n) as [->|Hne].
        + exists (List.length (wstore g1)). split.
          * unfold wclasses_get, g2. simpl. apply map_get_set_same, Nat.eqb_refl.
          * unfold g2. simpl. rewrite length_app. simpl. lia.
        + assert (Hr1 : wisroot g1 r).
          { unfold wisroot, g2 in Hr. simpl in Hr.
            rewrite nth_error_app1 in Hr by (fold n; lia). exact Hr. }
          destruct (J2 r Hr1) as (x & X1 & X2). exists x. split.
          * unfold wclasses_get, g2. simpl. rewrite map_get_set_ne by auto.
            exact X1.
          * unfold g2. simpl. rewrite length_app. simpl. lia.
      - unfold g2. simpl. now apply NoDup_map_set.
      - rewrite S2. unfold g2. simpl. apply Forall_app. split.
        + eapply Forall_impl; [|exact J4]. intros a [Ha Hb]. split.
          * eapply ids_ok_mono; [exact Ha | lia].
          * rewrite length_app. simpl. lia.
        + constructor; [|constructor]. split; simpl.
          * rewrite <- S2. exact He.
          * rewrite length_app. simpl. lia.
      - rewrite S2. unfold g2. simpl. apply Forall_app. split.
        + eapply Forall_impl; [|exact J5]. intros a Ha.
          eapply entries_ok_mono; [exact Ha | lia].
        + constructor; [constructor | constructor].
      - rewrite S2. unfold g2. simpl. apply hashcons_ok_set.
        + eapply hashcons_ok_mono; [exact J6 | lia].
        + simpl. lia. }
    assert (R2 : Forall (wisroot g2) (children enode)).
    { simpl. eapply Forall_impl; [|exact R1]. intros r Hr.
      pose proof (wisroot_lt _ _ Hr) as Hlt.
      unfold wisroot, g2. simpl. rewrite nth_error_app1 by exact Hlt. exact Hr. }
    destruct (wadd_children_spec enode n (children enode) g2 I2 R2 He
                ltac:(rewrite S2; lia))
      as (g' & E' & I' & W' & S').
    exists n, g'. unfold bind at 1.
    lazymatch goal with
    | |- context [forM ?F ?l ?s] =>
        replace (forM F l s) with (@Ret WGraph unit tt g')
          by (symmetry; exact E')
    end.
    split; [reflexivity|]. split; [exact I'|].
    split; [rewrite W'; unfold g2; simpl; rewrite (wo_worklist _ _ U1); exact Hw|].
    rewrite S', S2. lia.
Qed.

Lemma waddTerm_spec t :
  forall g, wl_inv g -> worklist g = [] ->
  exists e g',
    waddTerm t g = Ret e g' /\
    wl_inv g' /\ worklist g' = [] /\ e < wsize g' /\ wsize g <= wsize g'.
Proof.
  induction t as [o cs IH] using Term_rect'. intros g Hinv Hw.
  assert (Hcs : exists es g1,
             mapM waddTerm cs g = Ret es g1 /\ wl_inv g1 /\ worklist g1 = [] /\
             ids_ok (wsize g1) es /\ wsize g <= wsize g1).
  { clear o. revert g Hinv Hw. induction IH as [|c cs Hc _ IHcs]; intros g Hinv Hw.
    - exists [], g. split; [reflexivity|]. split; [exact Hinv|].
      split; [exact Hw|]. split; [constructor | lia].
    - destruct (Hc g Hinv Hw) as (e & g1 & E1 & I1 & W1 & L1 & S1).
      destruct (IHcs g1 I1 W1) as (es & g2 & E2 & I2 & W2 & L2 & S2).
      exists (e :: es), g2. cbn [mapM]. fold (mapM waddTerm).
      unfold bind at 1. rewrite E1. unfold bind at 1. rewrite E2.
      split; [reflexivity|]. split; [exact I2|]. split; [exact W2|].
      split; [constructor; [lia | exact L2] | lia]. }
  destruct Hcs as (es & g1 & E1 & I1 & W1 & L1 & S1).
  destruct (wadd_inv g1 (mkENode o es) I1 W1 L1)
    as (eid & g' & E & I' & W' & L' & S').
  exists eid, g'. cbn [waddTerm]. fold (mapM waddTerm).
  unfold bind at 1. rewrite E1.
  split; [exact E|]. split; [exact I'|]. split; [exact W'|]. split; [exact L' | lia].
Qed.

(** X30. In the worklist variant, [addTerm] returns on every state that
    satisfies the invariant and has an empty worklist, and it leaves such a
    state: the states reached from [new EGraph()] by [addTerm] and [merge]
    are the ones on which [merge] is shown to return. *)
Theorem waddTerm_keeps_invariant (t : Language.Term) (g : WGraph) :
  wgraph_ok g = true ->
  exists e g',
    waddTerm t g = Ret e g' /\
    wl_inv g' /\ worklist g' = [] /\ e < wsize g' /\ wsize g <= wsize g'.
Proof.
  intros Hok. destruct (wgraph_ok_inv g Hok) as [Hinv Hw].
  now apply waddTerm_spec.
Qed.

Lemma waddTerm_keeps_invariant_witness :
  exists e g',
    waddTerm (Language.mkTerm "f" [Language.mkTerm "a" []]) wempty = Ret e g' /\
    wl_inv g' /\ worklist g' = [] /\ e < wsize g' /\ wsize wempty <= wsize g'.
Proof.
  apply waddTerm_keeps_invariant. reflexivity.
Defined.

End WorklistInsertionProperties.

(* ------------------------------------------------------------------ *)
(** * Properties of egraph.ts: merge *)

Section MergeProperties.

Import UF EG.
Local Open Scope monad_scope.

(** Keys with a common representative keep a common representative. *)
Definition coarser (uf uf' : UnionFind) : Prop :=
  forall x y r, root_of uf x r -> root_of uf y r ->
  exists r', root_of uf' x r' /\ root_of uf' y r'.

Lemma coarser_refl uf : coarser uf uf.
Proof. intros x y r Hx Hy. eauto. Qed.

Lemma coarser_trans uf1 uf2 uf3 :
  coarser uf1 uf2 -> coarser uf2 uf3 -> coarser uf1 uf3.
Proof.
  intros H1 H2 x y r Hx Hy. destruct (H1 x y r Hx Hy) as (r' & Hx' & Hy').
  exact (H2 x y r' Hx' Hy').
Qed.

(** A computation that, whenever it returns, has kept the union-find well
    formed and of the same size, and has separated no two keys. *)
Definition keeps {A} (m : M EGraph A) : Prop :=
  forall g a g', uf_wf (unionFind g) -> m g = Ret a g' ->
    uf_wf (unionFind g') /\ gsize g' = gsize g /\
    coarser (unionFind g) (unionFind g').

Lemma keeps_ret {A} (a : A) : keeps (ret a).
Proof.
  intros g x g' Hwf E. inversion E; subst. auto using coarser_refl.
Qed.

Lemma keeps_get : keeps get.
Proof.
  intros g x g' Hwf E. inversion E; subst. auto using coarser_refl.
Qed.

Lemma keeps_throw {A} : keeps (@throw EGraph A).
Proof. intros g x g' Hwf E. discriminate. Qed.

Lemma keeps_modify f :
  (forall g, unionFind (f g) = unionFind g) -> keeps (modify f).
Proof.
  intros Hf g x g' Hwf E. inversion E; subst. unfold gsize. rewrite Hf.
  auto using coarser_refl.
Qed.

Lemma keeps_deref r : keeps (deref r).
Proof.
  intros g x g' Hwf E. unfold deref in E.
  destruct (nth_error (store g) r); inversion E; subst.
  auto using coarser_refl.
Qed.

Lemma keeps_bind {A B} (m : M EGraph A) (k : A -> M EGraph B) :
  keeps m -> (forall a, keeps (k a)) -> keeps (bind m k).
Proof.
  intros Hm Hk g b g' Hwf E. unfold bind in E.
  destruct (m g) as [a g1| | | |] eqn:E1; try discriminate.
  destruct (Hm g a g1 Hwf E1) as (W1 & S1 & C1).
  destruct (Hk a g1 b g' W1 E) as (W2 & S2 & C2).
  split; [exact W2|]. split; [congruence | eapply coarser_trans; eauto].
Qed.

Lemma keeps_mapM {A B} (f : A -> M EGraph B) l :
  (forall x, keeps (f x)) -> keeps (mapM f l).
Proof.
  intros Hf. induction l as [|x l IH]; [apply keeps_ret|].
  cbn [mapM]. fold (mapM f). apply keeps_bind; [apply Hf|]. intros y.
  apply keeps_bind; [exact IH|]. intros ys. apply keeps_ret.
Qed.

Lemma find_out uf x :
  List.length (parent uf) <= x -> find x uf = Unmodelled.
Proof.
  intros H. unfold find, find_depth. cbn [find_fuel].
  apply nth_error_None in H. unfold Key in *. now rewrite H.
Qed.

Lemma keeps_find x : keeps (liftUF (find x)).
Proof.
  intros g a g' Hwf E. unfold liftUF in E.
  destruct (Nat.lt_ge_cases x (List.length (parent (unionFind g)))) as [H|H].
  - destruct (find_spec _ x Hwf H) as (r & uf' & E' & P). rewrite E' in E.
    inversion E; subst. simpl.
    destruct P as (_ & Hwf' & _ & Hlen & _ & Hpres).
    split; [exact Hwf'|]. split; [exact Hlen|].
    intros x0 y r0 H1 H2. exists r0. auto.
  - rewrite (find_out _ _ H) in E. discriminate.
Qed.

Lemma union_effect_coarser uf rx ry res uf' :
  union_effect uf rx ry res uf' -> coarser uf uf'.
Proof.
  intros [Hsame Hdiff] x y r Hx Hy.
  destruct (Nat.eq_dec rx ry) as [Heq|Hne].
  - destruct (Hsame Heq) as (_ & _ & Hp). exists r. auto.
  - destruct (Hdiff Hne) as (r0 & c & _ & _ & Hp & _).
    exists (if Nat.eqb r c then r0 else r). auto.
Qed.

Lemma keeps_union x y : keeps (liftUF (union x y)).
Proof.
  intros g a g' Hwf E. unfold liftUF in E.
  destruct (Nat.lt_ge_cases x (List.length (parent (unionFind g)))) as [Hx|Hx].
  - destruct (Nat.lt_ge_cases y (List.length (parent (unionFind g)))) as [Hy|Hy].
    + destruct (union_roots _ x y Hwf Hx Hy)
        as (rx & ry & res & uf' & E' & _ & _ & Hwf' & Hlen & Heff).
      rewrite E' in E. inversion E; subst. simpl.
      split; [exact Hwf'|]. split; [exact Hlen|].
      eapply union_effect_coarser; eauto.
    + exfalso. unfold union, bind in E.
      destruct (find_spec _ x Hwf Hx) as (r & uf1 & E1 & _ & _ & _ & Hlen & _).
      rewrite E1 in E. rewrite find_out in E by lia. discriminate.
  - exfalso. unfold union, bind in E. rewrite (find_out _ _ Hx) in E.
    discriminate.
Qed.

Lemma keeps_canonicalize e : keeps (canonicalize e).
Proof.
  unfold canonicalize. apply keeps_bind.
  - apply keeps_mapM. intros x. apply keeps_find.
  - intros cs. apply keeps_ret.
Qed.

Lemma keeps_find_undef v : keeps (find_undef v).
Proof.
  destruct v as [x|]; simpl; [|apply keeps_ret].
  apply keeps_bind; [apply keeps_find | intros r; apply keeps_ret].
Qed.

Lemma keeps_set_nodes r ns : keeps (set_nodes r ns).
Proof.
  unfold set_nodes. apply keeps_bind; [apply keeps_deref|].
  intros ec. apply keeps_modify. reflexivity.
Qed.

Lemma keeps_set_parents r ps : keeps (set_parents r ps).
Proof.
  unfold set_parents. apply keeps_bind; [apply keeps_deref|].
  intros ec. apply keeps_modify. reflexivity.
Qed.

Ltac keeps_step :=
  first
    [ apply keeps_ret | apply keeps_get | apply keeps_throw
    | apply keeps_deref | apply keeps_find | apply keeps_union
    | apply keeps_canonicalize | apply keeps_find_undef
    | apply keeps_set_nodes | apply keeps_set_parents
    | apply keeps_modify; reflexivity
    | apply keeps_bind; [|intros ?]
    | match goal with
      | |- keeps (match ?x with _ => _ end) => destruct x
      end
    | progress cbv zeta ].

Lemma keeps_repair_loop mf entries :
  (forall a b, keeps (mf a b)) ->
  forall dedup, keeps (repair_loop mf entries dedup).
Proof.
  intros Hmf. induction entries as [|[pn pid] rest IH]; intros dedup.
  - apply keeps_ret.
  - cbn [repair_loop]. fold (repair_loop mf).
    repeat first [apply IH | apply Hmf | keeps_step].
Qed.

Lemma keeps_repair_with mf r :
  (forall a b, keeps (mf a b)) -> keeps (repair_with mf r).
Proof.
  intros Hmf. unfold repair_with.
  repeat first [apply keeps_repair_loop; exact Hmf | keeps_step].
Qed.

Lemma keeps_merge_roots f n o :
  (forall a b, keeps (merge_fuel f a b)) -> keeps (merge_roots f n o).
Proof.
  intros Hmf. unfold merge_roots.
  repeat first [apply keeps_repair_with; exact Hmf | keeps_step].
Qed.

Lemma keeps_merge_fuel f : forall a b, keeps (merge_fuel f a b).
Proof.
  induction f as [|f IH]; intros a b.
  - intros g x g' _ E. discriminate.
  - rewrite merge_fuel_S.
    repeat first [apply keeps_merge_roots; exact IH | keeps_step].
Qed.

(** [union] through the e-graph, with the representatives it joined. *)
Lemma liftUF_union_roots g a b :
  egraph_inv g -> a < gsize g -> b < gsize g ->
  exists ra rb res uf',
    liftUF (union a b) g = Ret res (set_unionFind g uf') /\
    root_of (unionFind g) a ra /\ root_of (unionFind g) b rb /\
    union_post (unionFind g) res uf' /\
    union_effect (unionFind g) ra rb res uf'.
Proof.
  intros Hinv Ha Hb.
  destruct (liftUF_union_spec g a b Hinv Ha Hb) as (res & uf' & E & P).
  destruct (union_roots _ a b (inv_uf g Hinv) Ha Hb)
    as (ra & rb & res0 & uf0 & E0 & Ra & Rb & _ & _ & Heff).
  unfold liftUF in E. rewrite E0 in E. inversion E; subst res0.
  assert (uf0 = uf') by (destruct g; unfold set_unionFind in *; simpl in *; congruence).
  subst uf0. exists ra, rb, res, uf'. unfold liftUF. rewrite E0. auto.
Qed.

(** The result of [merge] and what it does when there is nothing to join. *)
Lemma merge_fuel_result f g a b :
  egraph_inv g -> keys_distinct g ->
  a < gsize g -> b < gsize g -> classCount g < f ->
  exists ra rb res g1 g',
    root_of (unionFind g) a ra /\ root_of (unionFind g) b rb /\
    merge_fuel f a b g = Ret res g' /\
    res = negb (Nat.eqb ra rb) /\
    uf_wf (unionFind g1) /\
    (exists r, root_of (unionFind g1) a r /\ root_of (unionFind g1) b r) /\
    coarser (unionFind g) (unionFind g1) /\
    coarser (unionFind g1) (unionFind g') /\
    (res = false -> g' = g1 /\ uf_only g g') /\
    merge_post g res g'.
Proof.
  intros Hinv Hkeys Ha Hb Hc.
  destruct (merge_fuel_spec f g a b Hinv Hkeys Ha Hb Hc) as (res & g' & E & Hpost).
  destruct f as [|f]; [lia|].
  destruct (liftUF_union_roots g a b Hinv Ha Hb)
    as (ra & rb & ur & uf' & Eu & Ra & Rb & (Hwf' & Hlen & P) & Heff).
  exists ra, rb, res, (set_unionFind g uf'), g'.
  split; [exact Ra|]. split; [exact Rb|]. split; [exact E|].
  rewrite merge_fuel_S in E. unfold bind at 1 in E. rewrite Eu in E.
  assert (Hjoin : exists r, root_of uf' a r /\ root_of uf' b r).
  { destruct Heff as [Hsame Hdiff]. destruct (Nat.eq_dec ra rb) as [Heq|Hne].
    - destruct (Hsame Heq) as (_ & _ & Hp). subst rb. exists ra. auto.
    - destruct (Hdiff Hne) as (r & c & _ & Hrc & Hp & _).
      pose proof (Hp a ra Ra) as Pa. pose proof (Hp b rb Rb) as Pb.
      exists r. destruct Hrc as [[-> ->]|[-> ->]].
      + rewrite Nat.eqb_refl in Pb.
        destruct (Nat.eqb_spec ra rb); [contradiction|]. auto.
      + rewrite Nat.eqb_refl in Pa.
        destruct (Nat.eqb_spec rb ra); [congruence|]. auto. }
  pose proof (union_effect_coarser _ _ _ _ _ Heff) as Hco.
  destruct Heff as [Hsame Hdiff]. destruct (Nat.eq_dec ra rb) as [Heq|Hne].
  - destruct (Hsame Heq) as (-> & Hrk & Hp).
    inversion E; subst res g'. subst rb. rewrite Nat.eqb_refl. simpl.
    split; [reflexivity|]. split; [exact Hwf'|]. split; [exact Hjoin|].
    split; [exact Hco|]. split; [apply coarser_refl|].
    split; [|exact Hpost]. intros _. split; [reflexivity|].
    constructor; simpl; auto.
  - destruct (Hdiff Hne) as (r & c & -> & _).
    destruct P as (Hrc & Rr & Rc & Rr' & Rc' & Hothers).
    set (g1 := set_unionFind g uf') in *.
    assert (I1 : egraph_inv g1).
    { apply inv_set_unionFind; auto. intros z Hz.
      destruct (Nat.eq_dec z c) as [->|Hzc]; [congruence|]. now apply Hothers. }
    destruct (inv_roots g Hinv r Rr) as (nref & Hn & Hnl).
    destruct (inv_roots g Hinv c Rc) as (oref & Ho & Hol).
    assert (Hnc : ~ isroot g1 c).
    { unfold isroot, g1. simpl. rewrite Rc'. intros H. inversion H. congruence. }
    destruct (merge_roots_spec f g1 r c nref oref (merge_fuel_spec f) I1 Hkeys Hnc
                Hn Ho Hnl Hol ltac:(change (classCount g <= f); lia))
      as (g2 & E2 & _).
    fold (merge_roots f r c) in E. rewrite E2 in E. inversion E; subst res g'.
    destruct (Nat.eqb_spec ra rb); [contradiction|]. simpl.
    split; [reflexivity|]. split; [exact Hwf'|]. split; [exact Hjoin|].
    split; [exact Hco|]. split.
    + destruct (keeps_merge_roots f r c (keeps_merge_fuel f) g1 true g2
                  (inv_uf g1 I1) E2) as (_ & _ & C).
      exact C.
    + split; [discriminate | exact Hpost].
Qed.

Lemma conn_true_roots uf x y :
  uf_wf uf -> conn uf x y = true -> exists r, root_of uf x r /\ root_of uf y r.
Proof.
  intros Hwf H.
  destruct (Nat.lt_ge_cases x (List.length (parent uf))) as [Hx|Hx].
  - destruct (Nat.lt_ge_cases y (List.length (parent uf))) as [Hy|Hy].
    + destruct (conn_spec uf x y Hwf Hx Hy) as (rx & ry & _ & _ & Rx & Ry & E).
      rewrite E in H. apply Nat.eqb_eq in H. subst. eauto.
    + exfalso. unfold conn, connected, bind in H.
      destruct (find_spec _ x Hwf Hx) as (r & uf1 & E1 & _ & _ & _ & Hlen & _).
      rewrite E1 in H. rewrite find_out in H by lia. discriminate.
  - exfalso. unfold conn, connected, bind in H.
    rewrite (find_out _ _ Hx) in H. discriminate.
Qed.

Lemma conn_of_roots uf x y r :
  uf_wf uf -> root_of uf x r -> root_of uf y r -> conn uf x y = true.
Proof.
  intros Hwf Hx Hy. rewrite (conn_roots uf x y r r Hwf Hx Hy).
  apply Nat.eqb_refl.
Qed.

(** X20. On a well-formed e-graph (the keys of [classes] are distinct, as
    in every map) [merge] returns [false] exactly when its arguments are
    already in the same class, and then it is a no-op on the classes and
    the nodes: only the paths of the union-find may be compressed. *)
Theorem merge_false_iff_connected (g : EGraph) (a b : EClassId) :
  egraph_inv g -> keys_distinct g -> a < gsize g -> b < gsize g ->
  exists res g',
    merge a b g = Ret res g' /\
    res = negb (conn (unionFind g) a b) /\
    (res = false ->
       store g' = store g /\ classes g' = classes g /\ hashcons g' = hashcons g).
Proof.
  intros Hinv Hkeys Ha Hb. unfold merge.
  destruct (merge_fuel_result (S (classCount g)) g a b Hinv Hkeys Ha Hb ltac:(lia))
    as (ra & rb & res & g1 & g' & Ra & Rb & E & Hres & _ & _ & _ & _ & Hno & _).
  exists res, g'. split; [exact E|].
  rewrite (conn_roots _ a b ra rb (inv_uf g Hinv) Ra Rb).
  split; [exact Hres|]. intros Hf. destruct (Hno Hf) as [_ U].
  destruct U as [U1 U2 U3 _ _ _ _]. auto.
Qed.

Lemma merge_false_iff_connected_witness :
  exists res g',
    merge 0 1 graph_fa = Ret res g' /\
    res = negb (conn (unionFind graph_fa) 0 1) /\
    (res = false ->
       store g' = store graph_fa /\ classes g' = classes graph_fa /\
       hashcons g' = hashcons graph_fa).
Proof.
  apply merge_false_iff_connected;
    [apply egraph_ok_inv; reflexivity | apply keys_distinctb_spec; reflexivity
    | vm_compute; lia | vm_compute; lia].
Defined.

(** X21. After [merge] on a well-formed e-graph (the keys of [classes] are
    distinct, as in every map) its two arguments are in the same class, ids
    that were in the same class still are (also after the merges that
    [repair] adds), and a second [merge] of the same ids returns [false]. *)
Theorem merge_joins_and_keeps_classes (g : EGraph) (a b : EClassId) :
  egraph_inv g -> keys_distinct g -> a < gsize g -> b < gsize g ->
  exists res g',
    merge a b g = Ret res g' /\
    conn (unionFind g') a b = true /\
    (forall x y, conn (unionFind g) x y = true ->
                 conn (unionFind g') x y = true) /\
    (exists g'', merge a b g' = Ret false g'').
Proof.
  intros Hinv Hkeys Ha Hb. unfold merge at 1.
  destruct (merge_fuel_result (S (classCount g)) g a b Hinv Hkeys Ha Hb ltac:(lia))
    as (ra & rb & res & g1 & g' & Ra & Rb & E & Hres & Hwf1 & (r & Ja & Jb)
        & C1 & C2 & _ & (I' & S' & _ & _ & _ & K')).
  exists res, g'. split; [exact E|].
  destruct (C2 a b r Ja Jb) as (r' & Ja' & Jb').
  assert (Hconn : conn (unionFind g') a b = true)
    by (eapply conn_of_roots; [apply (inv_uf g' I') | eauto | eauto]).
  split; [exact Hconn|]. split.
  - intros x y Hxy.
    destruct (conn_true_roots _ x y (inv_uf g Hinv) Hxy) as (r0 & Hx & Hy).
    destruct (C1 x y r0 Hx Hy) as (r1 & Hx1 & Hy1).
    destruct (C2 x y r1 Hx1 Hy1) as (r2 & Hx2 & Hy2).
    eapply conn_of_roots; [apply (inv_uf g' I') | eauto | eauto].
  - unfold merge.
    destruct (merge_fuel_result (S (classCount g')) g' a b I' K'
                ltac:(lia) ltac:(lia) ltac:(lia))
      as (ra' & rb' & res' & g1' & g'' & Ra' & Rb' & E' & Hres' & _).
    exists g''. rewrite E'. f_equal.
    rewrite (conn_roots _ a b ra' rb' (inv_uf g' I') Ra' Rb') in Hconn.
    rewrite Hres', Hconn. reflexivity.
Qed.

Lemma merge_joins_and_keeps_classes_witness :
  exists res g',
    merge 0 1 graph_fa = Ret res g' /\
    conn (unionFind g') 0 1 = true /\
    (forall x y, conn (unionFind graph_fa) x y = true ->
                 conn (unionFind g') x y = true) /\
    (exists g'', merge 0 1 g' = Ret false g'').
Proof.
  apply merge_joins_and_keeps_classes;
    [apply egraph_ok_inv; reflexivity | apply keys_distinctb_spec; reflexivity
    | vm_compute; lia | vm_compute; lia].
Defined.

(** A list that repeats a key is not a map. On such a list the entry that
    [delete] moves into the hole can come to stand before the entry of
    another root, and [merge] then reads a reference to no object. The
    hypothesis [keys_distinct] of the theorems on [merge] excludes these
    lists; [add] and [merge] never build one. *)
Definition graph_dup : EGraph :=
  mkEGraph (unionFind graph_fa_fb) (store graph_fa_fb)
    [(2, 2); (0, 0); (1, 1); (3, 3); (1, 9)]
    (hashcons graph_fa_fb).

Lemma merge_on_repeated_key :
  egraph_ok graph_dup = true /\
  keys_distinctb graph_dup = false /\
  merge 0 2 graph_dup = (Unmodelled : outcome EGraph bool).
Proof. vm_compute. repeat split; reflexivity. Qed.

(** X29. On the e-graphs of [(f a)] and [(f b)], [merge(0, 2)] cascades: the
    parents [(f a)] and [(f b)] become equal and [repair] merges their
    classes 3 and 1, so that two of the four classes are left. *)
Lemma merge_cascades_into_parents :
  classCount graph_fa_fb = 4 /\ WL.wclassCount wgraph_fa_fb = 4 /\
  (exists g',
     merge 0 2 graph_fa_fb = Ret true g' /\
     classCount g' = 2 /\ conn (unionFind g') 1 3 = true) /\
  (exists w',
     WL.wmerge 4 0 2 wgraph_fa_fb = Ret true w' /\
     WL.wclassCount w' = 2 /\ WL.worklist w' = [] /\
     conn (WL.wunionFind w') 1 3 = true).
Proof.
  split; [reflexivity|]. split; [reflexivity|]. split.
  - eexists. split; [vm_compute; reflexivity|]. split; reflexivity.
  - eexists. split; [vm_compute; reflexivity|]. repeat split; reflexivity.
Qed.

End MergeProperties.

(* ------------------------------------------------------------------ *)
(** * Properties of egraph.ts: extraction from an e-graph without merges *)

Section ExtractionProperties.

Import Language UF EG.
Local Open Scope monad_scope.
Local Open Scope Z_scope.

(** The number of nodes of a term. *)
Fixpoint term_size (t : Term) : Z :=
  match t with
  | mkTerm _ cs => 1 + fold_right Z.add 0 (map term_size cs)
  end.

Local Close Scope Z_scope.

(** The loop over the children of a node in [extractSmallest], and the loop
    over the nodes of a class, with the recursive call as a parameter. *)
Definition extract_kids
  (rec : list EClassId -> Num -> EClassId -> M EGraph (XTerm * Num))
  (newVisited : list EClassId) (minSize : Num)
  : list EClassId -> list XTerm -> Num -> M EGraph (list XTerm * Num) :=
  fix kids (cs : list EClassId) (accChildren : list XTerm) (accSize : Num) :=
    match cs with
    | [] => ret (accChildren, accSize)
    | child :: cs' =>
        bound <- num_sub minSize accSize ;;
        r <- rec newVisited bound child ;;
        accSize' <- num_add accSize (snd r) ;;
        kids cs' (accChildren ++ [fst r]) accSize'
    end.

Definition extract_each
  (rec : list EClassId -> Num -> EClassId -> M EGraph (XTerm * Num))
  (newVisited : list EClassId)
  : list ENode -> XTerm -> Num -> M EGraph (XTerm * Num) :=
  fix each (enodes : list ENode) (minTerm : XTerm) (minSize : Num) :=
    match enodes with
    | [] => ret (minTerm, minSize)
    | enode :: rest =>
        fun g0 =>
          match extract_kids rec newVisited minSize (children enode) [] (Fin 1) g0 with
          | Ret (accChildren, accSize) g1 =>
              each rest (XNode (op enode) accChildren) accSize g1
          | Throw g1 => each rest minTerm minSize g1
          | ThrowOutside => Unmodelled
          | Unmodelled => Unmodelled
          | OutOfFuel => OutOfFuel
          end
    end.

Lemma extract_worker_S f visited upperBound eid0 :
  extract_worker (S f) visited upperBound eid0 =
  (eid <- liftUF (find eid0) ;;
   if set_has Nat.eqb eid visited || num_negative upperBound then throw
   else
     g <- get ;;
     match classes_get eid g with
     | None => throw
     | Some eclass =>
         ec <- deref eclass ;;
         extract_each (extract_worker f) (set_add Nat.eqb eid visited)
           (nodes ec) XUndefined upperBound
     end).
Proof. reflexivity. Qed.

(** The class [i] holds the single node [nd]. *)
Definition node_of (g : EGraph) (i : EClassId) (nd : ENode) : Prop :=
  exists ref ec,
    classes_get i g = Some ref /\
    nth_error (store g) ref = Some ec /\
    nodes ec = [nd].

(** An e-graph as a sequence of [add]s without [merge] builds it: every id
    is its own representative, and its class holds one node, over smaller
    ids, which is the node that [hashcons] binds to it. *)
Record tree_like (g : EGraph) : Prop := mkTreeLike {
  tl_inv : egraph_inv g;
  tl_roots : forall i, i < gsize g -> isroot g i;
  tl_node : forall i, i < gsize g ->
    exists nd, node_of g i nd /\ ids_ok i (children nd);
  tl_hash : forall nd i, hashcons_get nd g = Some i -> node_of g i nd;
  tl_keys : forall k, In k (map fst (classes g)) -> k < gsize g
}.

Lemma node_of_functional g i nd nd' :
  node_of g i nd -> node_of g i nd' -> nd = nd'.
Proof.
  intros (r & ec & A & B & C) (r' & ec' & A' & B' & C'). congruence.
Qed.

Lemma tree_like_empty : tree_like EG.empty.
Proof.
  constructor.
  - apply egraph_ok_inv. reflexivity.
  - intros i Hi. vm_compute in Hi. lia.
  - intros i Hi. vm_compute in Hi. lia.
  - intros nd i H. discriminate.
  - intros k [].
Qed.

Lemma Forall2_roots g l :
  Forall (isroot g) l -> Forall2 (root_of (unionFind g)) l l.
Proof. induction 1; constructor; auto. now apply root_of_root. Qed.

Lemma In_map_set_key {V} (k k0 : nat) (v : V) m :
  In k (map fst (map_set Nat.eqb k0 v m)) -> k = k0 \/ In k (map fst m).
Proof.
  induction m as [|[k' v'] m IH]; simpl.
  - intros [H|[]]. now left.
  - destruct (Nat.eqb_spec k0 k'); simpl; [tauto|].
    intros [H|H]; [tauto|]. destruct (IH H); tauto.
Qed.

(** [add] on such an e-graph. *)
Lemma add_tree g nd :
  tree_like g -> ids_ok (gsize g) (children nd) ->
  exists eid g',
    add nd g = Ret eid g' /\
    tree_like g' /\
    eid < gsize g' /\
    gsize g <= gsize g' /\
    node_of g' eid nd /\
    (forall i nd', i < gsize g -> node_of g i nd' -> node_of g' i nd').
Proof.
  intros [Hinv Hr Hn Hh Hkeys] Hok.
  destruct (add_spec g nd Hinv Hok)
    as (eid & e & g' & E & Hop & Hcan & Hwf & Hsz & Hroot & Hcl & Hst & Hnew).
  destruct (add_inv g nd Hinv Hok) as (eid0 & g0 & E0 & Hinv' & Hlt & _).
  rewrite E in E0. inversion E0; subst eid0 g0. clear E0.
  assert (e = nd).
  { apply enode_ext; [exact Hop|]. symmetry.
    eapply Forall2_root_functional; [|exact Hcan].
    apply Forall2_roots. unfold ids_ok in Hok.
    eapply Forall_impl; [|exact Hok]. intros a. apply Hr. }
  subst e.
  assert (Hmono : forall i nd', i < gsize g -> node_of g i nd' -> node_of g' i nd').
  { intros i nd' Hi (ref & ec & A & B & C).
    destruct (Hst ref ec B) as (ec' & B' & N' & _).
    exists ref, ec'. rewrite Hcl by exact Hi. split; [exact A|].
    split; [exact B' | congruence]. }
  assert (Hroots' : forall i, i < gsize g -> isroot g' i).
  { intros i Hi. eapply root_of_is_root. apply (Hroot i i Hi).
    apply root_of_root. now apply Hr. }
  exists eid, g'. split; [exact E|].
  destruct Hnew as [(A & B & C & D & F) | (A & B & C & D & F & G)].
  - assert (Hnd : node_of g' eid nd).
    { assert (Hg : hashcons_get nd g = Some eid)
        by (unfold hashcons_get in *; now rewrite <- C).
      apply Hmono; [|now apply Hh].
      pose proof (hashcons_get_ok g nd Hinv) as Ho. rewrite Hg in Ho. exact Ho. }
    split; [|split; [exact Hlt | split; [exact Hsz | split; [exact Hnd | exact Hmono]]]].
    constructor; [exact Hinv'| | | |].
    + intros i Hi. apply Hroots'. lia.
    + intros i Hi. rewrite D in Hi. destruct (Hn i Hi) as (nd' & H1 & H2).
      exists nd'. split; [now apply Hmono | exact H2].
    + intros nd' i Hi.
      assert (Hg : hashcons_get nd' g = Some i)
        by (unfold hashcons_get in *; now rewrite <- C).
      apply Hmono; [|now apply Hh].
      pose proof (hashcons_get_ok g nd' Hinv) as Ho. rewrite Hg in Ho. exact Ho.
    + intros k Hin. rewrite B in Hin. rewrite D. now apply Hkeys.
  - assert (Hnd : node_of g' eid nd).
    { exists (List.length (store g)), (createSingletonEClass nd).
      split; [|split; [exact D | reflexivity]].
      unfold classes_get. rewrite F. apply map_get_set_same, Nat.eqb_refl. }
    split; [|split; [exact Hlt | split; [exact Hsz | split; [exact Hnd | exact Hmono]]]].
    constructor; [exact Hinv'| | | |].
    + intros i Hi. destruct (Nat.eq_dec i (gsize g)) as [->|Hne];
        [|apply Hroots'; lia].
      destruct (add_cases g nd Hinv Hok) as (e1 & g1 & E1 & U & Hc).
      destruct (hashcons_get e1 g1) as [x|].
      * rewrite E in Hc. inversion Hc; subst. pose proof (uo_size _ _ U). lia.
      * destruct Hc as (g2 & E2 & Hu). rewrite E in E2. inversion E2; subst g2.
        unfold isroot. rewrite Hu. simpl.
        pose proof (uo_size _ _ U) as Hs1. unfold gsize in Hs1 |- *.
        rewrite nth_error_app2 by lia. rewrite Hs1, Nat.sub_diag. reflexivity.
    + intros i Hi. destruct (Nat.eq_dec i (gsize g)) as [->|Hne].
      * exists nd. split; [now rewrite <- A | exact Hok].
      * destruct (Hn i ltac:(lia)) as (nd' & H1 & H2).
        exists nd'. split; [apply Hmono; [lia | exact H1] | exact H2].
    + intros nd' i Hi. unfold hashcons_get in Hi. rewrite G in Hi.
      destruct (enode_eqb nd' nd) eqn:Heq.
      * apply enode_eqb_eq in Heq. subst nd'.
        rewrite map_get_set_same in Hi by apply enode_eqb_refl.
        inversion Hi; subst i. exact Hnd.
      * rewrite enode_get_set_ne in Hi by exact Heq.
        assert (Hg : hashcons_get nd' g = Some i) by exact Hi.
        apply Hmono; [|now apply Hh].
        pose proof (hashcons_get_ok g nd' Hinv) as Ho. rewrite Hg in Ho. exact Ho.
    + intros k Hin. rewrite F in Hin. apply In_map_set_key in Hin.
      destruct Hin as [->|Hin]; [lia|]. apply Hkeys in Hin. lia.
Qed.

(** The class [e] represents the term [t], node by node. *)
Fixpoint rep (g : EGraph) (t : Term) (e : EClassId) : Prop :=
  match t with
  | mkTerm o cs =>
      exists es,
        e < gsize g /\ node_of g e (mkENode o es) /\ all2 (rep g) cs es
  end.

Lemma rep_mono g h t :
  gsize g <= gsize h ->
  (forall i nd, i < gsize g -> node_of g i nd -> node_of h i nd) ->
  forall e, rep g t e -> rep h t e.
Proof.
  intros Hsz Hm. induction t as [o cs IH] using Term_rect'.
  intros e (es & H1 & H2 & H3). exists es. split; [lia|].
  split; [now apply Hm|]. eapply all2_impl; eauto.
Qed.

Lemma all2_rep_mono g h cs es :
  gsize g <= gsize h ->
  (forall i nd, i < gsize g -> node_of g i nd -> node_of h i nd) ->
  all2 (rep g) cs es -> all2 (rep h) cs es.
Proof.
  intros Hsz Hm. apply all2_impl. apply Forall_forall. intros t _ e.
  now apply rep_mono.
Qed.

Lemma all2_rep_ids g cs : forall es, all2 (rep g) cs es -> ids_ok (gsize g) es.
Proof.
  induction cs as [|c cs IH]; intros [|e es]; simpl; try tauto.
  - constructor.
  - intros [H1 H2]. constructor; [|now apply IH].
    destruct c as [o cs']. destruct H1 as (es' & H & _). exact H.
Qed.

Definition grows_to (g h : EGraph) : Prop :=
  gsize g <= gsize h /\
  forall i nd, i < gsize g -> node_of g i nd -> node_of h i nd.

Lemma grows_to_trans g1 g2 g3 : grows_to g1 g2 -> grows_to g2 g3 -> grows_to g1 g3.
Proof.
  intros [A1 B1] [A2 B2]. split; [lia|]. intros i nd Hi H.
  apply B2; [lia|]. now apply B1.
Qed.

Lemma addTerm_tree t :
  forall g, tree_like g ->
  exists e g',
    addTerm t g = Ret e g' /\ tree_like g' /\ grows_to g g' /\ rep g' t e.
Proof.
  induction t as [o cs IH] using Term_rect'. intros g Htl.
  assert (Hcs : exists es g1,
             mapM addTerm cs g = Ret es g1 /\ tree_like g1 /\ grows_to g g1 /\
             all2 (rep g1) cs es).
  { clear o. revert g Htl. induction IH as [|c cs Hc _ IHcs]; intros g Htl.
    - exists [], g. split; [reflexivity|]. split; [exact Htl|].
      split; [split; auto | exact I].
    - destruct (Hc g Htl) as (e & g1 & E1 & T1 & G1 & R1).
      destruct (IHcs g1 T1) as (es & g2 & E2 & T2 & G2 & R2).
      exists (e :: es), g2. cbn [mapM]. fold (mapM addTerm).
      unfold bind at 1. rewrite E1. unfold bind at 1. rewrite E2.
      split; [reflexivity|]. split; [exact T2|].
      split; [eapply grows_to_trans; eauto|].
      simpl. split; [|exact R2]. destruct G2. eapply rep_mono; eauto. }
  destruct Hcs as (es & g1 & E1 & T1 & G1 & R1).
  pose proof (all2_rep_ids g1 cs es R1) as Hes.
  destruct (add_tree g1 (mkENode o es) T1 Hes)
    as (eid & g' & E & T' & Hlt & Hsz & Hnd & Hm).
  exists eid, g'. cbn [addTerm]. fold (mapM addTerm).
  unfold bind at 1. rewrite E1.
  split; [exact E|]. split; [exact T'|].
  split; [eapply grows_to_trans; [exact G1 | split; assumption]|].
  simpl. exists es. split; [exact Hlt|]. split; [exact Hnd|].
  eapply all2_rep_mono; eauto.
Qed.

Lemma mapM_addTerm_tree ts :
  forall g, tree_like g ->
  exists es g',
    mapM addTerm ts g = Ret es g' /\ tree_like g' /\ grows_to g g' /\
    all2 (rep g') ts es.
Proof.
  induction ts as [|t ts IH]; intros g Htl.
  - exists [], g. split; [reflexivity|]. split; [exact Htl|].
    split; [split; auto | exact I].
  - destruct (addTerm_tree t g Htl) as (e & g1 & E1 & T1 & G1 & R1).
    destruct (IH g1 T1) as (es & g2 & E2 & T2 & G2 & R2).
    exists (e :: es), g2. cbn [mapM]. fold (mapM addTerm).
    unfold bind at 1. rewrite E1. unfold bind at 1. rewrite E2.
    split; [reflexivity|]. split; [exact T2|].
    split; [eapply grows_to_trans; eauto|].
    simpl. split; [|exact R2]. destruct G2. eapply rep_mono; eauto.
Qed.

Lemma liftUF_find_root g e :
  isroot g e -> liftUF (find e) g = Ret e g.
Proof.
  intros H. unfold liftUF. rewrite (find_root _ _ H). now destruct g.
Qed.

Lemma set_has_above e visited :
  Forall (fun v => e < v) visited -> set_has Nat.eqb e visited = false.
Proof.
  induction 1 as [|v l Hv _ IH]; simpl; [reflexivity|].
  rewrite IH. destruct (Nat.eqb_spec e v); [lia | reflexivity].
Qed.

Lemma set_add_above c e visited :
  c < e -> Forall (fun v => e < v) visited ->
  Forall (fun v => c < v) (set_add Nat.eqb e visited).
Proof.
  intros Hc Hv. unfold set_add.
  assert (H : Forall (fun v => c < v) visited)
    by (eapply Forall_impl; [|exact Hv]; intros a Ha; simpl in Ha; lia).
  destruct (set_has Nat.eqb e visited); [exact H|].
  apply Forall_app. split; [exact H | constructor; [exact Hc | constructor]].
Qed.

(** Extraction of a term from the class that represents it, in an e-graph
    without merges: the search finds the term and counts its nodes, and it
    leaves the e-graph as it is. *)
Lemma extract_rep g :
  tree_like g ->
  forall f t e visited,
    rep g t e -> e < f -> Forall (fun v => e < v) visited ->
    extract_worker f visited MAX_VALUE e g
    = Ret (xterm_of t, Fin (term_size t)) g.
Proof.
  intros Htl. induction f as [|f IHf]; intros t e visited Hrep Hf Hv; [lia|].
  destruct t as [o cs]. destruct Hrep as (es & He & Hnd & Hcs).
  rewrite extract_worker_S. unfold bind at 1.
  rewrite (liftUF_find_root g e (tl_roots g Htl e He)).
  rewrite (set_has_above e visited Hv). cbn [num_negative orb].
  unfold bind at 1, get.
  pose proof Hnd as (ref & ec & Hc & Hs & Hn). rewrite Hc.
  unfold bind at 1, deref. rewrite Hs. rewrite Hn.
  destruct (tl_node g Htl e He) as (nd' & Hnd' & Hlt).
  assert (nd' = mkENode o es) by (eapply node_of_functional; eauto). subst nd'.
  simpl in Hlt.
  set (nv := set_add Nat.eqb e visited).
  assert (Hk : forall cs es accC a,
             all2 (rep g) cs es -> ids_ok e es ->
             extract_kids (extract_worker f) nv MAX_VALUE es accC (Fin a) g
             = Ret (accC ++ map xterm_of cs,
                    Fin (a + fold_right Z.add 0%Z (map term_size cs))) g).
  { intros cs0.
    induction cs0 as [|c cs0 IHcs]; intros [|x es0] accC a; simpl; try tauto.
    - intros _ _. unfold ret. now rewrite app_nil_r, Z.add_0_r.
    - intros [R1 R2] Hok. inversion Hok as [|? ? Hx Hes]; subst.
      unfold bind at 1, ret. unfold bind at 1.
      rewrite (IHf c x nv R1 ltac:(lia) (set_add_above x e visited Hx Hv)).
      cbn [snd fst num_add]. unfold bind at 1, ret.
      rewrite (IHcs es0 (accC ++ [xterm_of c]) (a + term_size c)%Z R2 Hes).
      rewrite <- app_assoc. simpl. do 3 f_equal. lia. }
  cbn [extract_each children op].
  rewrite (Hk cs es [] 1%Z Hcs Hlt). reflexivity.
Qed.

(** X22. Extraction inverts insertion when nothing was merged: after any
    sequence of [addTerm] on a new e-graph, [extractSmallest] on the id of
    each of the terms returns that term with the number of its nodes, and
    leaves the e-graph unchanged. *)
Theorem extract_after_addTerm (ts : list Term) :
  exists es g,
    mapM addTerm ts EG.empty = Ret es g /\
    all2 (fun t e =>
            extractSmallest e g = Ret (xterm_of t, Fin (term_size t)) g) ts es.
Proof.
  destruct (mapM_addTerm_tree ts EG.empty tree_like_empty)
    as (es & g & E & Htl & _ & R).
  exists es, g. split; [exact E|].
  eapply all2_impl; [|exact R]. apply Forall_forall. intros t _ e Hrep.
  unfold extractSmallest. apply extract_rep; [exact Htl | exact Hrep | | constructor].
  destruct t as [o cs]. destruct Hrep as (es' & He & _). unfold UF.size.
  unfold gsize in He. lia.
Qed.

End ExtractionProperties.

(* ------------------------------------------------------------------ *)
(** * Properties of egraph.ts: e-matching *)

Section EmatchProperties.

Import Language UF EG.
Local Open Scope monad_scope.

(** The keys of [classes] are ids of the union-find. *)
Definition keys_ok (g : EGraph) : Prop :=
  ids_ok (gsize g) (map fst (classes g)).

Lemma worker_var {A} v eid0 subst (k : Substitution -> A -> M EGraph A) acc :
  worker (PVar v) eid0 subst k acc =
  (eid <- liftUF (find eid0) ;;
   match map_get String.eqb v subst with
   | None => k (map_set String.eqb v eid subst) acc
   | Some entry =>
       if Nat.eqb entry eid
       then k (map_set String.eqb v eid subst) acc
       else ret acc
   end).
Proof. reflexivity. Qed.

Lemma ematch_var_loop v l :
  forall acc g, egraph_inv g -> ids_ok (gsize g) l ->
  exists ms g',
    (fix each (eids : list EClassId) (acc : list (Substitution * EClassId))
       : M EGraph (list (Substitution * EClassId)) :=
       match eids with
       | [] => ret acc
       | eid :: rest =>
           acc' <- worker (PVar v) eid []
                     (fun subst a => ret (a ++ [(subst, eid)])) acc ;;
           each rest acc'
       end) l acc g = Ret (acc ++ ms) g' /\
    map snd ms = l /\
    Forall (fun m => exists r,
              fst m = [(v, r)] /\ root_of (unionFind g) (snd m) r) ms /\
    uf_only g g'.
Proof.
  induction l as [|x l IH]; intros acc g Hinv Hok.
  - exists [], g. rewrite app_nil_r. split; [reflexivity|].
    split; [reflexivity|]. split; [constructor|].
    apply uf_only_refl, (inv_uf g Hinv).
  - inversion Hok as [|? ? Hx Hl]; subst.
    destruct (liftUF_find_spec g x Hinv Hx) as (r & g1 & E1 & U1 & _ & _ & Rx).
    pose proof (inv_uf_only _ _ Hinv U1) as I1.
    destruct (IH (acc ++ [([(v, r)], x)]) g1 I1) as (ms & g' & E & Hs & Hf & U).
    { now rewrite (uo_size _ _ U1). }
    exists (([(v, r)], x) :: ms), g'.
    unfold bind at 1. rewrite worker_var. unfold bind at 1. rewrite E1.
    cbn [map_get map_set].
    change (ret (acc ++ [([(v, r)], x)]) g1) with (Ret (acc ++ [([(v, r)], x)]) g1).
    cbv iota beta. rewrite E.
    split; [now rewrite <- app_assoc|]. split; [simpl; now rewrite Hs|].
    split; [|eapply uf_only_trans; eauto].
    constructor; [exists r; auto|].
    eapply Forall_impl; [|exact Hf]. intros m (r' & H1 & H2).
    exists r'. split; [exact H1|].
    eapply uf_only_back; [apply (inv_uf g Hinv) | exact U1 | exact H2].
Qed.

(** X23. A pattern that is a variable matches every class once, in the
    order of the keys of [classes], and binds the variable to the
    representative of the key; the classes and nodes are left as they
    are. *)
Theorem ematch_variable_matches_every_class (v : string) (g : EGraph) :
  egraph_inv g -> keys_ok g ->
  exists ms g',
    ematch_all (PVar v) g = Ret ms g' /\
    map snd ms = map fst (classes g) /\
    Forall (fun m => exists r,
              fst m = [(v, r)] /\ root_of (unionFind g) (snd m) r) ms /\
    store g' = store g /\ classes g' = classes g /\ hashcons g' = hashcons g.
Proof.
  intros Hinv Hk.
  destruct (ematch_var_loop v (map fst (classes g)) [] g Hinv Hk)
    as (ms & g' & E & Hs & Hf & U).
  exists ms, g'. unfold ematch_all, ematch. unfold bind at 1, get.
  split; [exact E|]. split; [exact Hs|]. split; [exact Hf|].
  destruct U as [U1 U2 U3 _ _ _ _]. auto.
Qed.

Lemma ematch_variable_matches_every_class_witness :
  exists ms g',
    ematch_all (PVar "x") graph_fa = Ret ms g' /\
    map snd ms = map fst (classes graph_fa) /\
    Forall (fun m => exists r,
              fst m = [("x"%string, r)] /\
              root_of (unionFind graph_fa) (snd m) r) ms /\
    store g' = store graph_fa /\ classes g' = classes graph_fa /\
    hashcons g' = hashcons graph_fa.
Proof.
  apply ematch_variable_matches_every_class;
    [apply egraph_ok_inv; reflexivity | apply ids_okb_spec; reflexivity].
Defined.

(** No node of any class object has the operator [o]. *)
Definition op_absent (o : string) (g : EGraph) : Prop :=
  Forall (fun ec => Forall (fun nd => String.eqb o (op nd) = false) (nodes ec))
    (store g).

Lemma ematch_absent_loop o ps l :
  forall acc g, egraph_inv g -> ids_ok (gsize g) l -> op_absent o g ->
  exists g',
    (fix each (eids : list EClassId) (acc : list (Substitution * EClassId))
       : M EGraph (list (Substitution * EClassId)) :=
       match eids with
       | [] => ret acc
       | eid :: rest =>
           acc' <- worker (PNode o ps) eid []
                     (fun subst a => ret (a ++ [(subst, eid)])) acc ;;
           each rest acc'
       end) l acc g = Ret acc g' /\
    uf_only g g'.
Proof.
  induction l as [|x l IH]; intros acc g Hinv Hok Habs.
  - exists g. split; [reflexivity | apply uf_only_refl, (inv_uf g Hinv)].
  - inversion Hok as [|? ? Hx Hl]; subst.
    destruct (liftUF_find_spec g x Hinv Hx) as (r & g1 & E1 & U1 & Hr & _ & _).
    pose proof (inv_uf_only _ _ Hinv U1) as I1.
    destruct (inv_roots g1 I1 r Hr) as (ref & Hc & Hlt).
    destruct (nth_error (store g1) ref) as [ec|] eqn:Hec;
      [|apply nth_error_None in Hec; lia].
    assert (Habs1 : op_absent o g1)
      by (unfold op_absent; now rewrite (uo_store _ _ U1)).
    destruct (IH acc g1 I1) as (g' & E & U);
      [now rewrite (uo_size _ _ U1) | exact Habs1 |].
    exists g'. split; [|eapply uf_only_trans; eauto].
    unfold bind at 1. cbn [worker]. unfold bind at 1. rewrite E1.
    unfold bind at 1, get. rewrite Hc. unfold bind at 1, deref. rewrite Hec.
    assert (Hn : Forall (fun nd => String.eqb o (op nd) = false) (nodes ec)).
    { unfold op_absent in Habs1. rewrite Forall_forall in Habs1.
      apply Habs1. eapply nth_error_In; eauto. }
    clear Hec. induction Hn as [|nd nds Hnd _ IHn]; [exact E|].
    rewrite Hnd. cbn [negb]. exact IHn.
Qed.

(** X24. A pattern whose operator is the operator of no node in the e-graph
    matches nothing, whatever its children. *)
Theorem ematch_absent_operator (o : string) (ps : list Pattern) (g : EGraph) :
  egraph_inv g -> keys_ok g -> op_absent o g ->
  exists g',
    ematch_all (PNode o ps) g = Ret [] g' /\
    store g' = store g /\ classes g' = classes g /\ hashcons g' = hashcons g.
Proof.
  intros Hinv Hk Habs.
  destruct (ematch_absent_loop o ps (map fst (classes g)) [] g Hinv Hk Habs)
    as (g' & E & U).
  exists g'. unfold ematch_all, ematch. unfold bind at 1, get.
  split; [exact E|]. destruct U as [U1 U2 U3 _ _ _ _]. auto.
Qed.

Lemma ematch_absent_operator_witness :
  exists g',
    ematch_all (PNode "g" [PVar "x"]) graph_fa = Ret [] g' /\
    store g' = store graph_fa /\ classes g' = classes graph_fa /\
    hashcons g' = hashcons graph_fa.
Proof.
  apply ematch_absent_operator;
    [apply egraph_ok_inv; reflexivity | apply ids_okb_spec; reflexivity |].
  repeat constructor.
Defined.

End EmatchProperties.

(* ------------------------------------------------------------------ *)
(** * Properties of union-find.ts: [disjointSets] *)

Section DisjointSetsProperties.

Import UF.

Lemma get_add_member root key m r :
  map_get Nat.eqb r (add_member root key m) =
  if Nat.eqb r root
  then Some (match map_get Nat.eqb root m with
             | Some ks => if Nat.eqb key root then ks else (ks ++ [key])%list
             | None => if Nat.eqb key root then [root] else [root; key]
             end)
  else map_get Nat.eqb r m.
Proof.
  induction m as [|[r0 ks] m IH]; simpl.
  - destruct (Nat.eqb key root); simpl; destruct (Nat.eqb r root); reflexivity.
  - destruct (Nat.eqb_spec r0 root) as [->|Hne]; simpl.
    + rewrite Nat.eqb_refl. destruct (Nat.eqb_spec r root); reflexivity.
    + destruct (Nat.eqb_spec root r0) as [Heq|_]; [congruence|].
      destruct (Nat.eqb_spec r r0) as [->|Hr].
      * destruct (Nat.eqb_spec r0 root); [contradiction | reflexivity].
      * exact IH.
Qed.

(** The map built so far, after the keys in [done]: the entry of a root
    holds the root and the keys in [done] that it represents, and every key
    in [done] has the entry of its root. *)
Definition ds_inv (uf : UnionFind) (done : Key -> Prop)
  (m : list (Key * list Key)) : Prop :=
  (forall r ks, map_get Nat.eqb r m = Some ks ->
     nth_error (parent uf) r = Some r /\
     forall k, In k ks <-> (k = r \/ (done k /\ root_of uf k r))) /\
  (forall k r, done k -> root_of uf k r ->
     exists ks, map_get Nat.eqb r m = Some ks).

Lemma ds_inv_equiv uf uf' (done done' : Key -> Prop) m :
  (forall k, done k <-> done' k) ->
  (forall k r, root_of uf k r <-> root_of uf' k r) ->
  (forall r, nth_error (parent uf) r = Some r <-> nth_error (parent uf') r = Some r) ->
  ds_inv uf done m -> ds_inv uf' done' m.
Proof.
  intros Hd Hr Hp [H1 H2]. split.
  - intros r ks Hg. destruct (H1 r ks Hg) as [A B]. split; [now apply Hp|].
    intros k. rewrite B, Hd, Hr. reflexivity.
  - intros k r Hk Hkr. apply (H2 k r); [now apply Hd | now apply Hr].
Qed.

Lemma ds_inv_step uf (done : Key -> Prop) acc key root :
  root_of uf key root ->
  ds_inv uf done acc ->
  ds_inv uf (fun k => done k \/ k = key) (add_member root key acc).
Proof.
  intros Hkey [H1 H2].
  pose proof (root_of_is_root _ _ _ Hkey) as Hroot.
  split.
  - intros r ks Hg. rewrite get_add_member in Hg.
    destruct (Nat.eqb_spec r root) as [->|Hne].
    + split; [exact Hroot|]. inversion Hg as [Hks]. clear Hg Hks.
      destruct (map_get Nat.eqb root acc) as [ks0|] eqn:E.
      * destruct (H1 root ks0 E) as [_ B].
        destruct (Nat.eqb_spec key root) as [->|Hkr]; intros k.
        -- rewrite B. split; [tauto|].
           intros [->|[[Hd| ->] Hr]]; auto.
        -- rewrite in_app_iff, B. simpl. split.
           ++ intros [[->|[Hd Hr]]|[->|[]]]; auto.
           ++ intros [->|[[Hd| ->] Hr]]; auto.
      * assert (Hnone : forall k, done k -> root_of uf k root -> False).
        { intros k Hd Hr. destruct (H2 k root Hd Hr) as [ks' Hks']. congruence. }
        destruct (Nat.eqb_spec key root) as [->|Hkr]; intros k; simpl.
        -- split.
           ++ intros [->|[]]. auto.
           ++ intros [->|[[Hd| ->] Hr]]; auto. exfalso. eauto.
        -- split.
           ++ intros [->|[->|[]]]; auto.
           ++ intros [->|[[Hd| ->] Hr]]; auto. exfalso. eauto.
    + destruct (H1 r ks Hg) as [A B]. split; [exact A|].
      intros k. rewrite B. split; [tauto|].
      intros [->|[[Hd| ->] Hr]]; auto.
      exfalso. apply Hne. eapply root_of_functional; eauto.
  - intros k r Hk Hr. rewrite get_add_member.
    destruct (Nat.eqb_spec r root) as [->|Hne]; [eauto|].
    destruct Hk as [Hd| ->]; [eauto|].
    exfalso. apply Hne. eapply root_of_functional; eauto.
Qed.

Lemma ds_loop l :
  forall acc uf1 (done : Key -> Prop),
  uf_wf uf1 ->
  Forall (fun k => k < List.length (parent uf1)) l ->
  ds_inv uf1 done acc ->
  exists m uf',
    (fix go (keys : list Key) (acc : list (Key * list Key))
       : M UnionFind (list (Key * list Key)) :=
       match keys with
       | [] => ret acc
       | key :: rest =>
           (root <- find key ;; go rest (add_member root key acc))%monad
       end) l acc uf1 = Ret m uf' /\
    ds_inv uf1 (fun k => done k \/ In k l) m /\
    uf_wf uf' /\
    List.length (parent uf') = List.length (parent uf1) /\
    (forall k r, root_of uf1 k r <-> root_of uf' k r).
Proof.
  induction l as [|key rest IH]; intros acc uf1 done Hwf Hl Hinv.
  - exists acc, uf1. split; [reflexivity|]. split.
    + eapply ds_inv_equiv; [| | |exact Hinv]; simpl; tauto.
    + split; [exact Hwf|]. split; [reflexivity | tauto].
  - inversion Hl as [|? ? Hk Hrest]; subst.
    destruct (find_spec uf1 key Hwf Hk) as (root & uf2 & E & P).
    pose proof P as (Hkr & Hwf2 & _ & Hlen & Hroots & Hpres).
    assert (Hsame : forall k r, root_of uf1 k r <-> root_of uf2 k r).
    { intros k r. split; [apply Hpres|]. eapply find_post_back; eauto. }
    pose proof (ds_inv_step uf1 done acc key root Hkr Hinv) as Hstep.
    destruct (IH (add_member root key acc) uf2 (fun k => done k \/ k = key) Hwf2)
      as (m & uf' & E' & Hinv' & Hwf' & Hlen' & Hsame').
    { rewrite Hlen. exact Hrest. }
    { eapply ds_inv_equiv; [| | |exact Hstep]; auto. reflexivity. }
    exists m, uf'. unfold bind at 1. rewrite E.
    split; [exact E'|]. split.
    + eapply ds_inv_equiv; [| | |exact Hinv'].
      * intros k. simpl. split; [intros [[H|H]|H] | intros [H|[H|H]]]; auto.
      * intros k r. symmetry. apply Hsame.
      * intros r. symmetry. apply Hroots.
    + split; [exact Hwf'|]. split; [congruence|].
      intros k r. rewrite Hsame. apply Hsame'.
Qed.

(** X25. [disjointSets] returns the partition of the keys by
    representative: the entry of [r] exists and lists [k] exactly when [r]
    is the representative of [k]. The call may compress paths, but changes
    no representative. *)
Theorem disjointSets_is_the_partition (uf : UnionFind) :
  uf_wf uf ->
  exists m uf',
    disjointSets uf = Ret m uf' /\
    (forall k r,
       (exists ks, map_get Nat.eqb r m = Some ks /\ In k ks) <-> root_of uf k r) /\
    (forall k r, root_of uf k r <-> root_of uf' k r).
Proof.
  intros Hwf. unfold disjointSets.
  destruct (ds_loop (seq 0 (size uf)) [] uf (fun _ => False) Hwf)
    as (m & uf' & E & [H1 H2] & _ & _ & Hsame).
  { apply Forall_forall. intros k Hk. apply in_seq in Hk. unfold size in Hk. lia. }
  { split; [intros r ks H; discriminate | intros k r []]. }
  exists m, uf'. split; [exact E|]. split; [|exact Hsame].
  intros k r. split.
  - intros (ks & Hg & Hin). destruct (H1 r ks Hg) as [A B].
    apply B in Hin. destruct Hin as [->|[_ Hr]]; [now apply root_of_root | exact Hr].
  - intros Hr.
    assert (Hd : False \/ In k (seq 0 (size uf))).
    { right. apply in_seq. pose proof (root_of_lt _ _ _ Hr). unfold size. lia. }
    destruct (H2 k r Hd Hr) as [ks Hg]. exists ks. split; [exact Hg|].
    destruct (H1 r ks Hg) as [_ B]. apply B. right. auto.
Qed.

Lemma disjointSets_is_the_partition_witness :
  exists m uf',
    disjointSets (mkUF [0; 0; 1; 3] [2; 1; 0; 0]) = Ret m uf' /\
    (forall k r,
       (exists ks, map_get Nat.eqb r m = Some ks /\ In k ks)
       <-> root_of (mkUF [0; 0; 1; 3] [2; 1; 0; 0]) k r) /\
    (forall k r, root_of (mkUF [0; 0; 1; 3] [2; 1; 0; 0]) k r <-> root_of uf' k r).
Proof.
  apply disjointSets_is_the_partition. apply uf_okb_spec. reflexivity.
Defined.

End DisjointSetsProperties.

(* ------------------------------------------------------------------ *)
(** * Properties of egraph.ts: patterns and the saturation driver *)

Section DriverProperties.

Import Language UF EG.
Local Open Scope monad_scope.

(** Every variable of the pattern has a binding. *)
Fixpoint vars_bound (subst : Substitution) (p : Pattern) : bool :=
  match p with
  | PVar name =>
      match map_get String.eqb name subst with
      | Some _ => true
      | None => false
      end
  | PNode _ ps => forallb (vars_bound subst) ps
  end.

Definition subst_ok (n : nat) (subst : Substitution) : Prop :=
  Forall (fun kv => snd kv < n) subst.

Lemma subst_ok_get n subst v e :
  subst_ok n subst -> map_get String.eqb v subst = Some e -> e < n.
Proof.
  intros H. induction H as [|[k x] l Hx _ IH]; simpl; [discriminate|].
  destruct (String.eqb v k); [|exact IH]. intros E. inversion E; subst. exact Hx.
Qed.

Lemma subst_ok_mono n m subst : subst_ok n subst -> n <= m -> subst_ok m subst.
Proof.
  unfold subst_ok. intros H Hle. eapply Forall_impl; [|exact H].
  intros a Ha. simpl in Ha. lia.
Qed.

Lemma defined_map_Some {A} (l : list A) : defined (map Some l) = Some l.
Proof. induction l as [|x l IH]; simpl; [reflexivity | now rewrite IH]. Qed.

Lemma addPattern_spec subst p :
  forall g, egraph_inv g -> subst_ok (gsize g) subst ->
  vars_bound subst p = true ->
  exists e g',
    addPattern subst p g = Ret (Some e) g' /\ egraph_inv g' /\
    e < gsize g' /\ gsize g <= gsize g'.
Proof.
  induction p as [name | o ps IH] using Pattern_rect'; intros g Hinv Hs Hb.
  - simpl in Hb |- *.
    destruct (map_get String.eqb name subst) as [e|] eqn:E; [|discriminate].
    exists e, g. split; [reflexivity|]. split; [exact Hinv|].
    split; [eapply subst_ok_get; eauto | lia].
  - simpl in Hb.
    assert (Hps : exists es g1,
               mapM (addPattern subst) ps g = Ret (map Some es) g1 /\
               egraph_inv g1 /\
               ids_ok (gsize g1) es /\ gsize g <= gsize g1).
    { clear o. revert g Hinv Hs Hb.
      induction IH as [|c cs Hc _ IHcs]; intros g Hinv Hs Hb.
      - exists [], g. split; [reflexivity|]. split; [exact Hinv|].
        split; [constructor | lia].
      - simpl in Hb. apply andb_true_iff in Hb as [Hb1 Hb2].
        destruct (Hc g Hinv Hs Hb1) as (e & g1 & E1 & I1 & L1 & S1).
        destruct (IHcs g1 I1 (subst_ok_mono _ _ _ Hs S1) Hb2)
          as (es & g2 & E2 & I2 & L2 & S2).
        exists (e :: es), g2. cbn [mapM]. fold (mapM (addPattern subst)).
        unfold bind at 1. rewrite E1. unfold bind at 1. rewrite E2.
        split; [reflexivity|]. split; [exact I2|].
        split; [constructor; [lia | exact L2] | lia]. }
    destruct Hps as (es & g1 & E1 & I1 & L1 & S1).
    destruct (add_inv g1 (mkENode o es) I1 L1)
      as (eid & g' & E & I' & Hlt & Hsz & _).
    exists eid, g'. cbn [addPattern]. fold (mapM (addPattern subst)).
    unfold bind at 1. rewrite E1. rewrite defined_map_Some.
    unfold bind at 1. rewrite E.
    split; [reflexivity|]. split; [exact I'|]. split; [exact Hlt | lia].
Qed.

(** X26. [addPattern] succeeds when the substitution binds every variable
    of the pattern to an id of the union-find: it returns such an id (not
    [undefined]) and leaves the e-graph well formed. *)
Theorem addPattern_keeps_invariant
  (subst : Substitution) (p : Pattern) (g : EGraph) :
  egraph_inv g -> subst_ok (gsize g) subst -> vars_bound subst p = true ->
  exists e g',
    addPattern subst p g = Ret (Some e) g' /\ egraph_inv g' /\ e < gsize g'.
Proof.
  intros Hinv Hs Hb.
  destruct (addPattern_spec subst p g Hinv Hs Hb) as (e & g' & E & I' & L & _).
  exists e, g'. auto.
Qed.

Lemma addPattern_keeps_invariant_witness :
  exists e g',
    addPattern [("x"%string, 1)] (PNode "g" [PVar "x"; PNode "a" []]) graph_fa
    = Ret (Some e) g' /\ egraph_inv g' /\ e < gsize g'.
Proof.
  apply addPattern_keeps_invariant;
    [apply egraph_ok_inv; reflexivity
    | repeat constructor
    | reflexivity].
Defined.

Lemma disjointSets_roots (uf : UnionFind) l :
  Forall (fun k => nth_error (parent uf) k = Some k) l ->
  forall acc, exists m,
    (fix go (keys : list Key) (acc : list (Key * list Key))
       : M UnionFind (list (Key * list Key)) :=
       match keys with
       | [] => ret acc
       | key :: rest =>
           (root <- find key ;; go rest (add_member root key acc))%monad
       end) l acc uf = Ret m uf /\
    forall k, In k l \/ map_get Nat.eqb k acc <> None ->
              map_get Nat.eqb k m <> None.
Proof.
  induction 1 as [|k l Hk _ IH]; intros acc.
  - exists acc. split; [reflexivity|]. intros k [[]|H]. exact H.
  - destruct (IH (add_member k k acc)) as (m & E & Hm). exists m.
    unfold bind at 1. rewrite (find_root _ _ Hk). split; [exact E|].
    intros k' Hk'. apply Hm. rewrite get_add_member.
    destruct (Nat.eqb_spec k' k) as [->|Hne]; [right; discriminate|].
    destruct Hk' as [[Heq|Hin]|Hacc]; [congruence | now left | now right].
Qed.

Lemma dumpEGraph_tree g : tree_like g -> dumpEGraph g = Ret tt g.
Proof.
  intros Htl. unfold dumpEGraph. unfold bind at 1. unfold liftUF, disjointSets.
  destruct (disjointSets_roots (unionFind g) (seq 0 (size (unionFind g))))
    with (acc := @nil (Key * list Key)) as (m & E & Hm).
  { apply Forall_forall. intros k Hk. apply in_seq in Hk.
    apply (tl_roots g Htl). unfold gsize, size in *. lia. }
  rewrite E.
  replace (set_unionFind g (unionFind g)) with g by (now destruct g).
  unfold bind at 1, get.
  assert (Hall : forallb (fun kv : EClassId * nat =>
                   match map_get Nat.eqb (fst kv) m with
                   | Some _ => true
                   | None => false
                   end) (classes g) = true).
  { apply forallb_forall. intros kv Hin.
    assert (Hlt : fst kv < gsize g)
      by (apply (tl_keys g Htl); now apply in_map).
    specialize (Hm (fst kv)).
    destruct (map_get Nat.eqb (fst kv) m); [reflexivity|].
    exfalso. apply Hm; [|reflexivity]. left. apply in_seq.
    unfold gsize, size in *. lia. }
  rewrite Hall. reflexivity.
Qed.

Lemma iterate_no_rewrites n g :
  exists b, iterate n [] g = Ret b g.
Proof.
  destruct n as [|n]; [exists false; reflexivity|].
  exists true. cbn [iterate]. unfold bind, get, sweep. cbn [forM]. unfold ret.
  now rewrite !Nat.eqb_refl.
Qed.

(** X27. Without rewrites [equality_saturation] returns its input term,
    whatever the bound on the iterations. *)
Theorem saturation_without_rewrites (t : Term) (maxIteration : nat) :
  exists g, equality_saturation t [] maxIteration EG.empty = Ret (xterm_of t) g.
Proof.
  destruct (addTerm_tree t EG.empty tree_like_empty) as (e & g & E & Htl & _ & R).
  exists g. unfold equality_saturation. unfold bind at 1. rewrite E.
  unfold bind at 1. rewrite (dumpEGraph_tree g Htl).
  destruct (iterate_no_rewrites maxIteration g) as [b Eb].
  unfold bind at 1. rewrite Eb.
  unfold bind at 1. unfold extractSmallest.
  rewrite (extract_rep g Htl _ t e [] R); [reflexivity | | constructor].
  destruct t as [o cs]. destruct R as (es & He & _).
  unfold size. unfold gsize in He. lia.
Qed.

End DriverProperties.
